(** * Advanced-Vector: a growable array over raw storage

    A shallow embedding of [src/vector.h] ([RawMemory<T>] and [Vector<T>]).

    The C++ code works on raw memory, on objects that have an identity
    ([this != &rhs]) and on an element type [T] whose operations may throw.
    The model keeps all three:

    - the free store is a finite map from blocks to lists of slots, a slot
      being either raw memory or a live [T];
    - [Vector] objects live in a second finite map, keyed by their address, so
      that two names can denote one object;
    - every operation of [T] (and every call of [operator new]) is an event:
      it is appended to a trace, and an oracle that reads the trace so far
      decides whether it throws.

    Code is written in a state-and-exception monad; an access that C++ leaves
    undefined (outside a buffer, to a raw slot as if it were an object, a
    failed [assert]) ends the run with the outcome [Undefined]. *)

From stdpp Require Import base numbers option list gmap.
From Stdlib Require Import NArith Lia.

Set Default Proof Using "Type".

(** ** Machine integers: [size_t] *)

Definition size_t_modulus : N := 2 ^ 64.

Definition wrap (n : N) : N := n mod size_t_modulus.

Definition size_add (a b : N) : N := wrap (a + b).
Definition size_mul (a b : N) : N := wrap (a * b).
Definition size_sub (a b : N) : N := wrap (a + size_t_modulus - b mod size_t_modulus).

(** The allocator never hands out more than [PTRDIFF_MAX] bytes, and a slot
    takes at least one byte: no buffer has more than [max_slots] slots.  The
    byte count [n * sizeof(T)] itself belongs to the memory layout and is not
    modelled: a request is for [n] slots. *)
Definition max_slots : N := 2 ^ 63 - 1.

(** ** Pointers *)

Definition block := positive.
Definition loc := positive.

Inductive ptr : Type :=
  | Null
  | Ptr (b : block) (off : N).

(** [p + n] on [T*]; [nullptr + 0] is [nullptr]. *)
Definition ptr_add (p : ptr) (n : N) : ptr :=
  match p with
  | Null => Null
  | Ptr b off => Ptr b (off + n)
  end.

(** [std::prev(p)]; there is nothing before the start of an array. *)
Definition ptr_prev (p : ptr) : ptr :=
  match p with
  | Null => Null
  | Ptr b off => if (off =? 0)%N then Null else Ptr b (off - 1)
  end.

(** [p - q] converted to [size_t]; only pointers into one array (or two null
    pointers) may be subtracted. *)
Definition ptr_diff (p q : ptr) : option N :=
  match p, q with
  | Null, Null => Some 0%N
  | Ptr b1 o1, Ptr b2 o2 =>
      if decide (b1 = b2) then Some (size_sub o1 o2) else None
  | _, _ => None
  end.

(** [p <= q] and [p < q], with the same restriction. *)
Definition ptr_le (p q : ptr) : option bool :=
  match p, q with
  | Null, Null => Some true
  | Ptr b1 o1, Ptr b2 o2 =>
      if decide (b1 = b2) then Some (o1 <=? o2)%N else None
  | _, _ => None
  end.

(** The number of steps from [first] to [last], as the loops
    [for (; first != last; ++first)] need it. *)
Definition distance (first last : ptr) : option N :=
  match ptr_le first last with
  | Some true => ptr_diff last first
  | _ => None
  end.

Definition ptr_lt (p q : ptr) : option bool :=
  match p, q with
  | Null, Null => Some false
  | Ptr b1 o1, Ptr b2 o2 =>
      if decide (b1 = b2) then Some (o1 <? o2)%N else None
  | _, _ => None
  end.

(** ** Objects

    A [RawMemory] is a pointer and a capacity; a [Vector] is a [RawMemory] and
    a size. *)

Record RawMemory : Type := mkRawMemory {
  buffer_ : ptr;
  capacity_ : N;
}.

Record Vector : Type := mkVector {
  data_ : RawMemory;
  size_ : N;
}.

(** Exceptions: [std::bad_alloc] and whatever an element operation throws. *)
Inductive exn : Type := BadAlloc | ElemFailure.

Inductive outcome (A : Type) : Type :=
  | Ok (a : A)
  | Throw (e : exn)
  | Undefined.
Arguments Ok {A} a.
Arguments Throw {A} e.
Arguments Undefined {A}.

(** ** The element type

    A slot of a buffer is raw memory or holds a live element. *)
Inductive slot (T : Type) : Type :=
  | Raw
  | Live (v : T).
Arguments Raw {T}.
Arguments Live {T} v.

(** The operations the container asks of the element type and of the
    allocator. *)
Inductive op (T Args : Type) : Type :=
  | OpAlloc (n : N)
  | OpConstruct (a : Args)
  | OpValueInit
  | OpCopy (v : T)
  | OpMove (v : T)
  | OpCopyAssign (d v : T)
  | OpMoveAssign (d v : T)
  | OpDestroy (v : T).
Arguments OpAlloc {T Args} n.
Arguments OpConstruct {T Args} a.
Arguments OpValueInit {T Args}.
Arguments OpCopy {T Args} v.
Arguments OpMove {T Args} v.
Arguments OpCopyAssign {T Args} d v.
Arguments OpMoveAssign {T Args} d v.
Arguments OpDestroy {T Args} v.

(** An event is an operation and whether it threw. *)
Definition event (T Args : Type) : Type := op T Args * bool.

(** What the template parameter [T] brings: the arguments its constructors
    take and the value they build, the value of [T()], what a move leaves in
    its source, which operations throw (an oracle over the trace so far), and
    the two traits the code's [if constexpr] tests read. *)
Class Elem : Type := {
  T : Type;
  Args : Type;
  construct_value : Args → T;
  default_value : T;
  moved_from : T → T;
  throws : list (event T Args) → op T Args → bool;
  nothrow_move_constructible : bool;
  copy_constructible : bool;
}.

Section Model.

Context {E : Elem}.

Record state : Type := mkState {
  heap : gmap block (list (slot T));
  vecs : gmap loc Vector;
  trace : list (event T Args);
}.

Definition set_heap (f : gmap block (list (slot T)) → gmap block (list (slot T)))
    (s : state) : state :=
  mkState (f (heap s)) (vecs s) (trace s).
Definition set_vecs (f : gmap loc Vector → gmap loc Vector) (s : state) : state :=
  mkState (heap s) (f (vecs s)) (trace s).
Definition log (e : event T Args) (s : state) : state :=
  mkState (heap s) (vecs s) (trace s ++ [e]).

(** ** The monad *)

Definition M (A : Type) : Type := state → outcome A * state.

Definition ret {A} (a : A) : M A := λ s, (Ok a, s).

Definition bind {A B} (m : M A) (f : A → M B) : M B :=
  λ s, match m s with
       | (Ok a, s') => f a s'
       | (Throw e, s') => (Throw e, s')
       | (Undefined, s') => (Undefined, s')
       end.

Definition undefined {A} : M A := λ s, (Undefined, s).
Definition throw {A} (e : exn) : M A := λ s, (Throw e, s).

Notation "'let*' x := m 'in' k" := (bind m (λ x, k))
  (at level 10, x pattern, m at level 100, k at level 200).
Notation "m ;;; k" := (bind m (λ _, k))
  (at level 100, k at level 200, right associativity).

Definition assert (b : bool) : M unit := if b then ret tt else undefined.

Definition assert_opt (b : option bool) : M unit :=
  match b with Some true => ret tt | _ => undefined end.

Definition lift_opt {A} (o : option A) : M A :=
  match o with Some a => ret a | None => undefined end.

(** [try { m } catch (...) { h }]: the handler's outcome replaces the
    exception. *)
Definition try_catch {A} (m : M A) (h : M A) : M A :=
  λ s, match m s with
       | (Throw _, s') => h s'
       | r => r
       end.

(** [try { m } catch (...) { h; throw; }], and the unwinding of a scope whose
    local has destructor [h]. *)
Definition on_unwind {A} (h : M unit) (m : M A) : M A :=
  λ s, match m s with
       | (Throw e, s') =>
           match h s' with
           | (Ok _, s'') => (Throw e, s'')
           | (Throw e', s'') => (Throw e', s'')
           | (Undefined, s'') => (Undefined, s'')
           end
       | r => r
       end.

(** A scope with a local whose destructor [h] runs on both exits. *)
Definition scope {A} (h : M unit) (m : M A) : M A :=
  let* a := on_unwind h m in h ;;; ret a.

(** ** Memory and element primitives *)

(** One operation of the element type or of the allocator. *)
Definition perform (o : op T Args) (e : exn) : M unit :=
  λ s, let b := throws (trace s) o in
       (if b then Throw e else Ok tt, log (o, b) s).

(** Destructors do not throw. *)
Definition log_destroy (v : T) : M unit :=
  λ s, (Ok tt, log (OpDestroy v, false) s).

Definition load (p : ptr) : M (slot T) :=
  λ s, match p with
       | Null => (Undefined, s)
       | Ptr b off =>
           match heap s !! b with
           | Some l =>
               match l !! N.to_nat off with
               | Some x => (Ok x, s)
               | None => (Undefined, s)
               end
           | None => (Undefined, s)
           end
       end.

Definition store (p : ptr) (x : slot T) : M unit :=
  λ s, match p with
       | Null => (Undefined, s)
       | Ptr b off =>
           match heap s !! b with
           | Some l =>
               if decide (N.to_nat off < length l)
               then (Ok tt, set_heap <[b := <[N.to_nat off := x]> l]> s)
               else (Undefined, s)
           | None => (Undefined, s)
           end
       end.

(** Read an object: the slot must hold one. *)
Definition load_live (p : ptr) : M T :=
  let* x := load p in
  match x with Live v => ret v | Raw => undefined end.

(** Placement-new needs raw memory. *)
Definition check_raw (p : ptr) : M unit :=
  let* x := load p in
  match x with Raw => ret tt | Live _ => undefined end.

(** What [std::forward<Args>(args)...] can be: constructor arguments that are
    values, a [const T&] (copy), or a [T&&] (move). *)
Inductive ctor_arg : Type :=
  | ByArgs (a : Args)
  | ByCopy (p : ptr)
  | ByMove (p : ptr).

(** [new (dst) T(std::forward<Args>(args)...)] *)
Definition construct_at (dst : ptr) (arg : ctor_arg) : M unit :=
  check_raw dst ;;;
  match arg with
  | ByArgs a =>
      perform (OpConstruct a) ElemFailure ;;;
      store dst (Live (construct_value a))
  | ByCopy p =>
      let* v := load_live p in
      perform (OpCopy v) ElemFailure ;;;
      store dst (Live v)
  | ByMove p =>
      let* v := load_live p in
      perform (OpMove v) ElemFailure ;;;
      store dst (Live v) ;;;
      store p (Live (moved_from v))
  end.

(** [new (dst) T()] *)
Definition value_construct_at (dst : ptr) : M unit :=
  check_raw dst ;;;
  perform OpValueInit ElemFailure ;;;
  store dst (Live default_value).

(** [std::destroy_at(p)] *)
Definition destroy_at (p : ptr) : M unit :=
  let* v := load_live p in
  log_destroy v ;;;
  store p Raw.

(** Copy assignment of the object at [src] to the one at [dst]. *)
Definition copy_assign_at (dst src : ptr) : M unit :=
  let* v := load_live src in
  let* d := load_live dst in
  perform (OpCopyAssign d v) ElemFailure ;;;
  store dst (Live v).

(** Move assignment of the object at [src] to the one at [dst]. *)
Definition move_assign_at (dst src : ptr) : M unit :=
  let* v := load_live src in
  let* d := load_live dst in
  perform (OpMoveAssign d v) ElemFailure ;;;
  store dst (Live v) ;;;
  store src (Live (moved_from v)).

(** ** The algorithms of [<memory>] and [<algorithm>] *)

(** [std::destroy_n(first, n)] *)
Fixpoint destroy_loop (first : ptr) (k : nat) : M unit :=
  match k with
  | O => ret tt
  | S k' => destroy_at first ;;; destroy_loop (ptr_add first 1) k'
  end.

Definition destroy_n (first : ptr) (n : N) : M unit :=
  destroy_loop first (N.to_nat n).

(** [std::destroy(first, last)] *)
Definition destroy (first last : ptr) : M unit :=
  let* n := lift_opt (distance first last) in
  destroy_n first n.

(** [std::uninitialized_copy_n(first, n, d_first)]: what was built is
    destroyed again when a copy throws. *)
Fixpoint uninitialized_copy_loop (d_first first current : ptr) (k : nat) : M unit :=
  match k with
  | O => ret tt
  | S k' =>
      on_unwind (destroy d_first current) (construct_at current (ByCopy first)) ;;;
      uninitialized_copy_loop d_first (ptr_add first 1) (ptr_add current 1) k'
  end.

Definition uninitialized_copy_n (first : ptr) (n : N) (d_first : ptr) : M unit :=
  uninitialized_copy_loop d_first first d_first (N.to_nat n).

(** [std::uninitialized_move_n(first, n, d_first)] *)
Fixpoint uninitialized_move_loop (d_first first current : ptr) (k : nat) : M unit :=
  match k with
  | O => ret tt
  | S k' =>
      on_unwind (destroy d_first current) (construct_at current (ByMove first)) ;;;
      uninitialized_move_loop d_first (ptr_add first 1) (ptr_add current 1) k'
  end.

Definition uninitialized_move_n (first : ptr) (n : N) (d_first : ptr) : M unit :=
  uninitialized_move_loop d_first first d_first (N.to_nat n).

(** [std::uninitialized_value_construct_n(first, n)] *)
Fixpoint uninitialized_value_construct_loop (first current : ptr) (k : nat) : M unit :=
  match k with
  | O => ret tt
  | S k' =>
      on_unwind (destroy first current) (value_construct_at current) ;;;
      uninitialized_value_construct_loop first (ptr_add current 1) k'
  end.

Definition uninitialized_value_construct_n (first : ptr) (n : N) : M unit :=
  uninitialized_value_construct_loop first first (N.to_nat n).

(** [std::copy(first, last, d_first)] *)
Fixpoint copy_loop (first d_first : ptr) (k : nat) : M unit :=
  match k with
  | O => ret tt
  | S k' =>
      copy_assign_at d_first first ;;;
      copy_loop (ptr_add first 1) (ptr_add d_first 1) k'
  end.

Definition std_copy (first last d_first : ptr) : M unit :=
  let* n := lift_opt (distance first last) in
  copy_loop first d_first (N.to_nat n).

(** [std::move(first, last, d_first)] *)
Fixpoint move_loop (first d_first : ptr) (k : nat) : M unit :=
  match k with
  | O => ret tt
  | S k' =>
      move_assign_at d_first first ;;;
      move_loop (ptr_add first 1) (ptr_add d_first 1) k'
  end.

Definition std_move (first last d_first : ptr) : M unit :=
  let* n := lift_opt (distance first last) in
  move_loop first d_first (N.to_nat n).

(** [std::move_backward(first, last, d_last)] *)
Fixpoint move_backward_loop (last d_last : ptr) (k : nat) : M unit :=
  match k with
  | O => ret tt
  | S k' =>
      move_assign_at (ptr_prev d_last) (ptr_prev last) ;;;
      move_backward_loop (ptr_prev last) (ptr_prev d_last) k'
  end.

Definition move_backward (first last d_last : ptr) : M unit :=
  let* n := lift_opt (distance first last) in
  move_backward_loop last d_last (N.to_nat n).

(** ** RawMemory *)

(** [Allocate]: [operator new] is asked only for a non-zero count. *)
Definition Allocate (n : N) : M ptr :=
  if (n =? 0)%N then ret Null
  else λ s,
    if (max_slots <? n)%N || throws (trace s) (OpAlloc n)
    then (Throw BadAlloc, log (OpAlloc n, true) s)
    else
      let b := fresh (dom (heap s)) in
      (Ok (Ptr b 0),
       log (OpAlloc n, false) (set_heap <[b := replicate (N.to_nat n) Raw]> s)).

(** [Deallocate]: [operator delete] takes a null pointer or the start of a
    block it gave out; the slots are not looked at. *)
Definition Deallocate (buf : ptr) : M unit :=
  match buf with
  | Null => ret tt
  | Ptr b off =>
      λ s, if (off =? 0)%N && bool_decide (is_Some (heap s !! b))
           then (Ok tt, set_heap (delete b) s)
           else (Undefined, s)
  end.

Definition RawMemory_default : RawMemory := mkRawMemory Null 0.

(** [explicit RawMemory(size_t capacity)] *)
Definition RawMemory_ctor (capacity : N) : M RawMemory :=
  let* buf := Allocate capacity in
  ret (mkRawMemory buf capacity).

(** [~RawMemory()] *)
Definition RawMemory_dtor (r : RawMemory) : M unit :=
  Deallocate (buffer_ r).

(** [operator+] *)
Definition RawMemory_plus (r : RawMemory) (offset : N) : M ptr :=
  assert (offset <=? capacity_ r)%N ;;;
  ret (ptr_add (buffer_ r) offset).

(** [operator[]]: the reference is the address of the slot. *)
Definition RawMemory_index (r : RawMemory) (index : N) : M ptr :=
  assert (index <? capacity_ r)%N ;;;
  ret (ptr_add (buffer_ r) index).

(** [Swap] *)
Definition RawMemory_Swap (r other : RawMemory) : RawMemory * RawMemory :=
  (mkRawMemory (buffer_ other) (capacity_ other),
   mkRawMemory (buffer_ r) (capacity_ r)).

Definition GetAddress (r : RawMemory) : ptr := buffer_ r.

(** ** Vector *)

Definition get_vec (this : loc) : M Vector :=
  λ s, match vecs s !! this with
       | Some v => (Ok v, s)
       | None => (Undefined, s)
       end.

Definition put_vec (this : loc) (v : Vector) : M unit :=
  λ s, (Ok tt, set_vecs <[this := v]> s).

Definition del_vec (this : loc) : M unit :=
  λ s, (Ok tt, set_vecs (delete this) s).

Definition set_size (this : loc) (n : N) : M unit :=
  let* v := get_vec this in
  put_vec this (mkVector (data_ v) n).

Definition set_data (this : loc) (d : RawMemory) : M unit :=
  let* v := get_vec this in
  put_vec this (mkVector d (size_ v)).

(** [Size], [Capacity], [begin], [end] *)
Definition Size (this : loc) : M N :=
  let* v := get_vec this in ret (size_ v).

Definition Capacity (this : loc) : M N :=
  let* v := get_vec this in ret (capacity_ (data_ v)).

Definition vbegin (this : loc) : M ptr :=
  let* v := get_vec this in ret (GetAddress (data_ v)).

Definition vend (this : loc) : M ptr :=
  let* v := get_vec this in ret (ptr_add (GetAddress (data_ v)) (size_ v)).

(** [Vector::Swap]: the storage, then the size. *)
Definition Swap (this other : loc) : M unit :=
  let* a := get_vec this in
  let* b := get_vec other in
  let '(da, db) := RawMemory_Swap (data_ a) (data_ b) in
  set_data this da ;;;
  set_data other db ;;;
  let* a' := get_vec this in
  let* b' := get_vec other in
  set_size this (size_ b') ;;;
  set_size other (size_ a').

(** [data_.Swap(new_data)] for a local [new_data]: the local's new value is
    returned. *)
Definition swap_data_with_local (this : loc) (new_data : RawMemory) : M RawMemory :=
  let* v := get_vec this in
  let '(d, nd) := RawMemory_Swap (data_ v) new_data in
  set_data this d ;;;
  ret nd.

(** [++size_] and [--size_] *)
Definition incr_size (this : loc) : M unit :=
  let* v := get_vec this in set_size this (size_add (size_ v) 1).

Definition decr_size (this : loc) : M unit :=
  let* v := get_vec this in set_size this (size_sub (size_ v) 1).

(** [Vector()] *)
Definition Vector_default_ctor (this : loc) : M unit :=
  put_vec this (mkVector RawMemory_default 0).


(** [Vector(const Vector& other)] *)
Definition Vector_copy_ctor (this other : loc) : M unit :=
  let* o := get_vec other in
  let* d := RawMemory_ctor (size_ o) in
  on_unwind (RawMemory_dtor d)
    (uninitialized_copy_n (GetAddress (data_ o)) (size_ o) (GetAddress d)) ;;;
  put_vec this (mkVector d (size_ o)).

(** [~Vector()], followed by the destructor of the member [data_]. *)
Definition Vector_dtor (this : loc) : M unit :=
  let* v := get_vec this in
  destroy_n (GetAddress (data_ v)) (size_ v) ;;;
  RawMemory_dtor (data_ v) ;;;
  del_vec this.

(** [Vector(Vector&& other)] *)
Definition Vector_move_ctor (this other : loc) : M unit :=
  Vector_default_ctor this ;;;
  Swap this other.

(** [Reserve] *)
Definition Reserve (this : loc) (new_capacity : N) : M unit :=
  let* v := get_vec this in
  if (new_capacity <=? capacity_ (data_ v))%N then ret tt
  else
    let* new_data := RawMemory_ctor new_capacity in
    let* new_data' :=
      on_unwind (RawMemory_dtor new_data)
        ((if nothrow_move_constructible || negb copy_constructible
          then uninitialized_move_n (GetAddress (data_ v)) (size_ v) (GetAddress new_data)
          else uninitialized_copy_n (GetAddress (data_ v)) (size_ v) (GetAddress new_data)) ;;;
         destroy_n (GetAddress (data_ v)) (size_ v) ;;;
         swap_data_with_local this new_data) in
    RawMemory_dtor new_data'.

(** [operator=(const Vector& rhs)]; [copy] is a local object at a fresh
    address. *)
Definition Vector_copy_assign (this rhs : loc) : M unit :=
  if decide (this ≠ rhs) then
    let* r := get_vec rhs in
    let* t := get_vec this in
    if (capacity_ (data_ t) <? size_ r)%N then
      let* copy := (λ s, (Ok (fresh (dom (vecs s))), s)) in
      Vector_copy_ctor copy rhs ;;;
      Swap this copy ;;;
      Vector_dtor copy
    else
      (if (size_ r <? size_ t)%N then
         std_copy (GetAddress (data_ r)) (ptr_add (GetAddress (data_ r)) (size_ r))
                  (GetAddress (data_ t)) ;;;
         destroy_n (ptr_add (GetAddress (data_ t)) (size_ r)) (size_sub (size_ t) (size_ r))
       else
         std_copy (GetAddress (data_ r)) (ptr_add (GetAddress (data_ r)) (size_ t))
                  (GetAddress (data_ t)) ;;;
         uninitialized_copy_n (ptr_add (GetAddress (data_ r)) (size_ t))
                              (size_sub (size_ r) (size_ t))
                              (ptr_add (GetAddress (data_ t)) (size_ t))) ;;;
      set_size this (size_ r)
  else ret tt.

(** [operator=(Vector&& rhs)] *)
Definition Vector_move_assign (this rhs : loc) : M unit :=
  if decide (this ≠ rhs) then Swap this rhs else ret tt.

(** [Resize] *)
Definition Resize (this : loc) (new_size : N) : M unit :=
  let* v := get_vec this in
  if (new_size <? size_ v)%N then
    destroy_n (ptr_add (GetAddress (data_ v)) new_size) (size_sub (size_ v) new_size) ;;;
    set_size this new_size
  else if (new_size =? size_ v)%N then ret tt
  else if (new_size <=? capacity_ (data_ v))%N then
    uninitialized_value_construct_n (ptr_add (GetAddress (data_ v)) (size_ v))
                                    (size_sub new_size (size_ v)) ;;;
    set_size this new_size
  else
    Reserve this new_size ;;;
    let* v' := get_vec this in
    uninitialized_value_construct_n (ptr_add (GetAddress (data_ v')) (size_ v'))
                                    (size_sub new_size (size_ v')) ;;;
    set_size this new_size.

(** [Back]: a reference to the last element. *)
Definition Back (this : loc) : M ptr :=
  let* v := get_vec this in
  RawMemory_index (data_ v) (size_sub (size_ v) 1).

(** The capacity a full vector grows to. *)
Definition grown_capacity (size : N) : N :=
  if (size =? 0)%N then 1%N else size_mul size 2.

(** [EmplaceBack] *)
Definition EmplaceBack (this : loc) (arg : ctor_arg) : M ptr :=
  let* v := get_vec this in
  if (size_ v =? capacity_ (data_ v))%N then
    let* new_data := RawMemory_ctor (grown_capacity (size_ v)) in
    let* (r, new_data') :=
      on_unwind (RawMemory_dtor new_data)
        (let* p := RawMemory_plus new_data (size_ v) in
         construct_at p arg ;;;
         (if nothrow_move_constructible || negb copy_constructible
          then uninitialized_move_n (GetAddress (data_ v)) (size_ v) (GetAddress new_data)
          else uninitialized_copy_n (GetAddress (data_ v)) (size_ v) (GetAddress new_data)) ;;;
         destroy_n (GetAddress (data_ v)) (size_ v) ;;;
         let* new_data' := swap_data_with_local this new_data in
         incr_size this ;;;
         let* r := Back this in
         ret (r, new_data')) in
    RawMemory_dtor new_data' ;;;
    ret r
  else
    let* p := RawMemory_plus (data_ v) (size_ v) in
    construct_at p arg ;;;
    incr_size this ;;;
    Back this.

(** [PushBack] *)
Definition PushBack (this : loc) (value : ctor_arg) : M unit :=
  EmplaceBack this value ;;; ret tt.

(** [Emplace]; the local [new_value] of the last branch is an object on the
    stack, a one-slot block of its own. *)
Definition stack_alloc : M ptr :=
  λ s, let b := fresh (dom (heap s)) in
       (Ok (Ptr b 0), set_heap <[b := [Raw]]> s).

Definition Emplace (this : loc) (pos : ptr) (arg : ctor_arg) : M ptr :=
  let* v := get_vec this in
  let begin_ := GetAddress (data_ v) in
  let end_ := ptr_add (GetAddress (data_ v)) (size_ v) in
  assert_opt (ptr_le begin_ pos) ;;;
  assert_opt (ptr_le pos end_) ;;;
  let* shift := lift_opt (ptr_diff pos begin_) in
  if (size_ v =? shift)%N then
    EmplaceBack this arg ;;;
    let* e := vend this in
    ret (ptr_prev e)
  else if (size_ v =? capacity_ (data_ v))%N then
    let* new_data := RawMemory_ctor (grown_capacity (size_ v)) in
    let* (r, new_data') :=
      on_unwind (RawMemory_dtor new_data)
        (let* new_elem_it := RawMemory_plus new_data shift in
         construct_at new_elem_it arg ;;;
         (if nothrow_move_constructible || negb copy_constructible then
            try_catch
              (uninitialized_move_n begin_ shift (GetAddress new_data))
              (destroy_at new_elem_it) ;;;
            try_catch
              (uninitialized_move_n (ptr_add begin_ shift) (size_sub (size_ v) shift)
                 (ptr_add (ptr_add (GetAddress new_data) shift) 1))
              (destroy begin_ (ptr_add (ptr_add begin_ shift) 1))
          else
            try_catch
              (uninitialized_copy_n begin_ shift (GetAddress new_data))
              (destroy_at new_elem_it) ;;;
            try_catch
              (uninitialized_copy_n (ptr_add begin_ shift) (size_sub (size_ v) shift)
                 (ptr_add (ptr_add (GetAddress new_data) shift) 1))
              (destroy begin_ (ptr_add (ptr_add begin_ shift) 1))) ;;;
         destroy begin_ end_ ;;;
         let* new_data' := swap_data_with_local this new_data in
         incr_size this ;;;
         ret (new_elem_it, new_data')) in
    RawMemory_dtor new_data' ;;;
    ret r
  else
    let* new_value := stack_alloc in
    on_unwind (Deallocate new_value) (construct_at new_value arg) ;;;
    scope (destroy_at new_value ;;; Deallocate new_value)
      (let* p := RawMemory_plus (data_ v) (size_ v) in
       construct_at p (ByMove (ptr_prev end_)) ;;;
       on_unwind (destroy_n end_ 1)
         (move_backward pos (ptr_prev end_) end_) ;;;
       move_assign_at pos new_value ;;;
       incr_size this ;;;
       ret pos).

(** [Erase] *)
Definition Erase (this : loc) (pos : ptr) : M ptr :=
  let* v := get_vec this in
  let begin_ := GetAddress (data_ v) in
  let end_ := ptr_add (GetAddress (data_ v)) (size_ v) in
  assert_opt (ptr_le begin_ pos) ;;;
  assert_opt (ptr_lt pos end_) ;;;
  let* shift := lift_opt (ptr_diff pos begin_) in
  (if nothrow_move_constructible || negb copy_constructible
   then std_move (ptr_add pos 1) end_ pos
   else std_copy (ptr_add pos 1) end_ pos) ;;;
  destroy_at (ptr_prev end_) ;;;
  decr_size this ;;;
  ret (ptr_add begin_ shift).

(** [Insert(const_iterator, const T&)] and [Insert(const_iterator, T&&)] *)
Definition Insert (this : loc) (pos : ptr) (value : ptr) : M ptr :=
  Emplace this pos (ByCopy value).

Definition Insert_rvalue (this : loc) (pos : ptr) (value : ptr) : M ptr :=
  Emplace this pos (ByMove value).

(** [PopBack] *)
Definition PopBack (this : loc) : M unit :=
  let* v := get_vec this in
  assert (0 <? size_ v)%N ;;;
  destroy_at (ptr_add (GetAddress (data_ v)) (size_sub (size_ v) 1)) ;;;
  decr_size this.

(** [operator[]] of [Vector]: a reference to the element. *)
Definition Vector_index (this : loc) (index : N) : M ptr :=
  let* v := get_vec this in
  assert (index <? size_ v)%N ;;;
  RawMemory_index (data_ v) index.

(** ** Reading a vector off a state

    [vector_view s this] is the list of live elements of the vector at [this]
    with its capacity, when the object is well formed: [size_ <= capacity_],
    a buffer of exactly [capacity_] slots (none for capacity zero), the first
    [size_] of them live and the others raw. *)

Fixpoint live_values (l : list (slot T)) : option (list T) :=
  match l with
  | [] => Some []
  | Live v :: l' =>
      match live_values l' with
      | Some vs => Some (v :: vs)
      | None => None
      end
  | Raw :: _ => None
  end.

Definition is_raw (x : slot T) : bool :=
  match x with Raw => true | Live _ => false end.

Definition buffer_view (h : gmap block (list (slot T))) (v : Vector) : option (list T) :=
  let cap := capacity_ (data_ v) in
  if negb ((size_ v <=? cap)%N && (cap <=? max_slots)%N) then None
  else
    match buffer_ (data_ v) with
    | Null => if (cap =? 0)%N then Some [] else None
    | Ptr b off =>
        if negb ((off =? 0)%N && negb (cap =? 0)%N) then None
        else
          match h !! b with
          | None => None
          | Some l =>
              if negb (N.of_nat (length l) =? cap)%N then None
              else if negb (forallb is_raw (drop (N.to_nat (size_ v)) l)) then None
              else live_values (take (N.to_nat (size_ v)) l)
          end
    end.

Definition vector_view (s : state) (this : loc) : option (list T * N) :=
  match vecs s !! this with
  | None => None
  | Some v =>
      match buffer_view (heap s) v with
      | Some xs => Some (xs, capacity_ (data_ v))
      | None => None
      end
  end.

(** The block a vector owns, if it owns one. *)
Definition owned_block (s : state) (this : loc) : option block :=
  match vecs s !! this with
  | Some v => match buffer_ (data_ v) with Ptr b _ => Some b | Null => None end
  | None => None
  end.

(** The slots of a well-formed buffer. *)
Definition slots_of (xs : list T) (cap : N) : list (slot T) :=
  (Live <$> xs) ++ replicate (N.to_nat cap - length xs) Raw.

(** ** Runs without a failure

    [quiet tr ops]: none of the operations [ops], asked one after the other
    from the trace [tr] on, throws. *)
Fixpoint quiet (tr : list (event T Args)) (ops : list (op T Args)) : bool :=
  match ops with
  | [] => true
  | o :: ops' => negb (throws tr o) && quiet (tr ++ [(o, false)]) ops'
  end.

Definition oks (ops : list (op T Args)) : list (event T Args) := (λ o, (o, false)) <$> ops.

Definition destroys (xs : list T) : list (event T Args) :=
  (λ x, (OpDestroy x, false)) <$> xs.

(** ** The argument of an emplacement

    The object a [const T&] or [T&&] argument refers to, the operation that
    builds the new element from it, and what that operation does to the
    store: a move leaves its source moved-from. *)
Definition live_at (h : gmap block (list (slot T))) (p : ptr) : option T :=
  match p with
  | Null => None
  | Ptr b off =>
      match h !! b with
      | Some l => match l !! N.to_nat off with Some (Live v) => Some v | _ => None end
      | None => None
      end
  end.

Definition arg_op (v : T) (arg : ctor_arg) : op T Args :=
  match arg with
  | ByArgs a => OpConstruct a
  | ByCopy _ => OpCopy v
  | ByMove _ => OpMove v
  end.

Definition arg_source (h : gmap block (list (slot T))) (arg : ctor_arg) : option T :=
  match arg with
  | ByArgs a => Some (construct_value a)
  | ByCopy p => live_at h p
  | ByMove p => live_at h p
  end.

(** An argument that may be emplaced into the vector at [this]: it refers to
    a live object, and an object to be moved from is not an element of the
    vector itself. *)
Definition arg_value (s : state) (this : loc) (arg : ctor_arg) : option T :=
  match arg with
  | ByMove (Ptr b _) =>
      if decide (owned_block s this = Some b) then None else arg_source (heap s) arg
  | _ => arg_source (heap s) arg
  end.

Definition after_arg (arg : ctor_arg) (v : T) (h : gmap block (list (slot T)))
    : gmap block (list (slot T)) :=
  match arg with
  | ByMove (Ptr bs os) =>
      match h !! bs with
      | Some ls => <[bs := <[N.to_nat os := Live (moved_from v)]> ls]> h
      | None => h
      end
  | _ => h
  end.

(** ** Migration of the elements to a new buffer

    The test [std::is_nothrow_move_constructible_v<T> ||
    !std::is_copy_constructible_v<T>], the operations a migration of [xs]
    asks for, and the values it leaves in the old buffer. *)
Definition move_mode : bool :=
  nothrow_move_constructible || negb copy_constructible.

Definition migrate_ops (xs : list T) : list (op T Args) :=
  if move_mode then OpMove <$> xs else OpCopy <$> xs.

Definition leftover (xs : list T) : list T :=
  if move_mode then moved_from <$> xs else xs.

(** ** Shifting by assignment

    The assignments that move a run of elements [ws] by one slot, each over
    its neighbour; [d] is the value the first of them overwrites, and every
    later one overwrites what the step before left behind. *)
Fixpoint move_chain (d : T) (ws : list T) : list (op T Args) :=
  match ws with
  | [] => []
  | w :: ws' => OpMoveAssign d w :: move_chain (moved_from w) ws'
  end.

Fixpoint copy_chain (d : T) (ws : list T) : list (op T Args) :=
  match ws with
  | [] => []
  | w :: ws' => OpCopyAssign d w :: copy_chain w ws'
  end.

(** The value left in the slot the run was shifted out of. *)
Definition move_residue (d : T) (ws : list T) : T :=
  foldl (λ _ w, moved_from w) d ws.

Definition copy_residue (d : T) (ws : list T) : T :=
  foldl (λ _ w, w) d ws.

(** [begin() + i] for the vector at [this]. *)
Definition position (s : state) (this : loc) (i : nat) : ptr :=
  match vecs s !! this with
  | Some v => ptr_add (GetAddress (data_ v)) (N.of_nat i)
  | None => Null
  end.

(** What [Erase] asks of the element type when it removes [x], followed by
    [ws], and the value it destroys in the last slot. *)
Definition erase_ops (x : T) (ws : list T) : list (op T Args) :=
  if move_mode then move_chain x ws else copy_chain x ws.

Definition erase_residue (x : T) (ws : list T) : T :=
  if move_mode then move_residue x ws else copy_residue x ws.

(** What a successful [Emplace] of [v] at index [i] asks of the allocator
    and of the element type, in order, and the destructions that follow: a
    full vector is reallocated; otherwise the new element is built at the end,
    or built aside while the tail is shifted up by one slot from its last
    element on. *)
Definition emplace_ops (xs : list T) (cap : N) (i : nat) (v : T) (arg : ctor_arg)
    : list (op T Args) :=
  if (N.of_nat (length xs) =? cap)%N then
    [OpAlloc (grown_capacity cap); arg_op v arg] ++ migrate_ops xs
  else if decide (i = length xs) then [arg_op v arg]
  else
    match rev (drop i xs) with
    | z :: r => [arg_op v arg; OpMove z] ++ move_chain (moved_from z) (r ++ [v])
    | [] => []
    end.

Definition emplace_cleanup (xs : list T) (cap : N) (i : nat) (v : T) : list (event T Args) :=
  if (N.of_nat (length xs) =? cap)%N then destroys (leftover xs)
  else if decide (i = length xs) then []
  else [(OpDestroy (moved_from v), false)].

(** ** Two vectors

    Exclusive ownership: the two vectors do not own the same block. *)
Definition storage_disjoint (s : state) (this other : loc) : bool :=
  match owned_block s this, owned_block s other with
  | Some b1, Some b2 => negb (Pos.eqb b1 b2)
  | _, _ => true
  end.

(** What a successful copy assignment of [ys] over [xs] (capacity [cap]) asks
    for, and the destructions that follow: a copy in fresh storage when [ys]
    does not fit, otherwise assignments over the common prefix and copy
    constructions of the rest of [ys]. *)
Definition copy_assign_ops (xs : list T) (cap : N) (ys : list T) : list (op T Args) :=
  if (cap <? N.of_nat (length ys))%N
  then OpAlloc (N.of_nat (length ys)) :: (OpCopy <$> ys)
  else zip_with OpCopyAssign xs ys ++ (OpCopy <$> drop (length xs) ys).

Definition copy_assign_cleanup (xs : list T) (cap : N) (ys : list T) : list (event T Args) :=
  if (cap <? N.of_nat (length ys))%N
  then destroys xs
  else destroys (drop (length ys) xs).

(** Repeated [PushBack]. *)
Fixpoint push_all (this : loc) (args : list ctor_arg) : M unit :=
  match args with
  | [] => ret tt
  | a :: rest => PushBack this a ;;; push_all this rest
  end.

End Model.

(** * Failing runs

    The operations that succeed before the first of [ops] that throws, and
    what a failing [std::uninitialized_copy_n] over [xs] leaves in the trace:
    the copies made, the copy that throws, and the destruction of the copies
    made. *)
Section FailingRuns.

Context {E : Elem}.

Fixpoint quiet_prefix (tr : list (event T Args)) (ops : list (op T Args)) : nat :=
  match ops with
  | [] => 0
  | o :: ops' => if throws tr o then 0 else S (quiet_prefix (tr ++ [(o, false)]) ops')
  end.

Definition failed_copy_events (tr : list (event T Args)) (xs : list T)
    : list (event T Args) :=
  let j := quiet_prefix tr (OpCopy <$> xs) in
  oks (OpCopy <$> take j xs)
  ++ match xs !! j with Some x => [(OpCopy x, true)] | None => [] end
  ++ destroys (take j xs).

End FailingRuns.

(** * Element types and states for the examples *)

(** Integers whose copy constructor throws on the value 13 and whose move
    constructor is not [noexcept]: reallocation copies. A moved-from integer
    reads -1. *)
Definition unlucky_int : Elem := {|
  T := Z;
  Args := Z;
  construct_value := λ a, a;
  default_value := 0%Z;
  moved_from := λ _, (-1)%Z;
  throws := λ _ o, match o with OpCopy 13%Z => true | _ => false end;
  nothrow_move_constructible := false;
  copy_constructible := true;
|}.

(** Integers with a [noexcept] move constructor, nothing throws:
    reallocation moves. *)
Definition plain_int : Elem := {|
  T := Z;
  Args := Z;
  construct_value := λ a, a;
  default_value := 0%Z;
  moved_from := λ _, (-1)%Z;
  throws := λ _ _, false;
  nothrow_move_constructible := true;
  copy_constructible := true;
|}.

(** Integers for which assigning the value 7, by copy or by move, throws. *)
Definition unlucky_assign_int : Elem := {|
  T := Z;
  Args := Z;
  construct_value := λ a, a;
  default_value := 0%Z;
  moved_from := λ _, (-1)%Z;
  throws := λ _ o,
    match o with
    | OpMoveAssign _ 7%Z | OpCopyAssign _ 7%Z => true
    | _ => false
    end;
  nothrow_move_constructible := false;
  copy_constructible := true;
|}.

Section Examples.

Context {E : Elem}.

(** One vector, at location 1, holding [xs] in block 1 of [cap] slots. *)
Definition one_vector (xs : list T) (cap : N) : state :=
  mkState {[1%positive := slots_of xs cap]}
          {[1%positive := mkVector (mkRawMemory (Ptr 1%positive 0) cap) (N.of_nat (length xs))]}
          [].

(** Two vectors: [xs] at location 1 in block 1, [ys] at location 2 in
    block 2, both full. *)
Definition two_vectors (xs ys : list T) : state :=
  mkState {[1%positive := slots_of xs (N.of_nat (length xs));
            2%positive := slots_of ys (N.of_nat (length ys))]}
          {[1%positive := mkVector (mkRawMemory (Ptr 1%positive 0) (N.of_nat (length xs)))
                                   (N.of_nat (length xs));
            2%positive := mkVector (mkRawMemory (Ptr 2%positive 0) (N.of_nat (length ys)))
                                   (N.of_nat (length ys))]}
          [].


End Examples.


(** * Proofs *)

(** * Proofs *)

(** ** Arithmetic of [size_t] *)

Lemma wrap_small (n : N) : (n < size_t_modulus)%N → wrap n = n.
Proof. intros H. unfold wrap. by apply N.mod_small. Qed.

Lemma max_slots_lt_modulus : (2 * max_slots + 1 < size_t_modulus)%N.
Proof. by vm_compute. Qed.

Lemma size_add_small (a b : N) : (a + b < size_t_modulus)%N → size_add a b = (a + b)%N.
Proof. apply wrap_small. Qed.

Lemma size_sub_small (a b : N) :
  (b ≤ a)%N → (a < size_t_modulus)%N → size_sub a b = (a - b)%N.
Proof.
  intros Hle Hlt. unfold size_sub, wrap.
  rewrite (N.mod_small b) by lia.
  replace (a + size_t_modulus - b)%N with (a - b + 1 * size_t_modulus)%N by lia.
  rewrite N.Div0.mod_add. apply N.mod_small. lia.
Qed.

Lemma grown_capacity_max (n : N) :
  (n ≤ max_slots)%N → grown_capacity n = N.max 1 (2 * n).
Proof.
  intros Hn. unfold grown_capacity, size_mul.
  pose proof max_slots_lt_modulus.
  destruct (N.eqb_spec n 0) as [->|Hne]; [done|].
  rewrite wrap_small by lia. lia.
Qed.

(** ** Lists of slots *)

Lemma insert_middle {A} (l1 l2 : list A) (x y : A) (n : nat) :
  n = length l1 → <[n := y]> (l1 ++ x :: l2) = l1 ++ y :: l2.
Proof.
  intros ->. replace (length l1) with (length l1 + 0) by lia.
  by rewrite insert_app_r.
Qed.

Lemma middle_length {A} (l1 l2 : list A) (x : A) (n : nat) :
  n = length l1 → n < length (l1 ++ x :: l2).
Proof. intros ->. rewrite length_app. simpl. lia. Qed.

Section Basics.

Context {E : Elem}.

Implicit Types (s : state) (h : gmap block (list (slot T))).
Implicit Types (vm : gmap loc Vector) (t : list (event T Args)).
Implicit Types (l pre post : list (slot T)) (xs ys : list T).

(** ** The oracle *)

Lemma quiet_app t (ops1 ops2 : list (op T Args)) :
  quiet t (ops1 ++ ops2) = quiet t ops1 && quiet (t ++ oks ops1) ops2.
Proof.
  revert t. induction ops1 as [|o ops1 IH]; intros t; simpl.
  - by rewrite app_nil_r.
  - rewrite IH. rewrite <- andb_assoc. do 3 f_equal.
    by rewrite <- app_assoc.
Qed.

Lemma quiet_cons t o (ops : list (op T Args)) :
  quiet t (o :: ops) = true → throws t o = false ∧ quiet (t ++ [(o, false)]) ops = true.
Proof.
  simpl. intros [H1 H2]%andb_true_iff. split; [|done].
  by apply negb_true_iff.
Qed.

(** ** Primitives *)

Lemma load_ok h vm t b off l (x : slot T) :
  h !! b = Some l → l !! N.to_nat off = Some x →
  load (Ptr b off) (mkState h vm t) = (Ok x, mkState h vm t).
Proof. intros Hb Hx. unfold load. simpl. by rewrite Hb, Hx. Qed.

Lemma load_live_ok h vm t b off l (x : T) :
  h !! b = Some l → l !! N.to_nat off = Some (Live x) →
  load_live (Ptr b off) (mkState h vm t) = (Ok x, mkState h vm t).
Proof. intros Hb Hx. unfold load_live, bind. by rewrite (load_ok _ _ _ _ _ l (Live x)). Qed.

Lemma check_raw_ok h vm t b off l :
  h !! b = Some l → l !! N.to_nat off = Some Raw →
  check_raw (Ptr b off) (mkState h vm t) = (Ok tt, mkState h vm t).
Proof. intros Hb Hx. unfold check_raw, bind. by rewrite (load_ok _ _ _ _ _ l Raw). Qed.

Lemma store_ok h vm t b off l (x : slot T) :
  h !! b = Some l → N.to_nat off < length l →
  store (Ptr b off) x (mkState h vm t)
  = (Ok tt, mkState (<[b := <[N.to_nat off := x]> l]> h) vm t).
Proof.
  intros Hb Hlt. unfold store. simpl. rewrite Hb.
  by rewrite decide_True.
Qed.

Lemma perform_quiet h vm t (o : op T Args) e :
  throws t o = false →
  perform o e (mkState h vm t) = (Ok tt, mkState h vm (t ++ [(o, false)])).
Proof. intros H. unfold perform. simpl. by rewrite H. Qed.

Lemma perform_throws h vm t (o : op T Args) e :
  throws t o = true →
  perform o e (mkState h vm t) = (Throw e, mkState h vm (t ++ [(o, true)])).
Proof. intros H. unfold perform. simpl. by rewrite H. Qed.

(** [destroy_at] on a live slot. *)
Lemma destroy_at_ok h vm t b off pre post (x : T) :
  h !! b = Some (pre ++ Live x :: post) → N.to_nat off = length pre →
  destroy_at (Ptr b off) (mkState h vm t)
  = (Ok tt, mkState (<[b := pre ++ Raw :: post]> h) vm (t ++ [(OpDestroy x, false)])).
Proof.
  intros Hb Hoff. unfold destroy_at, bind.
  rewrite (load_live_ok _ _ _ _ _ _ x Hb) by (by apply list_lookup_middle).
  unfold log_destroy, log. cbn [heap vecs trace].
  rewrite (store_ok _ _ _ _ _ _ _ Hb) by (by apply middle_length).
  by rewrite insert_middle.
Qed.

End Basics.

Section Loops.

Context {E : Elem}.

Implicit Types (s : state) (h : gmap block (list (slot T))).
Implicit Types (vm : gmap loc Vector) (t : list (event T Args)).
Implicit Types (l pre post spre spost : list (slot T)) (xs ys done : list T).

(** ** Sequencing *)

Lemma bind_ok {A B} (m : M A) (f : A → M B) s a s' :
  m s = (Ok a, s') → bind m f s = f a s'.
Proof. intros H. unfold bind. by rewrite H. Qed.

Lemma bind_throw {A B} (m : M A) (f : A → M B) s e s' :
  m s = (Throw e, s') → bind m f s = (Throw e, s').
Proof. intros H. unfold bind. by rewrite H. Qed.

Lemma on_unwind_ok {A} (hd : M unit) (m : M A) s a s' :
  m s = (Ok a, s') → on_unwind hd m s = (Ok a, s').
Proof. intros H. unfold on_unwind. by rewrite H. Qed.

Lemma on_unwind_throw {A} (hd : M unit) (m : M A) s e s' s'' :
  m s = (Throw e, s') → hd s' = (Ok tt, s'') → on_unwind hd m s = (Throw e, s'').
Proof. intros H H'. unfold on_unwind. by rewrite H, H'. Qed.

Lemma try_catch_ok {A} (m hd : M A) s a s' :
  m s = (Ok a, s') → try_catch m hd s = (Ok a, s').
Proof. intros H. unfold try_catch. by rewrite H. Qed.

(** ** Pointer arithmetic *)

Lemma distance_same_block b (o1 o2 : N) :
  (o1 ≤ o2)%N → (o2 < size_t_modulus)%N →
  distance (Ptr b o1) (Ptr b o2) = Some (o2 - o1)%N.
Proof.
  intros Hle Hlt. unfold distance, ptr_le, ptr_diff.
  rewrite !decide_True by done.
  destruct (N.leb_spec o1 o2); [|lia].
  by rewrite size_sub_small.
Qed.

(** ** Destruction of a range *)

Lemma destroy_loop_ok xs : ∀ h vm t b off pre post,
  h !! b = Some (pre ++ (Live <$> xs) ++ post) → N.to_nat off = length pre →
  destroy_loop (Ptr b off) (length xs) (mkState h vm t)
  = (Ok tt, mkState (<[b := pre ++ replicate (length xs) Raw ++ post]> h) vm
              (t ++ ((λ x, (OpDestroy x, false)) <$> xs))).
Proof.
  induction xs as [|x xs IH]; intros h vm t b off pre post Hb Hoff; simpl.
  - unfold ret. rewrite app_nil_r. by rewrite insert_id.
  - simpl in Hb.
    erewrite bind_ok; [|by eapply destroy_at_ok].
    rewrite (IH _ _ _ _ _ (pre ++ [Raw]) post).
    + rewrite insert_insert_eq. rewrite <- !app_assoc. done.
    + rewrite lookup_insert_eq. by rewrite <- app_assoc.
    + rewrite length_app. simpl. lia.
Qed.

Lemma destroy_n_ok xs h vm t b off pre post (n : N) :
  h !! b = Some (pre ++ (Live <$> xs) ++ post) → N.to_nat off = length pre →
  N.to_nat n = length xs →
  destroy_n (Ptr b off) n (mkState h vm t)
  = (Ok tt, mkState (<[b := pre ++ replicate (length xs) Raw ++ post]> h) vm
              (t ++ ((λ x, (OpDestroy x, false)) <$> xs))).
Proof. intros Hb Hoff Hn. unfold destroy_n. rewrite Hn. by apply destroy_loop_ok. Qed.

Lemma destroy_ok xs h vm t b (o1 o2 : N) pre post :
  h !! b = Some (pre ++ (Live <$> xs) ++ post) → N.to_nat o1 = length pre →
  N.to_nat o2 = length pre + length xs → (o2 < size_t_modulus)%N →
  destroy (Ptr b o1) (Ptr b o2) (mkState h vm t)
  = (Ok tt, mkState (<[b := pre ++ replicate (length xs) Raw ++ post]> h) vm
              (t ++ ((λ x, (OpDestroy x, false)) <$> xs))).
Proof.
  intros Hb H1 H2 Hlt. unfold destroy.
  rewrite distance_same_block by lia. simpl.
  erewrite bind_ok; [|reflexivity].
  apply destroy_n_ok; [done|done|lia].
Qed.

(** ** Construction *)

Lemma construct_at_copy h vm t bd od pre post bs os ls (x : T) :
  h !! bd = Some (pre ++ Raw :: post) → N.to_nat od = length pre →
  h !! bs = Some ls → ls !! N.to_nat os = Some (Live x) →
  construct_at (Ptr bd od) (ByCopy (Ptr bs os)) (mkState h vm t)
  = if throws t (OpCopy x)
    then (Throw ElemFailure, mkState h vm (t ++ [(OpCopy x, true)]))
    else (Ok tt, mkState (<[bd := pre ++ Live x :: post]> h) vm (t ++ [(OpCopy x, false)])).
Proof.
  intros Hd Hod Hs Hx. unfold construct_at.
  erewrite bind_ok; [|by eapply check_raw_ok; [done|apply list_lookup_middle]].
  erewrite bind_ok; [|by eapply load_live_ok].
  destruct (throws t (OpCopy x)) eqn:Ht.
  - erewrite bind_throw; [done|]. by apply perform_throws.
  - erewrite bind_ok; [|by apply perform_quiet].
    rewrite (store_ok _ _ _ _ _ _ _ Hd) by (by apply middle_length).
    by rewrite insert_middle.
Qed.

Lemma construct_at_args h vm t bd od pre post (a : Args) :
  h !! bd = Some (pre ++ Raw :: post) → N.to_nat od = length pre →
  construct_at (Ptr bd od) (ByArgs a) (mkState h vm t)
  = if throws t (OpConstruct a)
    then (Throw ElemFailure, mkState h vm (t ++ [(OpConstruct a, true)]))
    else (Ok tt, mkState (<[bd := pre ++ Live (construct_value a) :: post]> h) vm
                   (t ++ [(OpConstruct a, false)])).
Proof.
  intros Hd Hod. unfold construct_at.
  erewrite bind_ok; [|by eapply check_raw_ok; [done|apply list_lookup_middle]].
  destruct (throws t (OpConstruct a)) eqn:Ht.
  - erewrite bind_throw; [done|]. by apply perform_throws.
  - erewrite bind_ok; [|by apply perform_quiet].
    rewrite (store_ok _ _ _ _ _ _ _ Hd) by (by apply middle_length).
    by rewrite insert_middle.
Qed.

(** A move between two blocks. *)
Lemma construct_at_move h vm t bd od pre post bs os spre spost (x : T) :
  bs ≠ bd →
  h !! bd = Some (pre ++ Raw :: post) → N.to_nat od = length pre →
  h !! bs = Some (spre ++ Live x :: spost) → N.to_nat os = length spre →
  construct_at (Ptr bd od) (ByMove (Ptr bs os)) (mkState h vm t)
  = if throws t (OpMove x)
    then (Throw ElemFailure, mkState h vm (t ++ [(OpMove x, true)]))
    else (Ok tt, mkState (<[bs := spre ++ Live (moved_from x) :: spost]>
                            (<[bd := pre ++ Live x :: post]> h)) vm
                   (t ++ [(OpMove x, false)])).
Proof.
  intros Hne Hd Hod Hs Hos. unfold construct_at.
  erewrite bind_ok; [|by eapply check_raw_ok; [done|apply list_lookup_middle]].
  erewrite bind_ok; [|by eapply load_live_ok; [done|apply list_lookup_middle]].
  destruct (throws t (OpMove x)) eqn:Ht.
  - erewrite bind_throw; [done|]. by apply perform_throws.
  - erewrite bind_ok; [|by apply perform_quiet].
    erewrite bind_ok; [|by apply (store_ok _ _ _ _ _ _ _ Hd), middle_length].
    rewrite insert_middle by done.
    erewrite store_ok; [| by rewrite lookup_insert_ne | by apply middle_length].
    by rewrite insert_middle.
Qed.

(** ** Copying and moving into raw memory *)

Lemma uninitialized_copy_loop_spec vm bs bd pre post spost (d0 : N) xs :
  ∀ done spre h t (fo co : N),
  bs ≠ bd →
  h !! bs = Some (spre ++ (Live <$> xs) ++ spost) → N.to_nat fo = length spre →
  h !! bd = Some (pre ++ (Live <$> done) ++ replicate (length xs) Raw ++ post) →
  N.to_nat d0 = length pre → N.to_nat co = length pre + length done →
  (co + N.of_nat (length xs) < size_t_modulus)%N →
  if quiet t (OpCopy <$> xs)
  then uninitialized_copy_loop (Ptr bd d0) (Ptr bs fo) (Ptr bd co) (length xs) (mkState h vm t)
       = (Ok tt, mkState (<[bd := pre ++ (Live <$> done ++ xs) ++ post]> h) vm
                   (t ++ oks (OpCopy <$> xs)))
  else ∃ t', uninitialized_copy_loop (Ptr bd d0) (Ptr bs fo) (Ptr bd co) (length xs) (mkState h vm t)
       = (Throw ElemFailure,
          mkState (<[bd := pre ++ replicate (length done + length xs) Raw ++ post]> h) vm t').
Proof.
  induction xs as [|x xs IH]; intros done spre h t fo co Hne Hs Hfo Hd Hd0 Hco Hlt.
  - simpl. unfold ret. rewrite !app_nil_r. by rewrite insert_id.
  - simpl in Hs, Hd. cbn [uninitialized_copy_loop fmap list_fmap quiet].
    assert (Hd' : h !! bd = Some ((pre ++ (Live <$> done)) ++ Raw :: replicate (length xs) Raw ++ post))
      by (by rewrite <- app_assoc).
    assert (Hco' : N.to_nat co = length (pre ++ (Live <$> done)))
      by (by rewrite length_app, length_fmap).
    pose proof (construct_at_copy h vm t bd co _ _ bs fo _ x Hd' Hco' Hs
                  (list_lookup_middle _ _ _ _ Hfo)) as Hc.
    destruct (throws t (OpCopy x)) eqn:Ht; simpl.
    + eexists.
      erewrite bind_throw; [reflexivity|].
      eapply on_unwind_throw; [exact Hc|].
      erewrite (destroy_ok done); [|exact Hd|done|lia|lia].
      do 3 f_equal. rewrite replicate_add. simpl. by rewrite <- app_assoc.
    + opose proof (IH (done ++ [x]) (spre ++ [Live x])
                    (<[bd := (pre ++ (Live <$> done)) ++ Live x :: replicate (length xs) Raw ++ post]> h)
                    (t ++ [(OpCopy x, false)]) (fo + 1)%N (co + 1)%N Hne _ _ _ Hd0 _ _) as IH'.
      * rewrite lookup_insert_ne by done. by rewrite <- app_assoc.
      * rewrite length_app. simpl. lia.
      * rewrite lookup_insert_eq. rewrite fmap_app, <- !app_assoc. done.
      * rewrite length_app. simpl. lia.
      * simpl in Hlt. lia.
      * destruct (quiet (t ++ [(OpCopy x, false)]) (OpCopy <$> xs)).
        -- erewrite bind_ok; [|apply on_unwind_ok, Hc].
           rewrite IH'. rewrite insert_insert_eq. rewrite <- !app_assoc. done.
        -- destruct IH' as [t' IH']. exists t'.
           erewrite bind_ok; [|apply on_unwind_ok, Hc].
           rewrite IH'. rewrite insert_insert_eq.
           replace (length (done ++ [x]) + length xs) with (length done + length (x :: xs))
             by (rewrite length_app; simpl; lia).
           done.
Qed.


Lemma insert_two_twice (h : gmap block (list (slot T))) bs bd (S' D' S1 D1 : list (slot T)) :
  bs ≠ bd →
  <[bs := S']> (<[bd := D']> (<[bs := S1]> (<[bd := D1]> h))) = <[bs := S']> (<[bd := D']> h).
Proof.
  intros Hne. rewrite (insert_insert_ne _ bd bs) by done.
  by rewrite !insert_insert_eq.
Qed.

Lemma uninitialized_move_loop_spec vm bs bd pre post spost (d0 : N) xs :
  ∀ done spre h t (fo co : N),
  bs ≠ bd →
  h !! bs = Some (spre ++ (Live <$> xs) ++ spost) → N.to_nat fo = length spre →
  h !! bd = Some (pre ++ (Live <$> done) ++ replicate (length xs) Raw ++ post) →
  N.to_nat d0 = length pre → N.to_nat co = length pre + length done →
  (co + N.of_nat (length xs) < size_t_modulus)%N →
  if quiet t (OpMove <$> xs)
  then uninitialized_move_loop (Ptr bd d0) (Ptr bs fo) (Ptr bd co) (length xs) (mkState h vm t)
       = (Ok tt, mkState (<[bs := spre ++ (Live <$> (moved_from <$> xs)) ++ spost]>
                            (<[bd := pre ++ (Live <$> done ++ xs) ++ post]> h)) vm
                   (t ++ oks (OpMove <$> xs)))
  else ∃ h' t', uninitialized_move_loop (Ptr bd d0) (Ptr bs fo) (Ptr bd co) (length xs) (mkState h vm t)
       = (Throw ElemFailure, mkState h' vm t') ∧ is_Some (h' !! bd).
Proof.
  induction xs as [|x xs IH]; intros done spre h t fo co Hne Hs Hfo Hd Hd0 Hco Hlt.
  - simpl in *. unfold ret. rewrite !app_nil_r.
    rewrite (insert_id h bd) by done. by rewrite insert_id.
  - rewrite fmap_cons, <- app_comm_cons in Hs. simpl in Hd.
    cbn [uninitialized_move_loop length ptr_add]. rewrite fmap_cons. cbn [quiet].
    assert (Hd' : h !! bd = Some ((pre ++ (Live <$> done)) ++ Raw :: replicate (length xs) Raw ++ post))
      by (by rewrite <- app_assoc).
    assert (Hco' : N.to_nat co = length (pre ++ (Live <$> done)))
      by (by rewrite length_app, length_fmap).
    pose proof (construct_at_move h vm t bd co _ _ bs fo _ _ x Hne Hd' Hco' Hs Hfo) as Hc.
    destruct (throws t (OpMove x)) eqn:Ht; cbn [negb andb].
    + do 2 eexists. split.
      * erewrite bind_throw; [reflexivity|].
        eapply on_unwind_throw; [exact Hc|].
        erewrite (destroy_ok done); [done|exact Hd|done|lia|lia].
      * by rewrite lookup_insert_eq.
    + opose proof (IH (done ++ [x]) (spre ++ [Live (moved_from x)])
                    (<[bs := spre ++ Live (moved_from x) :: (Live <$> xs) ++ spost]>
                      (<[bd := (pre ++ (Live <$> done)) ++ Live x :: replicate (length xs) Raw ++ post]> h))
                    (t ++ [(OpMove x, false)]) (fo + 1)%N (co + 1)%N Hne _ _ _ Hd0 _ _) as IH'.
      * rewrite lookup_insert_eq. by rewrite <- app_assoc.
      * rewrite length_app. simpl. lia.
      * rewrite lookup_insert_ne, lookup_insert_eq by done.
        rewrite fmap_app, <- !app_assoc. done.
      * rewrite length_app. simpl. lia.
      * simpl in Hlt. lia.
      * destruct (quiet (t ++ [(OpMove x, false)]) (OpMove <$> xs)).
        -- erewrite bind_ok; [|apply on_unwind_ok, Hc].
           rewrite IH'. rewrite insert_two_twice by done.
           rewrite !fmap_cons, <- !app_assoc. done.
        -- destruct IH' as (h' & t' & IH' & Hsome). exists h', t'. split; [|done].
           erewrite bind_ok; [|apply on_unwind_ok, Hc].
           by rewrite IH'.
Qed.

End Loops.

Section Views.

Context {E : Elem}.

Implicit Types (s : state) (h : gmap block (list (slot T))).
Implicit Types (vm : gmap loc Vector) (t : list (event T Args)).
Implicit Types (l pre post spre spost : list (slot T)) (xs ys done : list T).

(** ** Well-formed vectors *)

Lemma live_values_fmap xs : live_values (Live <$> xs) = Some xs.
Proof. induction xs as [|x xs IH]; [done|]. rewrite fmap_cons. cbn [live_values]. by rewrite IH. Qed.

Lemma live_values_Some l xs : live_values l = Some xs → l = Live <$> xs.
Proof.
  revert xs. induction l as [|[|v] l IH]; intros xs; simpl; try done.
  - by intros [= <-].
  - destruct (live_values l) as [vs|]; [|done]. intros [= <-].
    simpl. f_equal. by apply IH.
Qed.

Lemma forallb_is_raw l : forallb is_raw l = true → l = replicate (length l) Raw.
Proof.
  induction l as [|[|v] l IH]; simpl; try done.
  intros H. f_equal. by apply IH.
Qed.

Lemma forallb_is_raw_replicate n : forallb is_raw (replicate n (@Raw T)) = true.
Proof. induction n; simpl; done. Qed.

Lemma length_slots_of xs cap :
  (N.of_nat (length xs) ≤ cap)%N → length (slots_of xs cap) = N.to_nat cap.
Proof.
  intros H. unfold slots_of. rewrite length_app, length_fmap, length_replicate. lia.
Qed.

Lemma buffer_view_inv h v xs :
  buffer_view h v = Some xs →
  size_ v = N.of_nat (length xs) ∧
  (size_ v ≤ capacity_ (data_ v))%N ∧ (capacity_ (data_ v) ≤ max_slots)%N ∧
  match buffer_ (data_ v) with
  | Null => capacity_ (data_ v) = 0%N
  | Ptr b off =>
      off = 0%N ∧ capacity_ (data_ v) ≠ 0%N ∧
      h !! b = Some (slots_of xs (capacity_ (data_ v)))
  end.
Proof.
  unfold buffer_view.
  destruct (N.leb_spec (size_ v) (capacity_ (data_ v))) as [Hle|]; [|done].
  destruct (N.leb_spec (capacity_ (data_ v)) max_slots) as [Hmax|]; [|done].
  simpl. destruct (buffer_ (data_ v)) as [|b off].
  - destruct (N.eqb_spec (capacity_ (data_ v)) 0) as [H0|]; [|done].
    intros [= <-]. simpl. repeat split; try done. lia.
  - destruct (N.eqb_spec off 0) as [->|]; [|done].
    destruct (N.eqb_spec (capacity_ (data_ v)) 0) as [|Hne]; [done|].
    simpl. destruct (h !! b) as [l|]; [|done].
    destruct (N.eqb_spec (N.of_nat (length l)) (capacity_ (data_ v))) as [Hlen|]; [|done].
    simpl. destruct (forallb is_raw _) eqn:Hraw; [|done]. simpl.
    intros Hlive. apply live_values_Some in Hlive.
    apply forallb_is_raw in Hraw.
    assert (Hxs : length xs = N.to_nat (size_ v)).
    { apply (f_equal length) in Hlive. rewrite length_fmap, length_take in Hlive. lia. }
    repeat split; try done; [lia|].
    f_equal. unfold slots_of.
    rewrite <- (take_drop (N.to_nat (size_ v)) l) at 1.
    rewrite Hlive, Hraw. do 2 f_equal. rewrite length_drop. lia.
Qed.

Lemma buffer_view_intro_ptr h b cap xs :
  (N.of_nat (length xs) ≤ cap)%N → (cap ≤ max_slots)%N → cap ≠ 0%N →
  h !! b = Some (slots_of xs cap) →
  buffer_view h (mkVector (mkRawMemory (Ptr b 0) cap) (N.of_nat (length xs))) = Some xs.
Proof.
  intros Hle Hmax Hne Hb. unfold buffer_view. simpl.
  destruct (N.leb_spec (N.of_nat (length xs)) cap); [|lia].
  destruct (N.leb_spec cap max_slots); [|lia].
  destruct (N.eqb_spec cap 0); [done|]. simpl.
  rewrite Hb. rewrite length_slots_of by done.
  rewrite N2Nat.id, N.eqb_refl. simpl.
  rewrite Nat2N.id. unfold slots_of.
  rewrite drop_app_length', take_app_length' by (by rewrite length_fmap).
  rewrite forallb_is_raw_replicate. simpl. apply live_values_fmap.
Qed.

Lemma vector_view_inv s this xs cap :
  vector_view s this = Some (xs, cap) →
  ∃ buf, vecs s !! this = Some (mkVector (mkRawMemory buf cap) (N.of_nat (length xs))) ∧
    (N.of_nat (length xs) ≤ cap)%N ∧ (cap ≤ max_slots)%N ∧
    match buf with
    | Null => cap = 0%N
    | Ptr b off => off = 0%N ∧ cap ≠ 0%N ∧ heap s !! b = Some (slots_of xs cap)
    end.
Proof.
  unfold vector_view. destruct (vecs s !! this) as [[[buf c] n]|]; [|done].
  destruct (buffer_view _ _) as [ys|] eqn:Hv; [|done].
  intros [= -> ->]. apply buffer_view_inv in Hv. simpl in Hv.
  destruct Hv as (-> & Hle & Hmax & Hbuf). by exists buf.
Qed.

Lemma vector_view_intro_ptr s this b cap xs :
  vecs s !! this = Some (mkVector (mkRawMemory (Ptr b 0) cap) (N.of_nat (length xs))) →
  (N.of_nat (length xs) ≤ cap)%N → (cap ≤ max_slots)%N → cap ≠ 0%N →
  heap s !! b = Some (slots_of xs cap) →
  vector_view s this = Some (xs, cap).
Proof.
  intros Hv Hle Hmax Hne Hb. unfold vector_view. rewrite Hv.
  by rewrite buffer_view_intro_ptr.
Qed.

Lemma vector_view_intro_null s this :
  vecs s !! this = Some (mkVector (mkRawMemory Null 0) 0) →
  vector_view s this = Some ([], 0%N).
Proof. intros Hv. unfold vector_view. by rewrite Hv. Qed.

(** An empty buffer of capacity zero is the null pointer, so a vector with
    elements owns a block. *)
Lemma vector_view_nonempty s this xs cap :
  vector_view s this = Some (xs, cap) → cap ≠ 0%N →
  ∃ b, vecs s !! this = Some (mkVector (mkRawMemory (Ptr b 0) cap) (N.of_nat (length xs))) ∧
    (N.of_nat (length xs) ≤ cap)%N ∧ (cap ≤ max_slots)%N ∧
    heap s !! b = Some (slots_of xs cap).
Proof.
  intros (buf & Hv & Hle & Hmax & Hbuf)%vector_view_inv Hne.
  destruct buf as [|b off]; [done|]. destruct Hbuf as (-> & _ & Hb). by exists b.
Qed.

Lemma vector_view_empty s this xs :
  vector_view s this = Some (xs, 0%N) →
  xs = [] ∧ vecs s !! this = Some (mkVector (mkRawMemory Null 0) 0).
Proof.
  intros (buf & Hv & Hle & Hmax & Hbuf)%vector_view_inv.
  assert (xs = []) as -> by (destruct xs; [done|simpl in Hle; lia]).
  split; [done|]. destruct buf as [|b off]; [done|]. by destruct Hbuf as (_ & ? & _).
Qed.

(** ** Vector objects *)

Lemma get_vec_ok h vm t this v :
  vm !! this = Some v → get_vec this (mkState h vm t) = (Ok v, mkState h vm t).
Proof. intros H. unfold get_vec. simpl. by rewrite H. Qed.

Lemma put_vec_ok h vm t this v :
  put_vec this v (mkState h vm t) = (Ok tt, mkState h (<[this := v]> vm) t).
Proof. done. Qed.

Lemma set_size_ok h vm t this v n :
  vm !! this = Some v →
  set_size this n (mkState h vm t) = (Ok tt, mkState h (<[this := mkVector (data_ v) n]> vm) t).
Proof. intros H. unfold set_size. by erewrite bind_ok; [|by apply get_vec_ok]. Qed.

Lemma set_data_ok h vm t this v d :
  vm !! this = Some v →
  set_data this d (mkState h vm t) = (Ok tt, mkState h (<[this := mkVector d (size_ v)]> vm) t).
Proof. intros H. unfold set_data. by erewrite bind_ok; [|by apply get_vec_ok]. Qed.

Lemma incr_size_ok h vm t this v :
  vm !! this = Some v →
  incr_size this (mkState h vm t)
  = (Ok tt, mkState h (<[this := mkVector (data_ v) (size_add (size_ v) 1)]> vm) t).
Proof.
  intros H. unfold incr_size. erewrite bind_ok; [|by apply get_vec_ok].
  by apply set_size_ok.
Qed.

Lemma decr_size_ok h vm t this v :
  vm !! this = Some v →
  decr_size this (mkState h vm t)
  = (Ok tt, mkState h (<[this := mkVector (data_ v) (size_sub (size_ v) 1)]> vm) t).
Proof.
  intros H. unfold decr_size. erewrite bind_ok; [|by apply get_vec_ok].
  by apply set_size_ok.
Qed.

Lemma swap_data_with_local_ok h vm t this v d :
  vm !! this = Some v →
  swap_data_with_local this d (mkState h vm t)
  = (Ok (data_ v), mkState h (<[this := mkVector d (size_ v)]> vm) t).
Proof.
  intros H. unfold swap_data_with_local. erewrite bind_ok; [|by apply get_vec_ok].
  destruct v as [[buf c] n], d as [buf' c']. simpl.
  erewrite bind_ok; [|by eapply set_data_ok]. done.
Qed.

(** ** The allocator *)

Lemma Allocate_ok h vm t n :
  n ≠ 0%N → (n ≤ max_slots)%N → throws t (OpAlloc n) = false →
  Allocate n (mkState h vm t)
  = (Ok (Ptr (fresh (dom h)) 0),
     mkState (<[fresh (dom h) := replicate (N.to_nat n) Raw]> h) vm (t ++ [(OpAlloc n, false)])).
Proof.
  intros Hne Hmax Ht. unfold Allocate.
  destruct (N.eqb_spec n 0); [done|]. simpl.
  destruct (N.ltb_spec max_slots n); [lia|]. by rewrite Ht.
Qed.

Lemma Allocate_fail h vm t n :
  n ≠ 0%N → (max_slots <? n)%N || throws t (OpAlloc n) = true →
  Allocate n (mkState h vm t) = (Throw BadAlloc, mkState h vm (t ++ [(OpAlloc n, true)])).
Proof.
  intros Hne Ht. unfold Allocate.
  destruct (N.eqb_spec n 0); [done|]. simpl. by rewrite Ht.
Qed.

Lemma fresh_block_None h : h !! fresh (dom h) = None.
Proof. apply not_elem_of_dom. apply is_fresh. Qed.

Lemma Deallocate_ok h vm t b l :
  h !! b = Some l →
  Deallocate (Ptr b 0) (mkState h vm t) = (Ok tt, mkState (delete b h) vm t).
Proof.
  intros H. unfold Deallocate. simpl.
  rewrite bool_decide_eq_true_2; [done|]. by rewrite H.
Qed.

End Views.

Section Migration.

Context {E : Elem}.

Implicit Types (s : state) (h : gmap block (list (slot T))).
Implicit Types (vm : gmap loc Vector) (t : list (event T Args)).
Implicit Types (l pre post spre spost : list (slot T)) (xs ys done : list T).

Lemma uninitialized_copy_n_spec h vm t bs bd (fo d0 n : N) pre post spre spost xs :
  bs ≠ bd →
  h !! bs = Some (spre ++ (Live <$> xs) ++ spost) → N.to_nat fo = length spre →
  h !! bd = Some (pre ++ replicate (length xs) Raw ++ post) → N.to_nat d0 = length pre →
  N.to_nat n = length xs → (d0 + n < size_t_modulus)%N →
  if quiet t (OpCopy <$> xs)
  then uninitialized_copy_n (Ptr bs fo) n (Ptr bd d0) (mkState h vm t)
       = (Ok tt, mkState (<[bd := pre ++ (Live <$> xs) ++ post]> h) vm
                   (t ++ oks (OpCopy <$> xs)))
  else ∃ t', uninitialized_copy_n (Ptr bs fo) n (Ptr bd d0) (mkState h vm t)
       = (Throw ElemFailure, mkState h vm t').
Proof.
  intros Hne Hs Hfo Hd Hd0 Hn Hlt. unfold uninitialized_copy_n. rewrite Hn.
  opose proof (uninitialized_copy_loop_spec vm bs bd pre post spost d0 xs [] spre h t fo d0
                 Hne Hs Hfo Hd Hd0 _ _) as H; [simpl; lia|lia|].
  destruct (quiet t (OpCopy <$> xs)); [done|].
  destruct H as [t' H]. exists t'. rewrite H. simpl. by rewrite insert_id.
Qed.

Lemma uninitialized_move_n_spec h vm t bs bd (fo d0 n : N) pre post spre spost xs :
  bs ≠ bd →
  h !! bs = Some (spre ++ (Live <$> xs) ++ spost) → N.to_nat fo = length spre →
  h !! bd = Some (pre ++ replicate (length xs) Raw ++ post) → N.to_nat d0 = length pre →
  N.to_nat n = length xs → (d0 + n < size_t_modulus)%N →
  if quiet t (OpMove <$> xs)
  then uninitialized_move_n (Ptr bs fo) n (Ptr bd d0) (mkState h vm t)
       = (Ok tt, mkState (<[bs := spre ++ (Live <$> (moved_from <$> xs)) ++ spost]>
                            (<[bd := pre ++ (Live <$> xs) ++ post]> h)) vm
                   (t ++ oks (OpMove <$> xs)))
  else ∃ h' t', uninitialized_move_n (Ptr bs fo) n (Ptr bd d0) (mkState h vm t)
       = (Throw ElemFailure, mkState h' vm t') ∧ is_Some (h' !! bd).
Proof.
  intros Hne Hs Hfo Hd Hd0 Hn Hlt. unfold uninitialized_move_n. rewrite Hn.
  by opose proof (uninitialized_move_loop_spec vm bs bd pre post spost d0 xs [] spre h t fo d0
                 Hne Hs Hfo Hd Hd0 _ _) as H; [simpl; lia|lia|].
Qed.

(** The migration the reallocating functions share. *)
Lemma migrate_spec h vm t bs bd (fo d0 n : N) pre post spre spost xs :
  bs ≠ bd →
  h !! bs = Some (spre ++ (Live <$> xs) ++ spost) → N.to_nat fo = length spre →
  h !! bd = Some (pre ++ replicate (length xs) Raw ++ post) → N.to_nat d0 = length pre →
  N.to_nat n = length xs → (d0 + n < size_t_modulus)%N →
  let m := if nothrow_move_constructible || negb copy_constructible
           then uninitialized_move_n (Ptr bs fo) n (Ptr bd d0)
           else uninitialized_copy_n (Ptr bs fo) n (Ptr bd d0) in
  if quiet t (migrate_ops xs)
  then m (mkState h vm t)
       = (Ok tt, mkState (<[bs := spre ++ (Live <$> leftover xs) ++ spost]>
                            (<[bd := pre ++ (Live <$> xs) ++ post]> h)) vm
                   (t ++ oks (migrate_ops xs)))
  else ∃ h' t', m (mkState h vm t) = (Throw ElemFailure, mkState h' vm t') ∧
                is_Some (h' !! bd) ∧ (move_mode = false → h' = h).
Proof.
  intros Hne Hs Hfo Hd Hd0 Hn Hlt m. subst m.
  unfold migrate_ops, leftover, move_mode.
  destruct (nothrow_move_constructible || negb copy_constructible).
  - opose proof (uninitialized_move_n_spec h vm t bs bd fo d0 n pre post spre spost xs
                   Hne Hs Hfo Hd Hd0 Hn Hlt) as H.
    destruct (quiet t (OpMove <$> xs)); [done|].
    destruct H as (h' & t' & H & Hsome). by exists h', t'.
  - opose proof (uninitialized_copy_n_spec h vm t bs bd fo d0 n pre post spre spost xs
                   Hne Hs Hfo Hd Hd0 Hn Hlt) as H.
    destruct (quiet t (OpCopy <$> xs)).
    + rewrite H. rewrite (insert_id _ bs); [done|]. by rewrite lookup_insert_ne.
    + destruct H as (t' & H). exists h, t'. by rewrite Hd.
Qed.

(** ** Construction from an argument *)

Lemma live_at_split h b off v :
  live_at h (Ptr b off) = Some v →
  ∃ l1 l2, h !! b = Some (l1 ++ Live v :: l2) ∧ N.to_nat off = length l1.
Proof.
  unfold live_at. destruct (h !! b) as [l|]; [|done].
  destruct (l !! N.to_nat off) as [[|w]|] eqn:Hl; try done.
  intros [= ->]. apply list_elem_of_split_length in Hl as (l1 & l2 & -> & Hlen).
  by exists l1, l2.
Qed.

Lemma after_arg_lookup_ne arg v h b :
  (∀ bs os, arg = ByMove (Ptr bs os) → bs ≠ b) →
  after_arg arg v h !! b = h !! b.
Proof.
  intros Hne. destruct arg as [a|p|[|bs os]]; try done. simpl.
  destruct (h !! bs) eqn:Hbs; [|done].
  rewrite lookup_insert_ne; [done|]. by eapply Hne.
Qed.

Lemma construct_at_arg h vm t bd od pre post arg v :
  h !! bd = Some (pre ++ Raw :: post) → N.to_nat od = length pre →
  arg_source h arg = Some v →
  (∀ bs os, arg = ByMove (Ptr bs os) → bs ≠ bd) →
  construct_at (Ptr bd od) arg (mkState h vm t)
  = if throws t (arg_op v arg)
    then (Throw ElemFailure, mkState h vm (t ++ [(arg_op v arg, true)]))
    else (Ok tt, mkState (after_arg arg v (<[bd := pre ++ Live v :: post]> h)) vm
                   (t ++ [(arg_op v arg, false)])).
Proof.
  intros Hd Hod Hv Hne. destruct arg as [a|p|p]; simpl in Hv; cbn [arg_op after_arg].
  - injection Hv as <-. by apply construct_at_args.
  - destruct p as [|bs os]; [done|].
    unfold live_at in Hv. destruct (h !! bs) as [ls|] eqn:Hs; [|done].
    destruct (ls !! N.to_nat os) as [[|w]|] eqn:Hl; try done. injection Hv as ->.
    by eapply construct_at_copy.
  - destruct p as [|bs os]; [done|].
    apply live_at_split in Hv as (l1 & l2 & Hs & Hos).
    rewrite (construct_at_move h vm t bd od pre post bs os l1 l2 v) by eauto.
    destruct (throws t (OpMove v)); [done|].
    rewrite lookup_insert_ne by (symmetry; eauto). rewrite Hs.
    by rewrite insert_middle.
Qed.

End Migration.

Section EmplaceBackProofs.

Context {E : Elem}.

Implicit Types (s : state) (h : gmap block (list (slot T))).
Implicit Types (vm : gmap loc Vector) (t : list (event T Args)).
Implicit Types (l pre post spre spost : list (slot T)) (xs ys done : list T).

Lemma arg_source_insert_fresh h b l arg v :
  h !! b = None → arg_source h arg = Some v → arg_source (<[b := l]> h) arg = Some v.
Proof.
  intros Hb. assert (∀ p, live_at h p = Some v → live_at (<[b := l]> h) p = Some v) as Hp.
  { intros [|bs os]; [done|]. unfold live_at.
    destruct (h !! bs) eqn:Hs; [|done].
    rewrite lookup_insert_ne; [by rewrite Hs|]. congruence. }
  destruct arg; simpl; auto.
Qed.

Lemma arg_source_block h arg v bs os :
  arg_source h arg = Some v → arg = ByMove (Ptr bs os) → is_Some (h !! bs).
Proof.
  intros Hv ->. simpl in Hv. unfold live_at in Hv. by destruct (h !! bs).
Qed.

Lemma RawMemory_plus_ok h vm t buf cap off :
  (off ≤ cap)%N →
  RawMemory_plus (mkRawMemory buf cap) off (mkState h vm t)
  = (Ok (ptr_add buf off), mkState h vm t).
Proof.
  intros H. unfold RawMemory_plus. simpl.
  destruct (N.leb_spec off cap); [done|lia].
Qed.

Lemma RawMemory_index_ok h vm t buf cap i :
  (i < cap)%N →
  RawMemory_index (mkRawMemory buf cap) i (mkState h vm t)
  = (Ok (ptr_add buf i), mkState h vm t).
Proof.
  intros H. unfold RawMemory_index. simpl.
  destruct (N.ltb_spec i cap); [done|lia].
Qed.

Lemma Back_ok h vm t this buf cap n :
  vm !! this = Some (mkVector (mkRawMemory buf cap) n) →
  (0 < n)%N → (n ≤ cap)%N → (n < size_t_modulus)%N →
  Back this (mkState h vm t) = (Ok (ptr_add buf (n - 1)), mkState h vm t).
Proof.
  intros Hv H0 Hle Hlt. unfold Back.
  erewrite bind_ok; [|by apply get_vec_ok]. simpl.
  rewrite size_sub_small by lia. apply RawMemory_index_ok. lia.
Qed.

Lemma replicate_split {A} (n k : nat) (x : A) :
  k < n → replicate n x = replicate k x ++ x :: replicate (n - S k) x.
Proof.
  intros H. replace n with (k + S (n - S k)) at 1 by lia.
  by rewrite replicate_add.
Qed.

Lemma length_leftover xs : length (leftover xs) = length xs.
Proof. unfold leftover. destruct move_mode; [by rewrite length_fmap|done]. Qed.

Lemma slots_of_snoc xs v cap :
  (N.of_nat (length xs) < cap)%N →
  (Live <$> xs) ++ Live v :: replicate (N.to_nat cap - S (length xs)) Raw
  = slots_of (xs ++ [v]) cap.
Proof.
  intros H. unfold slots_of. rewrite fmap_app, <- app_assoc. simpl.
  do 3 f_equal. rewrite length_app. simpl. lia.
Qed.

Lemma EmplaceBack_realloc_ptr h vm t this b xs arg v :
  let n := N.of_nat (length xs) in
  vm !! this = Some (mkVector (mkRawMemory (Ptr b 0) n) n) →
  n ≠ 0%N → (n ≤ max_slots)%N →
  h !! b = Some (Live <$> xs) →
  arg_source h arg = Some v →
  (∀ bs os, arg = ByMove (Ptr bs os) → bs ≠ b) →
  let cap' := grown_capacity n in
  let b' := fresh (dom h) in
  let t1 := t ++ [(OpAlloc cap', false)] in
  let t2 := t1 ++ [(arg_op v arg, false)] in
  let res := EmplaceBack this arg (mkState h vm t) in
  if (max_slots <? cap')%N || throws t (OpAlloc cap')
  then res = (Throw BadAlloc, mkState h vm (t ++ [(OpAlloc cap', true)]))
  else if throws t1 (arg_op v arg)
  then res = (Throw ElemFailure, mkState h vm (t1 ++ [(arg_op v arg, true)]))
  else if quiet t2 (migrate_ops xs)
  then ∃ h', res = (Ok (Ptr b' n),
                    mkState h' (<[this := mkVector (mkRawMemory (Ptr b' 0) cap') (n + 1)]> vm)
                      (t2 ++ oks (migrate_ops xs) ++ destroys (leftover xs))) ∧
             h' !! b' = Some (slots_of (xs ++ [v]) cap') ∧ h' !! b = None
  else ∃ h' t', res = (Throw ElemFailure, mkState h' vm t') ∧
               (move_mode = false → h' !! b = Some (Live <$> xs)).
Proof.
  intros n Hvm Hn Hmax Hb Hv Hali cap' b' t1 t2 res. subst res.
  pose proof max_slots_lt_modulus as Hmod.
  assert (Hcap : cap' = (2 * n)%N).
  { unfold cap'. rewrite grown_capacity_max by done. lia. }
  assert (Hlen : N.to_nat n = length xs) by (unfold n; lia).
  assert (Hgc : grown_capacity n = cap') by done.
  clearbody cap' n.
  assert (Hb' : h !! b' = None) by apply fresh_block_None.
  assert (Hbb : b ≠ b') by congruence.
  unfold EmplaceBack.
  erewrite bind_ok; [|by apply get_vec_ok]. cbn [size_ capacity_ data_ buffer_].
  rewrite N.eqb_refl, Hgc.
  destruct ((max_slots <? cap')%N || throws t (OpAlloc cap')) eqn:Ha.
  { erewrite bind_throw; [done|]. unfold RawMemory_ctor.
    erewrite bind_throw; [done|]. apply Allocate_fail; [lia|done]. }
  apply orb_false_iff in Ha as [Hle Ha]. apply N.ltb_ge in Hle.
  erewrite bind_ok; cycle 1.
  { unfold RawMemory_ctor. erewrite bind_ok; [done|]. apply Allocate_ok; [lia|done|done]. }
  fold b' t1.
  set (h1 := <[b' := replicate (N.to_nat cap') Raw]> h).
  assert (Hsplit : h1 !! b' = Some (replicate (length xs) Raw ++ Raw ::
                      replicate (N.to_nat cap' - S (length xs)) Raw)).
  { unfold h1. rewrite lookup_insert_eq. f_equal. apply replicate_split. lia. }
  assert (Hv1 : arg_source h1 arg = Some v) by (by apply arg_source_insert_fresh).
  assert (Hali' : ∀ bs os, arg = ByMove (Ptr bs os) → bs ≠ b').
  { intros bs os Harg ->. destruct (arg_source_block _ _ _ _ _ Hv Harg) as [? ?]. congruence. }
  pose proof (construct_at_arg h1 vm t1 b' n _ _ arg v Hsplit
                ltac:(rewrite length_replicate; lia) Hv1 Hali') as Hc.
  destruct (throws t1 (arg_op v arg)) eqn:Ht.
  { erewrite bind_throw; [done|].
    eapply on_unwind_throw.
    - erewrite bind_ok; [|by apply RawMemory_plus_ok; lia].
      cbn [ptr_add N.add]. erewrite bind_throw; [done|]. exact Hc.
    - unfold RawMemory_dtor. cbn [buffer_].
      erewrite Deallocate_ok; [|by apply lookup_insert_eq].
      unfold h1. by rewrite delete_insert_id. }
  fold t2 in Hc.
  set (h2 := after_arg arg v (<[b':=replicate (length xs) Raw ++ Live v ::
                replicate (N.to_nat cap' - S (length xs)) Raw]> h1)) in Hc.
  assert (H2b : h2 !! b = Some ([] ++ (Live <$> xs) ++ [])).
  { unfold h2, h1. rewrite after_arg_lookup_ne by done.
    rewrite !lookup_insert_ne by done. by rewrite app_nil_r. }
  assert (H2b' : h2 !! b' = Some ([] ++ replicate (length xs) Raw ++ Live v ::
                      replicate (N.to_nat cap' - S (length xs)) Raw)).
  { unfold h2. rewrite after_arg_lookup_ne by done. by rewrite lookup_insert_eq. }
  opose proof (migrate_spec h2 vm t2 b b' 0 0 n _ _ _ _ xs Hbb H2b _ H2b' _ Hlen _) as Hm;
    [done|done|lia|]. cbv zeta in Hm.
  destruct (quiet t2 (migrate_ops xs)) eqn:Hq.
  - erewrite bind_ok; cycle 1.
    { apply on_unwind_ok.
      erewrite bind_ok; [|by apply RawMemory_plus_ok; lia].
      cbn [ptr_add N.add]. erewrite bind_ok; [|exact Hc].
      cbn [GetAddress buffer_].
      erewrite bind_ok; [|exact Hm].
      erewrite bind_ok; cycle 1.
      { apply (destroy_n_ok (leftover xs)); [by rewrite lookup_insert_eq|done|].
        by rewrite length_leftover. }
      erewrite bind_ok; [|by apply swap_data_with_local_ok].
      erewrite bind_ok; [|by apply incr_size_ok, lookup_insert_eq].
      cbn [data_ size_].
      rewrite size_add_small by lia.
      erewrite bind_ok; [|eapply Back_ok; [by apply lookup_insert_eq|lia..]].
      reflexivity. }
    cbn [ptr_add]. unfold RawMemory_dtor. cbn [buffer_].
    erewrite bind_ok; [|by eapply Deallocate_ok, lookup_insert_eq].
    unfold ret. rewrite (insert_insert_eq vm), N.add_0_l.
    replace (n + 1 - 1)%N with n by lia.
    rewrite <- !app_assoc. fold (destroys (leftover xs)).
    eexists. split; [reflexivity|split].
    + rewrite lookup_delete_ne by done.
      rewrite !lookup_insert_ne by done. rewrite lookup_insert_eq.
      simpl. f_equal. apply slots_of_snoc. lia.
    + by rewrite lookup_delete_eq.
  - destruct Hm as (h' & t' & Hm & [l' Hsome] & Hmode).
    exists (delete b' h'), t'. split.
    + erewrite bind_throw; [done|].
      eapply on_unwind_throw.
      * erewrite bind_ok; [|by apply RawMemory_plus_ok; lia].
        cbn [ptr_add N.add]. erewrite bind_ok; [|exact Hc].
        cbn [GetAddress buffer_].
        erewrite bind_throw; [done|exact Hm].
      * unfold RawMemory_dtor. cbn [buffer_]. by erewrite Deallocate_ok.
    + intros ->%Hmode. rewrite lookup_delete_ne by done.
      by rewrite app_nil_r in H2b.
Qed.


(** The same for an empty vector without storage. *)
Lemma EmplaceBack_realloc_null h vm t this arg v :
  vm !! this = Some (mkVector (mkRawMemory Null 0) 0) →
  arg_source h arg = Some v →
  let b' := fresh (dom h) in
  let t1 := t ++ [(OpAlloc 1, false)] in
  let t2 := t1 ++ [(arg_op v arg, false)] in
  let res := EmplaceBack this arg (mkState h vm t) in
  if throws t (OpAlloc 1)
  then res = (Throw BadAlloc, mkState h vm (t ++ [(OpAlloc 1, true)]))
  else if throws t1 (arg_op v arg)
  then res = (Throw ElemFailure, mkState h vm (t1 ++ [(arg_op v arg, true)]))
  else ∃ h', res = (Ok (Ptr b' 0),
                    mkState h' (<[this := mkVector (mkRawMemory (Ptr b' 0) 1) 1]> vm) t2) ∧
             h' !! b' = Some (slots_of [v] 1).
Proof.
  intros Hvm Hv b' t1 t2 res. subst res.
  assert (Hb' : h !! b' = None) by apply fresh_block_None.
  unfold EmplaceBack.
  erewrite bind_ok; [|by apply get_vec_ok]. cbn [size_ capacity_ data_ buffer_].
  change (grown_capacity 0) with 1%N. rewrite N.eqb_refl.
  destruct (throws t (OpAlloc 1)) eqn:Ha.
  { erewrite bind_throw; [done|]. unfold RawMemory_ctor.
    erewrite bind_throw; [done|]. apply Allocate_fail; [done|]. by rewrite Ha. }
  erewrite bind_ok; cycle 1.
  { unfold RawMemory_ctor. erewrite bind_ok; [done|]. by apply Allocate_ok. }
  fold b' t1.
  set (h1 := <[b' := replicate (N.to_nat 1) Raw]> h).
  assert (Hsplit : h1 !! b' = Some ([] ++ Raw :: [])) by (by unfold h1; rewrite lookup_insert_eq).
  assert (Hv1 : arg_source h1 arg = Some v) by (by apply arg_source_insert_fresh).
  assert (Hali' : ∀ bs os, arg = ByMove (Ptr bs os) → bs ≠ b').
  { intros bs os Harg ->. destruct (arg_source_block _ _ _ _ _ Hv Harg) as [? ?]. congruence. }
  pose proof (construct_at_arg h1 vm t1 b' 0 _ _ arg v Hsplit eq_refl Hv1 Hali') as Hc.
  destruct (throws t1 (arg_op v arg)) eqn:Ht.
  { erewrite bind_throw; [done|].
    eapply on_unwind_throw.
    - erewrite bind_ok; [|by apply RawMemory_plus_ok].
      cbn [ptr_add N.add]. erewrite bind_throw; [done|]. exact Hc.
    - unfold RawMemory_dtor. cbn [buffer_].
      erewrite Deallocate_ok; [|by apply lookup_insert_eq].
      unfold h1. by rewrite delete_insert_id. }
  fold t2 in Hc.
  erewrite bind_ok; cycle 1.
  { apply on_unwind_ok.
    erewrite bind_ok; [|by apply RawMemory_plus_ok].
    cbn [ptr_add N.add]. erewrite bind_ok; [|exact Hc].
    cbn [GetAddress buffer_].
    erewrite bind_ok; cycle 1.
    { destruct (nothrow_move_constructible || negb copy_constructible); reflexivity. }
    erewrite bind_ok; [|reflexivity].
    erewrite bind_ok; [|by apply swap_data_with_local_ok].
    erewrite bind_ok; [|by apply incr_size_ok, lookup_insert_eq].
    cbn [data_ size_].
    erewrite bind_ok; [|eapply Back_ok; [by apply lookup_insert_eq|done..]].
    reflexivity. }
  cbn [ptr_add]. unfold RawMemory_dtor. cbn [buffer_ Deallocate].
  erewrite bind_ok; [|reflexivity].
  unfold ret. rewrite (insert_insert_eq vm).
  eexists. split; [reflexivity|].
  rewrite after_arg_lookup_ne by done. by rewrite lookup_insert_eq.
Qed.

(** With room left, the element is built in the next free slot. *)
Lemma EmplaceBack_in_capacity h vm t this b cap xs arg v :
  let n := N.of_nat (length xs) in
  vm !! this = Some (mkVector (mkRawMemory (Ptr b 0) cap) n) →
  (n < cap)%N → (cap ≤ max_slots)%N →
  h !! b = Some (slots_of xs cap) →
  arg_source h arg = Some v →
  (∀ bs os, arg = ByMove (Ptr bs os) → bs ≠ b) →
  let res := EmplaceBack this arg (mkState h vm t) in
  if throws t (arg_op v arg)
  then res = (Throw ElemFailure, mkState h vm (t ++ [(arg_op v arg, true)]))
  else ∃ h', res = (Ok (Ptr b n),
                    mkState h' (<[this := mkVector (mkRawMemory (Ptr b 0) cap) (n + 1)]> vm)
                      (t ++ [(arg_op v arg, false)])) ∧
             h' !! b = Some (slots_of (xs ++ [v]) cap).
Proof.
  intros n Hvm Hn Hmax Hb Hv Hali res. subst res.
  pose proof max_slots_lt_modulus as Hmod.
  assert (Hlen : N.to_nat n = length xs) by (unfold n; lia).
  clearbody n.
  unfold EmplaceBack.
  erewrite bind_ok; [|by apply get_vec_ok]. cbn [size_ capacity_ data_ buffer_].
  destruct (N.eqb_spec n cap) as [|_]; [lia|].
  erewrite bind_ok; [|by apply RawMemory_plus_ok; lia].
  cbn [ptr_add]. rewrite N.add_0_l.
  assert (Hsplit : h !! b = Some ((Live <$> xs) ++ Raw ::
                      replicate (N.to_nat cap - S (length xs)) Raw)).
  { rewrite Hb. unfold slots_of. do 2 f_equal.
    replace (N.to_nat cap - length xs) with (S (N.to_nat cap - S (length xs))) by lia.
    done. }
  pose proof (construct_at_arg h vm t b n _ _ arg v Hsplit
                ltac:(rewrite length_fmap; lia) Hv Hali) as Hc.
  destruct (throws t (arg_op v arg)) eqn:Ht.
  { erewrite bind_throw; [done|exact Hc]. }
  erewrite bind_ok; [|exact Hc].
  erewrite bind_ok; [|by apply incr_size_ok].
  cbn [data_ size_]. rewrite size_add_small by lia.
  erewrite Back_ok; [|by apply lookup_insert_eq|lia..].
  cbn [ptr_add]. rewrite N.add_0_l. replace (n + 1 - 1)%N with n by lia.
  eexists. split; [reflexivity|].
  rewrite after_arg_lookup_ne by done. rewrite lookup_insert_eq.
  f_equal. apply slots_of_snoc. lia.
Qed.

End EmplaceBackProofs.

Section EmplaceBackSpec.

Context {E : Elem}.

Implicit Types (s : state) (h : gmap block (list (slot T))).
Implicit Types (vm : gmap loc Vector) (t : list (event T Args)).
Implicit Types (l pre post spre spost : list (slot T)) (xs ys done : list T).

Lemma arg_value_source h vm t this arg v :
  arg_value (mkState h vm t) this arg = Some v → arg_source h arg = Some v.
Proof.
  destruct arg as [a|p|[|bs os]]; simpl; try done.
  by destruct (decide _).
Qed.

Lemma arg_value_alias h vm t this arg v b cap n :
  arg_value (mkState h vm t) this arg = Some v →
  vm !! this = Some (mkVector (mkRawMemory (Ptr b 0) cap) n) →
  ∀ bs os, arg = ByMove (Ptr bs os) → bs ≠ b.
Proof.
  intros Hv Hvm bs os -> ->. simpl in Hv. unfold owned_block in Hv. simpl in Hv.
  rewrite Hvm in Hv. simpl in Hv. by rewrite decide_True in Hv.
Qed.

Lemma live_at_slots_of h b xs cap i v :
  h !! b = Some (slots_of xs cap) → xs !! i = Some v →
  live_at h (Ptr b (N.of_nat i)) = Some v.
Proof.
  intros Hb Hi. unfold live_at. rewrite Hb, Nat2N.id. unfold slots_of.
  rewrite lookup_app_l by (rewrite length_fmap; by eapply lookup_lt_Some).
  by rewrite list_lookup_fmap, Hi.
Qed.

Lemma Vector_index_ok h vm t this buf cap n i :
  vm !! this = Some (mkVector (mkRawMemory buf cap) n) →
  (i < n)%N → (n ≤ cap)%N →
  Vector_index this i (mkState h vm t) = (Ok (ptr_add buf i), mkState h vm t).
Proof.
  intros Hvm Hi Hn. unfold Vector_index.
  erewrite bind_ok; [|by apply get_vec_ok]. cbn [size_ data_].
  destruct (N.ltb_spec i n); [|lia]. simpl.
  erewrite bind_ok; [|reflexivity]. apply RawMemory_index_ok. lia.
Qed.

(** [EmplaceBack] on a full vector, outcome by outcome. *)
Lemma EmplaceBack_full_spec s this xs cap arg v :
  vector_view s this = Some (xs, cap) →
  N.of_nat (length xs) = cap →
  arg_value s this arg = Some v →
  let cap' := N.max 1 (2 * cap) in
  let t1 := trace s ++ [(OpAlloc cap', false)] in
  let t2 := t1 ++ [(arg_op v arg, false)] in
  let res := EmplaceBack this arg s in
  if (max_slots <? cap')%N || throws (trace s) (OpAlloc cap')
  then res = (Throw BadAlloc, mkState (heap s) (vecs s) (trace s ++ [(OpAlloc cap', true)]))
  else if throws t1 (arg_op v arg)
  then res = (Throw ElemFailure, mkState (heap s) (vecs s) (t1 ++ [(arg_op v arg, true)]))
  else if quiet t2 (migrate_ops xs)
  then ∃ p, res.1 = Ok p ∧
         vector_view res.2 this = Some (xs ++ [v], cap') ∧
         Vector_index this cap res.2 = (Ok p, res.2) ∧
         live_at (heap res.2) p = Some v ∧
         trace res.2 = t2 ++ oks (migrate_ops xs) ++ destroys (leftover xs)
  else res.1 = Throw ElemFailure ∧ vecs res.2 = vecs s ∧
       (move_mode = false → vector_view res.2 this = Some (xs, cap)).
Proof.
  destruct s as [h vm t]. intros Hview Hfull Hv. cbn [heap vecs trace].
  pose proof (arg_value_source _ _ _ _ _ _ Hv) as Hsrc.
  pose proof max_slots_lt_modulus as Hmod.
  destruct (N.eq_dec cap 0) as [->|Hne].
  - apply vector_view_empty in Hview as [-> Hvm].
    pose proof (EmplaceBack_realloc_null h vm t this arg v Hvm Hsrc) as H.
    cbv zeta in H |- *. change (N.max 1 (2 * 0)) with 1%N.
    change (max_slots <? 1)%N with false. cbn [orb].
    destruct (throws t (OpAlloc 1)); [done|].
    destruct (throws (t ++ [(OpAlloc 1, false)]) (arg_op v arg)); [done|].
    assert (migrate_ops [] = []) as -> by (unfold migrate_ops; by destruct move_mode).
    assert (leftover [] = []) as -> by (unfold leftover; by destruct move_mode).
    cbn [quiet]. destruct H as (h' & -> & Hb'). cbn [fst snd heap vecs trace].
    exists (Ptr (fresh (dom h)) 0). split; [done|].
    split; [by eapply (vector_view_intro_ptr _ _ _ _ [v]); cbn [vecs heap];
              [apply lookup_insert_eq|..]|].
    split; [by erewrite Vector_index_ok; [|apply lookup_insert_eq|..]|].
    split; [by eapply (live_at_slots_of _ _ [v] 1 0)|].
    by rewrite !app_nil_r.
  - apply vector_view_nonempty in Hview as (b & Hvm & Hle & Hmax & Hb); [|done].
    cbn [heap vecs] in Hvm, Hb. subst cap.
    assert (Hb0 : h !! b = Some (Live <$> xs)).
    { rewrite Hb. unfold slots_of. rewrite Nat2N.id, Nat.sub_diag. simpl.
      by rewrite app_nil_r. }
    pose proof (EmplaceBack_realloc_ptr h vm t this b xs arg v Hvm Hne Hmax Hb0 Hsrc
                  (arg_value_alias _ _ _ _ _ _ _ _ _ Hv Hvm)) as H.
    cbv zeta in H |- *. rewrite grown_capacity_max in H by done.
    set (cap' := N.max 1 (2 * N.of_nat (length xs))) in *.
    destruct ((max_slots <? cap')%N || throws t (OpAlloc cap')) eqn:Ha; [done|].
    apply orb_false_iff in Ha as [Hlt _]. apply N.ltb_ge in Hlt.
    destruct (throws (t ++ [(OpAlloc cap', false)]) (arg_op v arg)); [done|].
    destruct (quiet _ (migrate_ops xs)).
    + destruct H as (h' & -> & Hb' & Hbnone). cbn [fst snd heap vecs trace].
      exists (Ptr (fresh (dom h)) (N.of_nat (length xs))). split; [done|].
      assert (Hcap' : (N.of_nat (length xs) < cap')%N) by (unfold cap'; lia).
      split.
      { eapply vector_view_intro_ptr; cbn [vecs heap].
        - rewrite lookup_insert_eq. do 2 f_equal. rewrite length_app. simpl. lia.
        - rewrite length_app. simpl. lia.
        - done.
        - lia.
        - done. }
      split.
      { erewrite Vector_index_ok; [|apply lookup_insert_eq|lia..]. done. }
      split; [|done].
      eapply live_at_slots_of; [done|]. by apply list_lookup_middle.
    + destruct H as (h' & t' & -> & Hmode). split; [done|]. split; [done|].
      intros Hm. cbn [snd]. eapply vector_view_intro_ptr; cbn [vecs heap]; try done.
      rewrite (Hmode Hm). unfold slots_of. rewrite Nat2N.id, Nat.sub_diag. simpl.
      by rewrite app_nil_r.
Qed.

End EmplaceBackSpec.

Section Assignments.

Context {E : Elem}.

Implicit Types (s : state) (h : gmap block (list (slot T))).
Implicit Types (vm : gmap loc Vector) (t : list (event T Args)).
Implicit Types (l pre post spre spost : list (slot T)) (xs ys ws done : list T).

(** ** Assignment between live objects *)

(** Two neighbours in one block, the source after the destination. *)
Lemma move_assign_at_down h vm t b (od : N) pre post (d w : T) :
  h !! b = Some (pre ++ Live d :: Live w :: post) → N.to_nat od = length pre →
  move_assign_at (Ptr b od) (Ptr b (od + 1)) (mkState h vm t)
  = if throws t (OpMoveAssign d w)
    then (Throw ElemFailure, mkState h vm (t ++ [(OpMoveAssign d w, true)]))
    else (Ok tt, mkState (<[b := pre ++ Live w :: Live (moved_from w) :: post]> h) vm
                   (t ++ [(OpMoveAssign d w, false)])).
Proof.
  intros Hb Hod. unfold move_assign_at.
  assert (Hb2 : h !! b = Some ((pre ++ [Live d]) ++ Live w :: post))
    by (by rewrite <- app_assoc).
  assert (Hod2 : N.to_nat (od + 1) = length (pre ++ [Live d]))
    by (rewrite length_app; simpl; lia).
  erewrite bind_ok; [|by eapply load_live_ok; [exact Hb2|apply list_lookup_middle]].
  erewrite bind_ok; [|by eapply load_live_ok; [exact Hb|apply list_lookup_middle]].
  destruct (throws t (OpMoveAssign d w)) eqn:Ht.
  - erewrite bind_throw; [done|]. by apply perform_throws.
  - erewrite bind_ok; [|by apply perform_quiet].
    erewrite bind_ok; [|by apply (store_ok _ _ _ _ _ _ _ Hb), middle_length].
    rewrite insert_middle by done.
    erewrite store_ok; [|by apply lookup_insert_eq|].
    + rewrite insert_insert_eq.
      replace (pre ++ Live w :: Live w :: post) with ((pre ++ [Live w]) ++ Live w :: post)
        by (by rewrite <- app_assoc).
      rewrite insert_middle by (rewrite length_app; simpl; lia).
      by rewrite <- app_assoc.
    + rewrite length_app. simpl. lia.
Qed.

Lemma copy_assign_at_down h vm t b (od : N) pre post (d w : T) :
  h !! b = Some (pre ++ Live d :: Live w :: post) → N.to_nat od = length pre →
  copy_assign_at (Ptr b od) (Ptr b (od + 1)) (mkState h vm t)
  = if throws t (OpCopyAssign d w)
    then (Throw ElemFailure, mkState h vm (t ++ [(OpCopyAssign d w, true)]))
    else (Ok tt, mkState (<[b := pre ++ Live w :: Live w :: post]> h) vm
                   (t ++ [(OpCopyAssign d w, false)])).
Proof.
  intros Hb Hod. unfold copy_assign_at.
  assert (Hb2 : h !! b = Some ((pre ++ [Live d]) ++ Live w :: post))
    by (by rewrite <- app_assoc).
  assert (Hod2 : N.to_nat (od + 1) = length (pre ++ [Live d]))
    by (rewrite length_app; simpl; lia).
  erewrite bind_ok; [|by eapply load_live_ok; [exact Hb2|apply list_lookup_middle]].
  erewrite bind_ok; [|by eapply load_live_ok; [exact Hb|apply list_lookup_middle]].
  destruct (throws t (OpCopyAssign d w)) eqn:Ht.
  - erewrite bind_throw; [done|]. by apply perform_throws.
  - erewrite bind_ok; [|by apply perform_quiet].
    erewrite store_ok; [|exact Hb|by apply middle_length].
    by rewrite insert_middle.
Qed.

(** Two neighbours in one block, the source before the destination. *)
Lemma move_assign_at_up h vm t b (os : N) pre post (d w : T) :
  h !! b = Some (pre ++ Live w :: Live d :: post) → N.to_nat os = length pre →
  move_assign_at (Ptr b (os + 1)) (Ptr b os) (mkState h vm t)
  = if throws t (OpMoveAssign d w)
    then (Throw ElemFailure, mkState h vm (t ++ [(OpMoveAssign d w, true)]))
    else (Ok tt, mkState (<[b := pre ++ Live (moved_from w) :: Live w :: post]> h) vm
                   (t ++ [(OpMoveAssign d w, false)])).
Proof.
  intros Hb Hos. unfold move_assign_at.
  assert (Hb2 : h !! b = Some ((pre ++ [Live w]) ++ Live d :: post))
    by (by rewrite <- app_assoc).
  assert (Hos2 : N.to_nat (os + 1) = length (pre ++ [Live w]))
    by (rewrite length_app; simpl; lia).
  erewrite bind_ok; [|by eapply load_live_ok; [exact Hb|apply list_lookup_middle]].
  erewrite bind_ok; [|by eapply load_live_ok; [exact Hb2|apply list_lookup_middle]].
  destruct (throws t (OpMoveAssign d w)) eqn:Ht.
  - erewrite bind_throw; [done|]. by apply perform_throws.
  - erewrite bind_ok; [|by apply perform_quiet].
    erewrite bind_ok; [|by apply (store_ok _ _ _ _ _ _ _ Hb2), middle_length].
    rewrite insert_middle by done.
    erewrite store_ok; [|by apply lookup_insert_eq|].
    + rewrite insert_insert_eq. rewrite <- app_assoc. simpl.
      by rewrite insert_middle.
    + rewrite <- app_assoc. simpl. by apply middle_length.
Qed.

(** Between two blocks. *)
Lemma copy_assign_at_across h vm t bd bs (od os : N) pre post ls (d w : T) :
  h !! bd = Some (pre ++ Live d :: post) → N.to_nat od = length pre →
  h !! bs = Some ls → ls !! N.to_nat os = Some (Live w) →
  copy_assign_at (Ptr bd od) (Ptr bs os) (mkState h vm t)
  = if throws t (OpCopyAssign d w)
    then (Throw ElemFailure, mkState h vm (t ++ [(OpCopyAssign d w, true)]))
    else (Ok tt, mkState (<[bd := pre ++ Live w :: post]> h) vm
                   (t ++ [(OpCopyAssign d w, false)])).
Proof.
  intros Hd Hod Hs Hw. unfold copy_assign_at.
  erewrite bind_ok; [|by eapply load_live_ok].
  erewrite bind_ok; [|by eapply load_live_ok; [exact Hd|apply list_lookup_middle]].
  destruct (throws t (OpCopyAssign d w)) eqn:Ht.
  - erewrite bind_throw; [done|]. by apply perform_throws.
  - erewrite bind_ok; [|by apply perform_quiet].
    erewrite store_ok; [|exact Hd|by apply middle_length].
    by rewrite insert_middle.
Qed.

Lemma move_assign_at_across h vm t bd bs (od os : N) pre post spre spost (d w : T) :
  bs ≠ bd →
  h !! bd = Some (pre ++ Live d :: post) → N.to_nat od = length pre →
  h !! bs = Some (spre ++ Live w :: spost) → N.to_nat os = length spre →
  move_assign_at (Ptr bd od) (Ptr bs os) (mkState h vm t)
  = if throws t (OpMoveAssign d w)
    then (Throw ElemFailure, mkState h vm (t ++ [(OpMoveAssign d w, true)]))
    else (Ok tt, mkState (<[bs := spre ++ Live (moved_from w) :: spost]>
                            (<[bd := pre ++ Live w :: post]> h)) vm
                   (t ++ [(OpMoveAssign d w, false)])).
Proof.
  intros Hne Hd Hod Hs Hos. unfold move_assign_at.
  erewrite bind_ok; [|by eapply load_live_ok; [exact Hs|apply list_lookup_middle]].
  erewrite bind_ok; [|by eapply load_live_ok; [exact Hd|apply list_lookup_middle]].
  destruct (throws t (OpMoveAssign d w)) eqn:Ht.
  - erewrite bind_throw; [done|]. by apply perform_throws.
  - erewrite bind_ok; [|by apply perform_quiet].
    erewrite bind_ok; [|by apply (store_ok _ _ _ _ _ _ _ Hd), middle_length].
    rewrite insert_middle by done.
    erewrite store_ok; [|by rewrite lookup_insert_ne|by apply middle_length].
    by rewrite insert_middle.
Qed.

(** A move construction into the slot after the source. *)
Lemma construct_at_move_up h vm t b (os : N) pre post (w : T) :
  h !! b = Some (pre ++ Live w :: Raw :: post) → N.to_nat os = length pre →
  construct_at (Ptr b (os + 1)) (ByMove (Ptr b os)) (mkState h vm t)
  = if throws t (OpMove w)
    then (Throw ElemFailure, mkState h vm (t ++ [(OpMove w, true)]))
    else (Ok tt, mkState (<[b := pre ++ Live (moved_from w) :: Live w :: post]> h) vm
                   (t ++ [(OpMove w, false)])).
Proof.
  intros Hb Hos. unfold construct_at.
  assert (Hb2 : h !! b = Some ((pre ++ [Live w]) ++ Raw :: post))
    by (by rewrite <- app_assoc).
  assert (Hos2 : N.to_nat (os + 1) = length (pre ++ [Live w]))
    by (rewrite length_app; simpl; lia).
  erewrite bind_ok; [|by eapply check_raw_ok; [exact Hb2|apply list_lookup_middle]].
  erewrite bind_ok; [|by eapply load_live_ok; [exact Hb|apply list_lookup_middle]].
  destruct (throws t (OpMove w)) eqn:Ht.
  - erewrite bind_throw; [done|]. by apply perform_throws.
  - erewrite bind_ok; [|by apply perform_quiet].
    erewrite bind_ok; [|by apply (store_ok _ _ _ _ _ _ _ Hb2), middle_length].
    rewrite insert_middle by done.
    erewrite store_ok; [|by apply lookup_insert_eq|].
    + rewrite insert_insert_eq. rewrite <- app_assoc. simpl.
      by rewrite insert_middle.
    + rewrite <- app_assoc. simpl. by apply middle_length.
Qed.

End Assignments.

Section Shifts.

Context {E : Elem}.

Implicit Types (s : state) (h : gmap block (list (slot T))).
Implicit Types (vm : gmap loc Vector) (t : list (event T Args)).
Implicit Types (l pre post spre spost : list (slot T)) (xs ys ws ds done : list T).

(** ** Shifting a run down by one slot ([Erase]) *)

Lemma move_loop_down vm b post ws : ∀ d pre h t (od : N),
  h !! b = Some (pre ++ Live d :: (Live <$> ws) ++ post) → N.to_nat od = length pre →
  if quiet t (move_chain d ws)
  then move_loop (Ptr b (od + 1)) (Ptr b od) (length ws) (mkState h vm t)
       = (Ok tt, mkState (<[b := pre ++ (Live <$> ws) ++ Live (move_residue d ws) :: post]> h) vm
                   (t ++ oks (move_chain d ws)))
  else ∃ h' t', move_loop (Ptr b (od + 1)) (Ptr b od) (length ws) (mkState h vm t)
       = (Throw ElemFailure, mkState h' vm t').
Proof.
  induction ws as [|w ws IH]; intros d pre h t od Hb Hod.
  - simpl. unfold ret. rewrite app_nil_r. by rewrite insert_id.
  - rewrite fmap_cons, <- app_comm_cons in Hb.
    cbn [move_loop length ptr_add move_chain quiet].
    pose proof (move_assign_at_down h vm t b od pre _ d w Hb Hod) as Hstep.
    destruct (throws t (OpMoveAssign d w)) eqn:Ht; cbn [negb andb].
    + do 2 eexists. by erewrite bind_throw.
    + opose proof (IH (moved_from w) (pre ++ [Live w])
                     (<[b := pre ++ Live w :: Live (moved_from w) :: (Live <$> ws) ++ post]> h)
                     (t ++ [(OpMoveAssign d w, false)]) (od + 1)%N _ _) as IH'.
      * rewrite lookup_insert_eq. by rewrite <- app_assoc.
      * rewrite length_app. simpl. lia.
      * destruct (quiet _ (move_chain (moved_from w) ws)).
        -- erewrite bind_ok; [|exact Hstep]. rewrite IH'.
           rewrite insert_insert_eq, fmap_cons, <- !app_assoc. done.
        -- destruct IH' as (h' & t' & IH'). exists h', t'.
           erewrite bind_ok; [|exact Hstep]. done.
Qed.

Lemma copy_loop_down vm b post ws : ∀ d pre h t (od : N),
  h !! b = Some (pre ++ Live d :: (Live <$> ws) ++ post) → N.to_nat od = length pre →
  if quiet t (copy_chain d ws)
  then copy_loop (Ptr b (od + 1)) (Ptr b od) (length ws) (mkState h vm t)
       = (Ok tt, mkState (<[b := pre ++ (Live <$> ws) ++ Live (copy_residue d ws) :: post]> h) vm
                   (t ++ oks (copy_chain d ws)))
  else ∃ h' t', copy_loop (Ptr b (od + 1)) (Ptr b od) (length ws) (mkState h vm t)
       = (Throw ElemFailure, mkState h' vm t').
Proof.
  induction ws as [|w ws IH]; intros d pre h t od Hb Hod.
  - simpl. unfold ret. rewrite app_nil_r. by rewrite insert_id.
  - rewrite fmap_cons, <- app_comm_cons in Hb.
    cbn [copy_loop length ptr_add copy_chain quiet].
    pose proof (copy_assign_at_down h vm t b od pre _ d w Hb Hod) as Hstep.
    destruct (throws t (OpCopyAssign d w)) eqn:Ht; cbn [negb andb].
    + do 2 eexists. by erewrite bind_throw.
    + opose proof (IH w (pre ++ [Live w])
                     (<[b := pre ++ Live w :: Live w :: (Live <$> ws) ++ post]> h)
                     (t ++ [(OpCopyAssign d w, false)]) (od + 1)%N _ _) as IH'.
      * rewrite lookup_insert_eq. by rewrite <- app_assoc.
      * rewrite length_app. simpl. lia.
      * destruct (quiet _ (copy_chain w ws)).
        -- erewrite bind_ok; [|exact Hstep]. rewrite IH'.
           rewrite insert_insert_eq, fmap_cons, <- !app_assoc. done.
        -- destruct IH' as (h' & t' & IH'). exists h', t'.
           erewrite bind_ok; [|exact Hstep]. done.
Qed.

(** ** Shifting a run up by one slot ([Emplace] with room left)

    The run is walked from its end: [r] lists it backwards. *)
Lemma move_backward_loop_up vm b pre r : ∀ d post h t (ol : N),
  h !! b = Some (pre ++ (Live <$> rev r) ++ Live d :: post) →
  N.to_nat ol = length pre + length r →
  quiet t (move_chain d r) = true →
  move_backward_loop (Ptr b ol) (Ptr b (ol + 1)) (length r) (mkState h vm t)
  = (Ok tt, mkState (<[b := pre ++ Live (move_residue d r) :: (Live <$> rev r) ++ post]> h) vm
              (t ++ oks (move_chain d r))).
Proof.
  induction r as [|w r IH]; intros d post h t ol Hb Hol Hq.
  - simpl in *. unfold ret. rewrite app_nil_r. by rewrite insert_id.
  - cbn [move_chain] in Hq. apply quiet_cons in Hq as [Ht Hq].
    cbn [rev] in Hb. rewrite fmap_app, <- app_assoc in Hb. simpl in Hb.
    rewrite app_assoc in Hb. simpl in Hol.
    cbn [move_backward_loop length ptr_prev].
    destruct (N.eqb_spec (ol + 1) 0); [lia|].
    destruct (N.eqb_spec ol 0); [lia|].
    replace (ol + 1 - 1)%N with (ol - 1 + 1)%N by lia.
    opose proof (move_assign_at_up h vm t b (ol - 1) _ _ d w Hb _) as Hstep.
    { rewrite length_app, length_fmap, length_rev. lia. }
    rewrite Ht in Hstep.
    erewrite bind_ok; [|exact Hstep].
    opose proof (IH (moved_from w) (Live w :: post)
                   (<[b := (pre ++ (Live <$> rev r)) ++ Live (moved_from w) :: Live w :: post]> h)
                   (t ++ [(OpMoveAssign d w, false)]) (ol - 1)%N _ _ Hq) as IH'.
    + rewrite lookup_insert_eq. by rewrite <- app_assoc.
    + lia.
    + replace (ol - 1 + 1 - 1)%N with (ol - 1)%N by lia.
      rewrite IH'. rewrite insert_insert_eq.
      cbn [rev move_chain oks fmap list_fmap move_residue foldl].
      rewrite fmap_app, <- !app_assoc. done.
Qed.

(** ** Assigning a run of another block ([operator=]) *)

Lemma copy_loop_across vm bs bd post spost ws : ∀ ds pre spre h t (fo od : N),
  bs ≠ bd → length ds = length ws →
  h !! bs = Some (spre ++ (Live <$> ws) ++ spost) → N.to_nat fo = length spre →
  h !! bd = Some (pre ++ (Live <$> ds) ++ post) → N.to_nat od = length pre →
  if quiet t (zip_with OpCopyAssign ds ws)
  then copy_loop (Ptr bs fo) (Ptr bd od) (length ws) (mkState h vm t)
       = (Ok tt, mkState (<[bd := pre ++ (Live <$> ws) ++ post]> h) vm
                   (t ++ oks (zip_with OpCopyAssign ds ws)))
  else ∃ ys t', copy_loop (Ptr bs fo) (Ptr bd od) (length ws) (mkState h vm t)
       = (Throw ElemFailure, mkState (<[bd := pre ++ (Live <$> ys) ++ post]> h) vm t') ∧
         length ys = length ws.
Proof.
  induction ws as [|w ws IH]; intros ds pre spre h t fo od Hne Hlen Hs Hfo Hd Hod.
  - destruct ds; [|done]. simpl in *. unfold ret. rewrite app_nil_r. by rewrite insert_id.
  - destruct ds as [|d ds]; [done|]. simpl in Hlen.
    rewrite fmap_cons, <- app_comm_cons in Hs, Hd.
    cbn [copy_loop length ptr_add zip_with quiet].
    pose proof (copy_assign_at_across h vm t bd bs od fo pre _ _ d w Hd Hod Hs
                  (list_lookup_middle _ _ _ _ Hfo)) as Hstep.
    destruct (throws t (OpCopyAssign d w)) eqn:Ht; cbn [negb andb].
    + exists (d :: ds), (t ++ [(OpCopyAssign d w, true)]). split; [|simpl; lia].
      erewrite bind_throw; [|exact Hstep]. rewrite insert_id; [done|].
      by rewrite fmap_cons, <- app_comm_cons.
    + opose proof (IH ds (pre ++ [Live w]) (spre ++ [Live w])
                     (<[bd := pre ++ Live w :: (Live <$> ds) ++ post]> h)
                     (t ++ [(OpCopyAssign d w, false)]) (fo + 1)%N (od + 1)%N Hne _ _ _ _ _) as IH'.
      * lia.
      * rewrite lookup_insert_ne by done. by rewrite <- app_assoc.
      * rewrite length_app. simpl. lia.
      * rewrite lookup_insert_eq. by rewrite <- app_assoc.
      * rewrite length_app. simpl. lia.
      * destruct (quiet _ (zip_with OpCopyAssign ds ws)).
        -- erewrite bind_ok; [|exact Hstep]. rewrite IH'.
           rewrite insert_insert_eq, fmap_cons, <- !app_assoc. done.
        -- destruct IH' as (ys & t' & IH' & Hys). exists (w :: ys), t'.
           split; [|simpl; lia].
           erewrite bind_ok; [|exact Hstep]. rewrite IH'.
           rewrite insert_insert_eq, fmap_cons, <- !app_assoc. done.
Qed.

End Shifts.

Section EraseProofs.

Context {E : Elem}.

Implicit Types (s : state) (h : gmap block (list (slot T))).
Implicit Types (vm : gmap loc Vector) (t : list (event T Args)).
Implicit Types (l pre post spre spost : list (slot T)) (xs ys ws ds done : list T).

Lemma std_move_down vm b post ws d pre h t (od oe : N) :
  h !! b = Some (pre ++ Live d :: (Live <$> ws) ++ post) → N.to_nat od = length pre →
  N.to_nat oe = length pre + S (length ws) → (oe < size_t_modulus)%N →
  if quiet t (move_chain d ws)
  then std_move (Ptr b (od + 1)) (Ptr b oe) (Ptr b od) (mkState h vm t)
       = (Ok tt, mkState (<[b := pre ++ (Live <$> ws) ++ Live (move_residue d ws) :: post]> h) vm
                   (t ++ oks (move_chain d ws)))
  else ∃ h' t', std_move (Ptr b (od + 1)) (Ptr b oe) (Ptr b od) (mkState h vm t)
       = (Throw ElemFailure, mkState h' vm t').
Proof.
  intros Hb Hod Hoe Hlt. unfold std_move.
  rewrite distance_same_block by lia. cbn [lift_opt].
  erewrite bind_ok; [|reflexivity].
  replace (N.to_nat (oe - (od + 1))) with (length ws) by lia.
  by apply move_loop_down.
Qed.

Lemma std_copy_down vm b post ws d pre h t (od oe : N) :
  h !! b = Some (pre ++ Live d :: (Live <$> ws) ++ post) → N.to_nat od = length pre →
  N.to_nat oe = length pre + S (length ws) → (oe < size_t_modulus)%N →
  if quiet t (copy_chain d ws)
  then std_copy (Ptr b (od + 1)) (Ptr b oe) (Ptr b od) (mkState h vm t)
       = (Ok tt, mkState (<[b := pre ++ (Live <$> ws) ++ Live (copy_residue d ws) :: post]> h) vm
                   (t ++ oks (copy_chain d ws)))
  else ∃ h' t', std_copy (Ptr b (od + 1)) (Ptr b oe) (Ptr b od) (mkState h vm t)
       = (Throw ElemFailure, mkState h' vm t').
Proof.
  intros Hb Hod Hoe Hlt. unfold std_copy.
  rewrite distance_same_block by lia. cbn [lift_opt].
  erewrite bind_ok; [|reflexivity].
  replace (N.to_nat (oe - (od + 1))) with (length ws) by lia.
  by apply copy_loop_down.
Qed.

Lemma Erase_spec s this xs cap i x :
  vector_view s this = Some (xs, cap) → xs !! i = Some x →
  let ws := drop (S i) xs in
  let res := Erase this (position s this i) s in
  if quiet (trace s) (erase_ops x ws)
  then res.1 = Ok (position s this i) ∧
       position res.2 this i = position s this i ∧
       vector_view res.2 this = Some (take i xs ++ ws, cap) ∧
       trace res.2 = trace s ++ oks (erase_ops x ws) ++ [(OpDestroy (erase_residue x ws), false)]
  else res.1 = Throw ElemFailure.
Proof.
  destruct s as [h vm t]. intros Hview Hx ws res. subst res.
  pose proof max_slots_lt_modulus as Hmod.
  pose proof (lookup_lt_Some _ _ _ Hx) as Hi.
  assert (Hcap : cap ≠ 0%N).
  { apply vector_view_inv in Hview as (buf & _ & Hle & _). lia. }
  apply vector_view_nonempty in Hview as (b & Hvm & Hle & Hmax & Hb); [|done].
  cbn [heap vecs trace] in *.
  unfold position. cbn [vecs]. rewrite Hvm. cbn [data_ GetAddress buffer_ ptr_add].
  rewrite N.add_0_l.
  assert (Hxs : xs = take i xs ++ x :: ws).
  { unfold ws. rewrite <- (take_drop_middle _ _ _ Hx) at 1. done. }
  assert (Hlen : length xs = i + S (length ws)).
  { unfold ws. rewrite length_drop. lia. }
  assert (Hb1 : h !! b = Some ((Live <$> take i xs) ++ Live x :: (Live <$> ws) ++
                                replicate (N.to_nat cap - length xs) Raw)).
  { rewrite Hb. unfold slots_of. rewrite Hxs at 1.
    rewrite fmap_app, fmap_cons, <- app_assoc. done. }
  assert (Hpre : N.to_nat (N.of_nat i) = length (Live <$> take i xs)).
  { rewrite length_fmap, length_take. lia. }
  unfold Erase.
  erewrite bind_ok; [|by apply get_vec_ok].
  cbn [data_ size_ GetAddress buffer_ ptr_add ptr_le ptr_lt ptr_diff assert_opt].
  rewrite !decide_True by done. rewrite N.add_0_l.
  destruct (N.leb_spec 0 (N.of_nat i)) as [_|]; [|lia].
  destruct (N.ltb_spec (N.of_nat i) (N.of_nat (length xs))) as [_|]; [|lia].
  erewrite bind_ok; [|reflexivity]. erewrite bind_ok; [|reflexivity].
  rewrite size_sub_small by lia. cbn [lift_opt]. erewrite bind_ok; [|reflexivity].
  rewrite N.sub_0_r.
  unfold erase_ops, erase_residue, move_mode.
  set (ops := if nothrow_move_constructible || negb copy_constructible
              then move_chain x ws else copy_chain x ws).
  set (rs := if nothrow_move_constructible || negb copy_constructible
             then move_residue x ws else copy_residue x ws).
  set (post := replicate (N.to_nat cap - length xs) (@Raw T)) in *.
  assert (Hshift :
    let m := if nothrow_move_constructible || negb copy_constructible
             then std_move (Ptr b (N.of_nat i + 1)) (Ptr b (N.of_nat (length xs))) (Ptr b (N.of_nat i))
             else std_copy (Ptr b (N.of_nat i + 1)) (Ptr b (N.of_nat (length xs))) (Ptr b (N.of_nat i)) in
    if quiet t ops
    then m (mkState h vm t)
         = (Ok tt, mkState (<[b := (Live <$> take i xs) ++ (Live <$> ws) ++ Live rs :: post]> h) vm
                     (t ++ oks ops))
    else ∃ h' t', m (mkState h vm t) = (Throw ElemFailure, mkState h' vm t')).
  { unfold ops, rs. destruct (nothrow_move_constructible || negb copy_constructible).
    - apply std_move_down; [done|done| rewrite length_fmap, length_take; lia | lia].
    - apply std_copy_down; [done|done| rewrite length_fmap, length_take; lia | lia]. }
  cbv zeta in Hshift.
  destruct (quiet t ops).
  - erewrite bind_ok; [|exact Hshift].
    cbn [ptr_prev]. destruct (N.eqb_spec (N.of_nat (length xs)) 0); [lia|].
    erewrite bind_ok; cycle 1.
    { eapply (destroy_at_ok _ _ _ _ _ ((Live <$> take i xs) ++ (Live <$> ws))).
      - rewrite lookup_insert_eq. by rewrite <- app_assoc.
      - rewrite length_app, !length_fmap, length_take. lia. }
    rewrite insert_insert_eq.
    erewrite bind_ok; [|by apply decr_size_ok].
    cbn [data_ size_]. unfold ret. cbn [fst snd vecs trace].
    rewrite lookup_insert_eq. cbn [data_ GetAddress buffer_ ptr_add].
    rewrite !N.add_0_l. rewrite size_sub_small by lia.
    split; [done|]. split; [done|]. split; [|by rewrite <- app_assoc].
    eapply vector_view_intro_ptr; cbn [vecs heap].
    + rewrite lookup_insert_eq. do 2 f_equal. rewrite length_app, length_take. lia.
    + rewrite length_app, length_take. lia.
    + done.
    + done.
    + rewrite lookup_insert_eq. f_equal. unfold slots_of, post.
      rewrite fmap_app, <- !app_assoc. do 2 f_equal.
      rewrite length_app, length_take.
      replace (N.to_nat cap - (i `min` length xs + length ws))
        with (S (N.to_nat cap - length xs)) by lia.
      done.
  - destruct Hshift as (h' & t' & Hshift). by erewrite bind_throw.
Qed.

End EraseProofs.

Section ReserveProofs.

Context {E : Elem}.

Implicit Types (s : state) (h : gmap block (list (slot T))).
Implicit Types (vm : gmap loc Vector) (t : list (event T Args)).
Implicit Types (l pre post spre spost : list (slot T)) (xs ys ws ds done : list T).

Lemma migrate_ops_nil : migrate_ops [] = [].
Proof. unfold migrate_ops. by destruct move_mode. Qed.

Lemma leftover_nil : leftover [] = [].
Proof. unfold leftover. by destruct move_mode. Qed.

Lemma view_position s this xs cap i v :
  vector_view s this = Some (xs, cap) → xs !! i = Some v →
  live_at (heap s) (position s this i) = Some v.
Proof.
  intros Hview Hi. pose proof (lookup_lt_Some _ _ _ Hi) as Hlt.
  assert (Hcap : cap ≠ 0%N).
  { apply vector_view_inv in Hview as (buf & _ & Hle & _). lia. }
  apply vector_view_nonempty in Hview as (b & Hvm & Hle & Hmax & Hb); [|done].
  unfold position. rewrite Hvm. cbn [data_ GetAddress buffer_ ptr_add]. rewrite N.add_0_l.
  by eapply live_at_slots_of.
Qed.

Lemma view_vend s this xs cap :
  vector_view s this = Some (xs, cap) →
  vend this s = (Ok (position s this (length xs)), s).
Proof.
  intros (buf & Hvm & _)%vector_view_inv. destruct s as [h vm t]. cbn [vecs] in Hvm.
  unfold vend, position. cbn [vecs]. rewrite Hvm.
  by erewrite bind_ok; [|by apply get_vec_ok].
Qed.

Lemma view_Size s this xs cap :
  vector_view s this = Some (xs, cap) → Size this s = (Ok (N.of_nat (length xs)), s).
Proof.
  intros (buf & Hvm & _)%vector_view_inv. destruct s as [h vm t]. cbn [vecs] in Hvm.
  unfold Size. by erewrite bind_ok; [|by apply get_vec_ok].
Qed.


(** [Reserve], outcome by outcome. *)
Lemma Reserve_spec s this xs cap (n' : N) :
  vector_view s this = Some (xs, cap) →
  let t1 := trace s ++ [(OpAlloc n', false)] in
  let res := Reserve this n' s in
  if (n' <=? cap)%N
  then res = (Ok tt, s)
  else if (max_slots <? n')%N || throws (trace s) (OpAlloc n')
  then res = (Throw BadAlloc, mkState (heap s) (vecs s) (trace s ++ [(OpAlloc n', true)]))
  else if quiet t1 (migrate_ops xs)
  then res.1 = Ok tt ∧
       vector_view res.2 this = Some (xs, n') ∧
       owned_block res.2 this = Some (fresh (dom (heap s))) ∧
       trace res.2 = t1 ++ oks (migrate_ops xs) ++ destroys (leftover xs)
  else res.1 = Throw ElemFailure ∧ vecs res.2 = vecs s ∧
       (move_mode = false → vector_view res.2 this = Some (xs, cap)).
Proof.
  destruct s as [h vm t]. intros Hview t1 res. subst res. cbn [heap vecs trace] in *.
  pose proof max_slots_lt_modulus as Hmod.
  pose proof Hview as (buf & Hvm & Hle & Hmax & Hbuf)%vector_view_inv.
  cbn [heap vecs] in *.
  unfold Reserve. erewrite bind_ok; [|by apply get_vec_ok]. cbn [data_ capacity_ size_].
  destruct (N.leb_spec n' cap) as [|Hgt]; [done|].
  assert (Hb' : h !! fresh (dom h) = None) by apply fresh_block_None.
  set (b' := fresh (dom h)) in *.
  destruct ((max_slots <? n')%N || throws t (OpAlloc n')) eqn:Ha.
  { unfold RawMemory_ctor. erewrite bind_throw; [done|].
    erewrite bind_throw; [done|]. apply Allocate_fail; [lia|done]. }
  apply orb_false_iff in Ha as [Hn' Ha]. apply N.ltb_ge in Hn'.
  erewrite bind_ok; cycle 1.
  { unfold RawMemory_ctor. erewrite bind_ok; [done|]. apply Allocate_ok; [lia|done|done]. }
  fold b' t1. cbn [GetAddress buffer_].
  set (h1 := <[b' := replicate (N.to_nat n') Raw]> h).
  set (post := replicate (N.to_nat n' - length xs) (@Raw T)).
  assert (H1b' : h1 !! b' = Some ([] ++ replicate (length xs) Raw ++ post)).
  { unfold h1, post. rewrite lookup_insert_eq. simpl. rewrite <- replicate_add.
    do 2 f_equal. lia. }
  destruct buf as [|b off].
  - (* no storage yet *)
    subst cap. assert (xs = []) as -> by (destruct xs; [done|simpl in Hle; lia]).
    rewrite migrate_ops_nil, leftover_nil. cbn [quiet].
    erewrite bind_ok; cycle 1.
    { apply on_unwind_ok.
      erewrite bind_ok; cycle 1.
      { destruct (nothrow_move_constructible || negb copy_constructible); reflexivity. }
      erewrite bind_ok; [|reflexivity].
      by apply swap_data_with_local_ok. }
    cbn [data_ size_ RawMemory_dtor buffer_ Deallocate]. unfold ret.
    cbn [fst snd trace]. split; [done|]. split; [|split].
    + eapply (vector_view_intro_ptr _ _ b' n' []); cbn [vecs heap length];
        [apply lookup_insert_eq|lia|done|lia|].
      unfold h1. rewrite lookup_insert_eq. unfold slots_of. simpl. f_equal. f_equal. lia.
    + unfold owned_block. cbn [vecs]. by rewrite lookup_insert_eq.
    + by rewrite !app_nil_r.
  - destruct Hbuf as (-> & Hcap & Hb).
    assert (Hbb : b ≠ b') by congruence.
    assert (H1b : h1 !! b = Some ([] ++ (Live <$> xs) ++ replicate (N.to_nat cap - length xs) Raw)).
    { unfold h1. by rewrite lookup_insert_ne. }
    opose proof (migrate_spec h1 vm t1 b b' 0 0 (N.of_nat (length xs)) _ _ _ _ xs
                   Hbb H1b _ H1b' _ _ _) as Hm; [done|done|lia|lia|].
    cbv zeta in Hm.
    destruct (quiet t1 (migrate_ops xs)).
    + erewrite bind_ok; cycle 1.
      { apply on_unwind_ok.
        erewrite bind_ok; [|exact Hm].
        erewrite bind_ok; cycle 1.
        { apply (destroy_n_ok (leftover xs)); [by rewrite lookup_insert_eq|done|].
          rewrite length_leftover. lia. }
        by apply swap_data_with_local_ok. }
      cbn [data_ size_ RawMemory_dtor buffer_].
      unfold RawMemory_dtor. cbn [buffer_]. erewrite Deallocate_ok; [|by apply lookup_insert_eq].
      cbn [fst snd trace]. split; [done|]. split; [|split].
      * eapply vector_view_intro_ptr; cbn [vecs heap];
          [apply lookup_insert_eq|lia|done|lia|].
        rewrite lookup_delete_ne by done.
        rewrite !lookup_insert_ne by done. rewrite lookup_insert_eq. done.
      * unfold owned_block. cbn [vecs]. by rewrite lookup_insert_eq.
      * rewrite <- !app_assoc. done.
    + destruct Hm as (h' & t' & Hm & [l' Hsome] & Hmode).
      erewrite bind_throw; cycle 1.
      { eapply on_unwind_throw.
        - erewrite bind_throw; [done|exact Hm].
        - unfold RawMemory_dtor. cbn [buffer_]. by erewrite Deallocate_ok. }
      cbn [fst snd vecs]. split; [done|]. split; [done|].
      intros ->%Hmode. eapply vector_view_intro_ptr; cbn [vecs heap]; try done.
      rewrite lookup_delete_ne by done. unfold h1. by rewrite lookup_insert_ne.
Qed.

End ReserveProofs.

Section EmplaceProofs.

Context {E : Elem}.

Implicit Types (s : state) (h : gmap block (list (slot T))).
Implicit Types (vm : gmap loc Vector) (t : list (event T Args)).
Implicit Types (l pre post spre spost : list (slot T)) (xs ys ws ds done : list T).

Lemma migrate_ops_app xs ys : migrate_ops (xs ++ ys) = migrate_ops xs ++ migrate_ops ys.
Proof. unfold migrate_ops. destruct move_mode; by rewrite fmap_app. Qed.

Lemma leftover_app xs ys : leftover (xs ++ ys) = leftover xs ++ leftover ys.
Proof. unfold leftover. destruct move_mode; [by rewrite fmap_app|done]. Qed.

Lemma oks_app (o1 o2 : list (op T Args)) : oks (o1 ++ o2) = oks o1 ++ oks o2.
Proof. unfold oks. by rewrite fmap_app. Qed.

(** The two migrations of the reallocating [Emplace], around the new
    element, when nothing throws. *)
Lemma migrate_around h vm t bs bd (i n : N) (hd1 hd2 : M unit) post xs1 xs2 v :
  bs ≠ bd →
  h !! bs = Some (Live <$> xs1 ++ xs2) →
  h !! bd = Some (replicate (length xs1) Raw ++ Live v :: replicate (length xs2) Raw ++ post) →
  N.to_nat i = length xs1 → N.to_nat n = length xs1 + length xs2 →
  (n + 1 < size_t_modulus)%N →
  quiet t (migrate_ops (xs1 ++ xs2)) = true →
  (if nothrow_move_constructible || negb copy_constructible then
     bind (try_catch (uninitialized_move_n (Ptr bs 0) i (Ptr bd 0)) hd1) (λ _,
     try_catch (uninitialized_move_n (ptr_add (Ptr bs 0) i) (size_sub n i)
                  (ptr_add (ptr_add (Ptr bd 0) i) 1)) hd2)
   else
     bind (try_catch (uninitialized_copy_n (Ptr bs 0) i (Ptr bd 0)) hd1) (λ _,
     try_catch (uninitialized_copy_n (ptr_add (Ptr bs 0) i) (size_sub n i)
                  (ptr_add (ptr_add (Ptr bd 0) i) 1)) hd2)) (mkState h vm t)
  = (Ok tt, mkState (<[bs := Live <$> leftover (xs1 ++ xs2)]>
                       (<[bd := (Live <$> xs1) ++ Live v :: (Live <$> xs2) ++ post]> h)) vm
              (t ++ oks (migrate_ops (xs1 ++ xs2)))).
Proof.
  intros Hne Hs Hd Hi Hn Hlt Hq.
  rewrite migrate_ops_app, quiet_app in Hq. apply andb_true_iff in Hq as [Hq1 Hq2].
  rewrite migrate_ops_app, leftover_app, oks_app.
  unfold migrate_ops, leftover, move_mode in *.
  cbn [ptr_add]. rewrite !N.add_0_l. rewrite size_sub_small by lia.
  rewrite fmap_app in Hs.
  destruct (nothrow_move_constructible || negb copy_constructible).
  - opose proof (uninitialized_move_n_spec h vm t bs bd 0 0 i [] _ [] _ xs1 Hne Hs eq_refl Hd eq_refl Hi _) as H1;
      [lia|].
    rewrite Hq1 in H1.
    erewrite bind_ok; [|by apply try_catch_ok].
    opose proof (uninitialized_move_n_spec _ vm _ bs bd i (i + 1) (n - i)
                   ((Live <$> xs1) ++ [Live v]) post (Live <$> (moved_from <$> xs1)) [] xs2
                   Hne _ _ _ _ _ _) as H2; cycle -1.
    + rewrite Hq2 in H2. erewrite try_catch_ok; [|exact H2].
      rewrite insert_two_twice by done. rewrite ?app_nil_r.
      rewrite ?fmap_app, <- ?app_assoc. done.
    + rewrite lookup_insert_eq. by rewrite app_nil_r.
    + by rewrite !length_fmap.
    + rewrite lookup_insert_ne, lookup_insert_eq by done.
      rewrite <- ?app_assoc. done.
    + rewrite length_app, length_fmap. simpl. lia.
    + lia.
    + lia.
  - opose proof (uninitialized_copy_n_spec h vm t bs bd 0 0 i [] _ [] _ xs1 Hne Hs eq_refl Hd eq_refl Hi _) as H1;
      [lia|].
    rewrite Hq1 in H1.
    erewrite bind_ok; [|by apply try_catch_ok].
    opose proof (uninitialized_copy_n_spec _ vm _ bs bd i (i + 1) (n - i)
                   ((Live <$> xs1) ++ [Live v]) post (Live <$> xs1) [] xs2
                   Hne _ _ _ _ _ _) as H2; cycle -1.
    + rewrite Hq2 in H2. erewrite try_catch_ok; [|exact H2].
      rewrite insert_insert_eq.
      rewrite (insert_id _ bs); [|by rewrite lookup_insert_ne, fmap_app].
      rewrite <- ?app_assoc. done.
    + rewrite lookup_insert_ne by done. by rewrite app_nil_r.
    + by rewrite !length_fmap.
    + rewrite lookup_insert_eq. rewrite <- ?app_assoc. done.
    + rewrite length_app, length_fmap. simpl. lia.
    + lia.
    + lia.
Qed.

(** [Emplace] before the end of a full vector, when nothing throws. *)
Lemma Emplace_realloc h vm t this b xs1 xs2 arg v :
  let xs := xs1 ++ xs2 in
  let n := N.of_nat (length xs) in
  let i := N.of_nat (length xs1) in
  let cap' := grown_capacity n in
  let b' := fresh (dom h) in
  xs2 ≠ [] →
  vm !! this = Some (mkVector (mkRawMemory (Ptr b 0) n) n) →
  (n ≤ max_slots)%N → (cap' ≤ max_slots)%N →
  h !! b = Some (Live <$> xs) →
  arg_source h arg = Some v →
  (∀ bs os, arg = ByMove (Ptr bs os) → bs ≠ b) →
  quiet t ([OpAlloc cap'; arg_op v arg] ++ migrate_ops xs) = true →
  ∃ h', Emplace this (Ptr b i) arg (mkState h vm t)
        = (Ok (Ptr b' i),
           mkState h' (<[this := mkVector (mkRawMemory (Ptr b' 0) cap') (n + 1)]> vm)
             (t ++ oks ([OpAlloc cap'; arg_op v arg] ++ migrate_ops xs) ++ destroys (leftover xs))) ∧
        h' !! b' = Some (slots_of (xs1 ++ v :: xs2) cap') ∧ h' !! b = None.
Proof.
  intros xs n i cap' b' Hxs2 Hvm Hnmax Hmax Hb Hv Hali Hq.
  pose proof max_slots_lt_modulus as Hmod.
  assert (Hlen2 : 0 < length xs2) by (destruct xs2; [done|simpl; lia]).
  assert (Hn : N.to_nat n = length xs1 + length xs2) by (unfold n, xs; rewrite length_app; lia).
  assert (Hi : N.to_nat i = length xs1) by (unfold i; lia).
  assert (Hcap : cap' = (2 * n)%N).
  { unfold cap'. rewrite grown_capacity_max by done. lia. }
  assert (Hgc : grown_capacity n = cap') by done.
  assert (Hlenxs : length xs = length xs1 + length xs2) by (unfold xs; by rewrite length_app).
  assert (Hb' : h !! b' = None) by apply fresh_block_None.
  assert (Hbb : b ≠ b') by congruence.
  cbn [app quiet] in Hq.
  apply andb_true_iff in Hq as [Ha Hq]. apply negb_true_iff in Ha.
  apply andb_true_iff in Hq as [Ht Hq]. apply negb_true_iff in Ht.
  clearbody cap' n i.
  unfold Emplace.
  erewrite bind_ok; [|by apply get_vec_ok].
  cbn [data_ size_ capacity_ GetAddress buffer_ ptr_add ptr_le ptr_diff assert_opt].
  rewrite !decide_True by done. rewrite N.add_0_l.
  destruct (N.leb_spec 0 i) as [_|]; [|lia].
  destruct (N.leb_spec i n) as [_|]; [|lia].
  erewrite bind_ok; [|reflexivity]. erewrite bind_ok; [|reflexivity].
  rewrite size_sub_small by lia. cbn [lift_opt]. erewrite bind_ok; [|reflexivity].
  rewrite N.sub_0_r.
  destruct (N.eqb_spec n i) as [|_]; [lia|]. rewrite N.eqb_refl, Hgc.
  erewrite bind_ok; cycle 1.
  { unfold RawMemory_ctor. erewrite bind_ok; [done|]. apply Allocate_ok; [lia|done|done]. }
  fold b'.
  set (t1 := t ++ [(OpAlloc cap', false)]) in *.
  set (h1 := <[b' := replicate (N.to_nat cap') Raw]> h).
  set (post := replicate (N.to_nat cap' - S (length xs)) (@Raw T)).
  assert (Hsplit : h1 !! b' = Some (replicate (length xs1) Raw ++ Raw ::
                      replicate (length xs2) Raw ++ post)).
  { unfold h1, post. rewrite lookup_insert_eq. f_equal.
    rewrite (replicate_split (N.to_nat cap') (length xs1)) by lia. do 2 f_equal.
    rewrite <- replicate_add. f_equal. lia. }
  assert (Hv1 : arg_source h1 arg = Some v) by (by apply arg_source_insert_fresh).
  assert (Hali' : ∀ bs os, arg = ByMove (Ptr bs os) → bs ≠ b').
  { intros bs os Harg ->. destruct (arg_source_block _ _ _ _ _ Hv Harg) as [? ?]. congruence. }
  pose proof (construct_at_arg h1 vm t1 b' i _ _ arg v Hsplit
                ltac:(rewrite length_replicate; lia) Hv1 Hali') as Hc.
  rewrite Ht in Hc.
  set (t2 := t1 ++ [(arg_op v arg, false)]) in *.
  set (h2 := after_arg arg v _) in Hc.
  assert (H2b : h2 !! b = Some (Live <$> xs1 ++ xs2)).
  { unfold h2, h1. rewrite after_arg_lookup_ne by done.
    by rewrite !lookup_insert_ne by done. }
  assert (H2b' : h2 !! b' = Some (replicate (length xs1) Raw ++ Live v ::
                      replicate (length xs2) Raw ++ post)).
  { unfold h2. rewrite after_arg_lookup_ne by done. by rewrite lookup_insert_eq. }
  erewrite bind_ok; cycle 1.
  { apply on_unwind_ok.
    erewrite bind_ok; [|by apply RawMemory_plus_ok; lia].
    cbn [ptr_add]. rewrite N.add_0_l.
    erewrite bind_ok; [|exact Hc].
    erewrite bind_ok; cycle 1.
    { apply (migrate_around h2 vm t2 b b' i n _ _ post xs1 xs2 v); try done. lia. }
    erewrite bind_ok; cycle 1.
    { apply (destroy_ok (leftover xs) _ _ _ _ 0 n [] []).
      - rewrite lookup_insert_eq. by rewrite app_nil_r.
      - done.
      - rewrite length_leftover. simpl. lia.
      - lia. }
    erewrite bind_ok; [|by apply swap_data_with_local_ok].
    erewrite bind_ok; [|by apply incr_size_ok, lookup_insert_eq].
    reflexivity. }
  cbn [data_ size_]. unfold RawMemory_dtor. cbn [buffer_].
  erewrite bind_ok; [|by eapply Deallocate_ok, lookup_insert_eq].
  unfold ret. rewrite (insert_insert_eq vm). rewrite size_add_small by lia.
  eexists. split; [|split].
  - f_equal. f_equal. unfold t2, t1. cbn [oks fmap list_fmap app].
    rewrite <- !app_assoc. done.
  - rewrite lookup_delete_ne by done.
    rewrite !lookup_insert_ne by done. rewrite lookup_insert_eq.
    f_equal. unfold slots_of, post. rewrite fmap_app, fmap_cons, <- !app_assoc.
    cbn [app]. do 3 f_equal. rewrite length_app. simpl. f_equal. lia.
  - by rewrite lookup_delete_eq.
Qed.

Lemma move_chain_snoc (d : T) r v :
  move_chain d (r ++ [v]) = move_chain d r ++ [OpMoveAssign (move_residue d r) v].
Proof.
  revert d. induction r as [|w r IH]; intros d; [done|].
  cbn [app move_chain]. rewrite IH. done.
Qed.

Lemma scope_ok {A} (hd : M unit) (m : M A) s a s' s'' :
  m s = (Ok a, s') → hd s' = (Ok tt, s'') → scope hd m s = (Ok a, s'').
Proof.
  intros Hm Hh. unfold scope.
  erewrite bind_ok; [|by apply on_unwind_ok].
  by erewrite bind_ok.
Qed.

(** [Emplace] before the end of a vector with room left, when nothing
    throws: [z] is the last element, [ws] the ones between the position and
    it. *)
Lemma Emplace_in_capacity h vm t this b cap xs1 ws z arg v :
  let xs := xs1 ++ ws ++ [z] in
  let n := N.of_nat (length xs) in
  let i := N.of_nat (length xs1) in
  let ops := [arg_op v arg; OpMove z] ++ move_chain (moved_from z) (rev ws ++ [v]) in
  vm !! this = Some (mkVector (mkRawMemory (Ptr b 0) cap) n) →
  (n < cap)%N → (cap ≤ max_slots)%N →
  h !! b = Some (slots_of xs cap) →
  arg_source h arg = Some v →
  (∀ bs os, arg = ByMove (Ptr bs os) → bs ≠ b) →
  quiet t ops = true →
  ∃ h', Emplace this (Ptr b i) arg (mkState h vm t)
        = (Ok (Ptr b i),
           mkState h' (<[this := mkVector (mkRawMemory (Ptr b 0) cap) (n + 1)]> vm)
             (t ++ oks ops ++ [(OpDestroy (moved_from v), false)])) ∧
        h' !! b = Some (slots_of (xs1 ++ v :: ws ++ [z]) cap).
Proof.
  intros xs n i ops Hvm Hn Hmax Hb Hv Hali Hq.
  pose proof max_slots_lt_modulus as Hmod.
  assert (Hlenxs : length xs = length xs1 + length ws + 1).
  { unfold xs. rewrite !length_app. simpl. lia. }
  assert (Hnn : N.to_nat n = length xs1 + length ws + 1) by (unfold n; lia).
  assert (Hi : N.to_nat i = length xs1) by (unfold i; lia).
  unfold ops in Hq. rewrite move_chain_snoc in Hq.
  cbn [app quiet] in Hq.
  apply andb_true_iff in Hq as [Ht Hq]. apply negb_true_iff in Ht.
  apply andb_true_iff in Hq as [Hz Hq]. apply negb_true_iff in Hz.
  rewrite quiet_app in Hq. apply andb_true_iff in Hq as [Hq Hf].
  cbn [quiet] in Hf. rewrite andb_true_r in Hf. apply negb_true_iff in Hf.
  set (post := replicate (N.to_nat cap - S (length xs)) (@Raw T)).
  assert (Hb0 : h !! b = Some (((Live <$> xs1) ++ (Live <$> ws)) ++ Live z :: Raw :: post)).
  { rewrite Hb. unfold slots_of, xs, post. rewrite !fmap_app, <- !app_assoc. cbn [app fmap list_fmap].
    do 4 f_equal. rewrite !length_app. simpl.
    replace (N.to_nat cap - (length xs1 + (length ws + 1)))
      with (S (N.to_nat cap - S (length xs1 + (length ws + 1)))) by lia.
    simpl. rewrite Hlenxs. do 2 f_equal. lia. }
  clearbody n i.
  set (bn := fresh (dom h)).
  assert (Hbn : h !! bn = None) by apply fresh_block_None.
  assert (Hbbn : bn ≠ b) by congruence.
  unfold Emplace.
  erewrite bind_ok; [|by apply get_vec_ok].
  cbn [data_ size_ capacity_ GetAddress buffer_ ptr_add ptr_le ptr_diff assert_opt ptr_prev].
  rewrite !decide_True by done. rewrite !N.add_0_l.
  destruct (N.eqb_spec n 0) as [|_]; [lia|].
  destruct (N.leb_spec 0 i) as [_|]; [|lia].
  destruct (N.leb_spec i n) as [_|]; [|lia].
  erewrite bind_ok; [|reflexivity]. erewrite bind_ok; [|reflexivity].
  rewrite size_sub_small by lia. cbn [lift_opt]. erewrite bind_ok; [|reflexivity].
  rewrite N.sub_0_r.
  destruct (N.eqb_spec n i) as [|_]; [lia|].
  destruct (N.eqb_spec n cap) as [|_]; [lia|].
  erewrite bind_ok; [|reflexivity]. fold bn.
  set (h1 := <[bn := [Raw]]> h).
  assert (H1bn : h1 !! bn = Some ([] ++ Raw :: [])) by (by unfold h1; rewrite lookup_insert_eq).
  assert (Hv1 : arg_source h1 arg = Some v) by (by apply arg_source_insert_fresh).
  assert (Hali' : ∀ bs os, arg = ByMove (Ptr bs os) → bs ≠ bn).
  { intros bs os Harg ->. destruct (arg_source_block _ _ _ _ _ Hv Harg) as [? ?]. congruence. }
  pose proof (construct_at_arg h1 vm t bn 0 _ _ arg v H1bn eq_refl Hv1 Hali') as Hc.
  rewrite Ht in Hc. cbn [app] in Hc.
  set (h2 := after_arg arg v _) in Hc.
  assert (H2bn : h2 !! bn = Some ([] ++ Live v :: [])).
  { unfold h2. rewrite after_arg_lookup_ne by done. by rewrite lookup_insert_eq. }
  assert (H2b : h2 !! b = Some (((Live <$> xs1) ++ (Live <$> ws)) ++ Live z :: Raw :: post)).
  { unfold h2, h1. rewrite after_arg_lookup_ne by done.
    by rewrite !lookup_insert_ne by done. }
  erewrite bind_ok; [|by apply on_unwind_ok].
  set (t1 := t ++ [(arg_op v arg, false)]) in *.
  (* the move of the last element into the free slot *)
  opose proof (construct_at_move_up h2 vm t1 b (n - 1) _ _ z H2b _) as Hm.
  { rewrite length_app, !length_fmap. lia. }
  rewrite Hz in Hm. replace (n - 1 + 1)%N with n in Hm by lia.
  set (t2 := t1 ++ [(OpMove z, false)]) in *.
  (* the shift *)
  set (h3 := <[b := ((Live <$> xs1) ++ (Live <$> ws)) ++ Live (moved_from z) :: Live z :: post]> h2)
    in *.
  opose proof (move_backward_loop_up vm b (Live <$> xs1) (rev ws) (moved_from z)
                 (Live z :: post) h3 t2 (n - 1) _ _ Hq) as Hs.
  { unfold h3. rewrite lookup_insert_eq. rewrite rev_involutive, <- !app_assoc. done. }
  { rewrite length_fmap, length_rev. lia. }
  replace (n - 1 + 1)%N with n in Hs by lia.
  rewrite length_rev, rev_involutive in Hs.
  set (d := move_residue (moved_from z) (rev ws)) in *.
  set (t3 := t2 ++ oks (move_chain (moved_from z) (rev ws))) in *.
  (* the assignment of the new value *)
  set (h4 := <[b := (Live <$> xs1) ++ Live d :: (Live <$> ws) ++ Live z :: post]> h3) in *.
  opose proof (move_assign_at_across h4 vm t3 b bn i 0 (Live <$> xs1) _ [] [] d v Hbbn _ _ _ eq_refl)
    as Hf'.
  { unfold h4. by rewrite lookup_insert_eq. }
  { by rewrite length_fmap. }
  { unfold h4, h3. rewrite !lookup_insert_ne by done. exact H2bn. }
  rewrite Hf in Hf'. cbn [app] in Hf'.
  eexists. split.
  - eapply scope_ok.
    + erewrite bind_ok; [|by apply RawMemory_plus_ok; lia].
      cbn [ptr_add]. rewrite N.add_0_l.
      erewrite bind_ok; [|exact Hm].
      erewrite bind_ok; cycle 1.
      { apply on_unwind_ok. unfold move_backward.
        rewrite distance_same_block by lia. cbn [lift_opt].
        erewrite bind_ok; [|reflexivity].
        replace (N.to_nat (n - 1 - i)) with (length ws) by lia.
        exact Hs. }
      erewrite bind_ok; [|exact Hf'].
      erewrite bind_ok; [|by apply incr_size_ok].
      reflexivity.
    + erewrite bind_ok; cycle 1.
      { eapply (destroy_at_ok _ _ _ _ _ [] []); [by rewrite lookup_insert_eq|done]. }
      rewrite insert_insert_eq. cbn [app].
      erewrite Deallocate_ok; [|by rewrite lookup_insert_eq].
      cbn [data_ size_]. rewrite size_add_small by lia.
      f_equal. f_equal. unfold t3, t2, t1, ops. rewrite move_chain_snoc.
      unfold oks. rewrite !fmap_app. cbn [fmap list_fmap app].
      rewrite <- !app_assoc. reflexivity.
  - rewrite lookup_delete_ne by done. rewrite !lookup_insert_ne by done.
    rewrite lookup_insert_eq. f_equal.
    unfold slots_of, post. rewrite fmap_app, fmap_cons, fmap_app, <- !app_assoc.
    cbn [app fmap list_fmap].
    replace (length (xs1 ++ v :: ws ++ [z])) with (S (length xs)); [by rewrite <- !app_assoc|].
    rewrite Hlenxs, !length_app. simpl. rewrite length_app. simpl. lia.
Qed.

End EmplaceProofs.

Section EmplaceSpec.

Context {E : Elem}.

Implicit Types (s : state) (h : gmap block (list (slot T))).
Implicit Types (vm : gmap loc Vector) (t : list (event T Args)).
Implicit Types (l pre post spre spost : list (slot T)) (xs ys ws ds done : list T).

Lemma bind_same {A} (m : M A) (k : A → M A) s :
  (∀ a s', m s = (Ok a, s') → k a s' = (Ok a, s')) → bind m k s = m s.
Proof.
  intros H. unfold bind. destruct (m s) as [[a|e|] s'] eqn:Hm; auto.
Qed.

Lemma vend_prev h vm t this b cap n :
  vm !! this = Some (mkVector (mkRawMemory (Ptr b 0) cap) (n + 1)) →
  bind (vend this) (λ e, ret (ptr_prev e)) (mkState h vm t) = (Ok (Ptr b n), mkState h vm t).
Proof.
  intros Hvm. unfold vend.
  erewrite bind_ok; cycle 1.
  { erewrite bind_ok; [|by apply get_vec_ok]. reflexivity. }
  cbn [data_ size_ GetAddress buffer_ ptr_add ptr_prev]. rewrite N.add_0_l.
  destruct (N.eqb_spec (n + 1) 0); [lia|].
  unfold ret. do 3 f_equal. lia.
Qed.

(** At the end, [Emplace] is [EmplaceBack]: the same outcome, the same
    reference, the same state. *)
Lemma Emplace_at_end s this xs cap arg v :
  vector_view s this = Some (xs, cap) →
  arg_value s this arg = Some v →
  Emplace this (position s this (length xs)) arg s = EmplaceBack this arg s.
Proof.
  destruct s as [h vm t]. intros Hview Hv.
  pose proof (arg_value_source _ _ _ _ _ _ Hv) as Hsrc.
  pose proof max_slots_lt_modulus as Hmod.
  pose proof Hview as (buf & Hvm & Hle & Hmax & Hbuf)%vector_view_inv.
  cbn [heap vecs] in *.
  unfold position. cbn [vecs]. rewrite Hvm. cbn [data_ GetAddress buffer_].
  unfold Emplace. erewrite bind_ok; [|by apply get_vec_ok].
  cbn [data_ size_ capacity_ GetAddress buffer_].
  set (n := N.of_nat (length xs)) in *.
  destruct buf as [|b off]; cbn [ptr_add ptr_le ptr_diff assert_opt lift_opt].
  - subst cap. subst n.
    assert (xs = []) as -> by (destruct xs; [done|simpl in Hle; lia]).
    cbn [length N.of_nat].
    erewrite bind_ok; [|reflexivity]. erewrite bind_ok; [|reflexivity].
    erewrite bind_ok; [|reflexivity]. cbn [N.eqb].
    apply bind_same. intros p s' HEB.
    pose proof (EmplaceBack_realloc_null h vm t this arg v Hvm Hsrc) as H.
    cbv zeta in H. rewrite HEB in H.
    destruct (throws t (OpAlloc 1)); [done|].
    destruct (throws _ (arg_op v arg)); [done|].
    destruct H as (h' & [= -> ->] & _).
    apply (vend_prev _ _ _ _ _ 1 0). by rewrite lookup_insert_eq.
  - destruct Hbuf as (-> & Hcap & Hb). rewrite !decide_True by done. rewrite N.add_0_l.
    assert (Hnn : n = N.of_nat (length xs)) by done. clearbody n.
    destruct (N.leb_spec 0 n) as [_|]; [|lia]. rewrite N.leb_refl.
    erewrite bind_ok; [|reflexivity]. erewrite bind_ok; [|reflexivity].
    rewrite size_sub_small by lia. erewrite bind_ok; [|reflexivity].
    rewrite N.sub_0_r, N.eqb_refl.
    apply bind_same. intros p s' HEB. subst n.
    pose proof (arg_value_alias _ _ _ _ _ _ _ _ _ Hv Hvm) as Hali.
    destruct (N.eq_dec (N.of_nat (length xs)) cap) as [Heq|Hneq].
    + assert (Hb0 : h !! b = Some (Live <$> xs)).
      { rewrite Hb. unfold slots_of. replace (N.to_nat cap - length xs) with 0 by lia.
        by rewrite app_nil_r. }
      rewrite <- Heq in Hvm.
      pose proof (EmplaceBack_realloc_ptr h vm t this b xs arg v Hvm ltac:(lia) ltac:(lia)
                    Hb0 Hsrc Hali) as H.
      cbv zeta in H. rewrite HEB in H.
      destruct (_ || _); [done|]. destruct (throws _ (arg_op v arg)); [done|].
      destruct (quiet _ _).
      * destruct H as (h' & [= -> ->] & _).
        eapply vend_prev. by rewrite lookup_insert_eq.
      * by destruct H as (h' & t' & [=] & _).
    + pose proof (EmplaceBack_in_capacity h vm t this b cap xs arg v Hvm ltac:(lia) Hmax
                    Hb Hsrc Hali) as H.
      cbv zeta in H. rewrite HEB in H.
      destruct (throws _ (arg_op v arg)); [done|].
      destruct H as (h' & [= -> ->] & _).
      eapply vend_prev. by rewrite lookup_insert_eq.
Qed.

Lemma view_position_ptr s this xs cap b i :
  vector_view s this = Some (xs, cap) → owned_block s this = Some b →
  position s this i = Ptr b (N.of_nat i).
Proof.
  intros (buf & Hvm & _ & _ & Hbuf)%vector_view_inv. unfold owned_block, position.
  rewrite Hvm. cbn [data_ buffer_ GetAddress]. destruct buf as [|b' off]; [done|].
  destruct Hbuf as (-> & _). intros [= ->]. cbn [ptr_add]. by rewrite N.add_0_l.
Qed.

(** A successful [EmplaceBack], read off the vector. *)
Lemma EmplaceBack_quiet s this xs cap arg v :
  vector_view s this = Some (xs, cap) →
  arg_value s this arg = Some v →
  let cap' := if (N.of_nat (length xs) =? cap)%N then N.max 1 (2 * cap) else cap in
  (cap' ≤ max_slots)%N →
  quiet (trace s) (emplace_ops xs cap (length xs) v arg) = true →
  let res := EmplaceBack this arg s in
  res.1 = Ok (position res.2 this (length xs)) ∧
  vector_view res.2 this = Some (xs ++ [v], cap') ∧
  trace res.2 = trace s ++ oks (emplace_ops xs cap (length xs) v arg)
                        ++ emplace_cleanup xs cap (length xs) v.
Proof.
  intros Hview Hv cap' Hcap' Hq res. subst res.
  pose proof max_slots_lt_modulus as Hmod.
  unfold emplace_ops, emplace_cleanup in *. subst cap'.
  destruct (N.eqb_spec (N.of_nat (length xs)) cap) as [Heq|Hneq].
  - pose proof (EmplaceBack_full_spec s this xs cap arg v Hview Heq Hv) as H.
    cbv zeta in H.
    assert (Hgc : grown_capacity cap = N.max 1 (2 * cap)).
    { apply grown_capacity_max. apply vector_view_inv in Hview as (? & _ & _ & ? & _). done. }
    rewrite Hgc in *.
    cbn [app quiet] in Hq.
    apply andb_true_iff in Hq as [Ha Hq]. apply negb_true_iff in Ha.
    apply andb_true_iff in Hq as [Ht Hq]. apply negb_true_iff in Ht.
    rewrite Ha, Ht, Hq in H.
    destruct (N.ltb_spec max_slots (N.max 1 (2 * cap))); [lia|]. cbn [orb] in H.
    destruct H as (p & Hp & Hview' & Hidx & _ & Htr).
    split; [|split; [done|]].
    + rewrite Hp. f_equal.
      pose proof Hview' as (buf & Hvm & _)%vector_view_inv.
      destruct (EmplaceBack this arg s) as [r [h' vm' t']]. cbn [fst snd vecs] in *.
      erewrite Vector_index_ok in Hidx;
        [|exact Hvm|rewrite length_app; simpl; lia|rewrite length_app; simpl; lia].
      injection Hidx as <-. unfold position. cbn [vecs]. rewrite Hvm.
      cbn [data_ GetAddress buffer_]. by rewrite Heq.
    + rewrite Htr. cbn [oks fmap list_fmap app]. by rewrite <- !app_assoc.
  - rewrite decide_True in * by done.
    destruct s as [h vm t]. cbn [heap vecs trace] in *.
    pose proof (arg_value_source _ _ _ _ _ _ Hv) as Hsrc.
    assert (Hc0 : cap ≠ 0%N).
    { apply vector_view_inv in Hview as (? & _ & ? & _). lia. }
    apply vector_view_nonempty in Hview as (b & Hvm & Hle & Hmax & Hb); [|done].
    cbn [heap vecs] in *.
    pose proof (EmplaceBack_in_capacity h vm t this b cap xs arg v Hvm ltac:(lia) Hmax
                  Hb Hsrc (arg_value_alias _ _ _ _ _ _ _ _ _ Hv Hvm)) as H.
    cbv zeta in H. cbn [quiet] in Hq. rewrite andb_true_r in Hq.
    apply negb_true_iff in Hq. rewrite Hq in H.
    destruct H as (h' & -> & Hb'). cbn [fst snd vecs heap trace].
    split; [|split].
    + unfold position. cbn [vecs]. rewrite lookup_insert_eq.
      cbn [data_ GetAddress buffer_ ptr_add]. by rewrite N.add_0_l.
    + eapply vector_view_intro_ptr; cbn [vecs heap]; try done.
      * rewrite lookup_insert_eq. do 2 f_equal. rewrite length_app. simpl. lia.
      * rewrite length_app. simpl. lia.
    + rewrite decide_True by done. by rewrite app_nil_r.
Qed.

(** A successful [Emplace] at index [i], read off the vector. *)
Lemma Emplace_spec s this xs cap i arg v :
  vector_view s this = Some (xs, cap) →
  i ≤ length xs →
  arg_value s this arg = Some v →
  let cap' := if (N.of_nat (length xs) =? cap)%N then N.max 1 (2 * cap) else cap in
  (cap' ≤ max_slots)%N →
  quiet (trace s) (emplace_ops xs cap i v arg) = true →
  let res := Emplace this (position s this i) arg s in
  res.1 = Ok (position res.2 this i) ∧
  vector_view res.2 this = Some (take i xs ++ v :: drop i xs, cap') ∧
  trace res.2 = trace s ++ oks (emplace_ops xs cap i v arg) ++ emplace_cleanup xs cap i v.
Proof.
  intros Hview Hi Hv cap' Hcap' Hq res. subst res.
  pose proof max_slots_lt_modulus as Hmod.
  destruct (decide (i = length xs)) as [->|Hne].
  - rewrite (Emplace_at_end s this xs cap arg v Hview Hv).
    rewrite take_ge, drop_ge by lia.
    by apply EmplaceBack_quiet.
  - assert (Hlt : i < length xs) by lia.
    assert (Hc0 : cap ≠ 0%N).
    { apply vector_view_inv in Hview as (? & _ & ? & _). lia. }
    destruct s as [h vm t]. cbn [heap vecs trace] in *.
    pose proof (arg_value_source _ _ _ _ _ _ Hv) as Hsrc.
    apply vector_view_nonempty in Hview as (b & Hvm & Hle & Hmax & Hb); [|done].
    cbn [heap vecs] in *.
    pose proof (arg_value_alias _ _ _ _ _ _ _ _ _ Hv Hvm) as Hali.
    assert (Hpos : position (mkState h vm t) this i = Ptr b (N.of_nat i)).
    { unfold position. cbn [vecs]. rewrite Hvm. cbn [data_ GetAddress buffer_ ptr_add].
      by rewrite N.add_0_l. }
    rewrite Hpos.
    assert (Hlen1 : length (take i xs) = i) by (rewrite length_take; lia).
    assert (Hlen2 : length (drop i xs) = length xs - i) by (by rewrite length_drop).
    unfold emplace_ops, emplace_cleanup in *. subst cap'.
    destruct (N.eqb_spec (N.of_nat (length xs)) cap) as [Heq|Hneq].
    + rewrite <- Heq in *.
      opose proof (Emplace_realloc h vm t this b (take i xs) (drop i xs) arg v _ _ _ _ _ Hsrc Hali _)
        as (h' & Hres & Hb' & _).
      * intros Hnil. rewrite Hnil in Hlen2. simpl in Hlen2. lia.
      * by rewrite take_drop.
      * rewrite take_drop. lia.
      * rewrite take_drop. rewrite grown_capacity_max by lia. done.
      * rewrite take_drop. rewrite Hb. unfold slots_of.
        replace (N.to_nat (N.of_nat (length xs)) - length xs) with 0 by lia.
        by rewrite app_nil_r.
      * by rewrite take_drop.
      * rewrite take_drop, Hlen1 in Hres. rewrite take_drop in Hb'.
        rewrite Hres. cbn [fst snd vecs heap trace].
        rewrite grown_capacity_max in * by lia.
        split; [|split; [|done]].
        -- unfold position. cbn [vecs]. rewrite lookup_insert_eq.
           cbn [data_ GetAddress buffer_ ptr_add]. by rewrite N.add_0_l.
        -- eapply vector_view_intro_ptr; cbn [vecs heap]; try done.
           ++ rewrite lookup_insert_eq. do 2 f_equal.
              rewrite length_app. simpl. rewrite Hlen1, Hlen2. lia.
           ++ rewrite length_app. simpl. rewrite Hlen1, Hlen2. lia.
           ++ lia.
    + rewrite decide_False in * by done.
      destruct (rev (drop i xs)) as [|z r] eqn:Hrev.
      { apply (f_equal length) in Hrev. rewrite length_rev, Hlen2 in Hrev. simpl in Hrev. lia. }
      assert (Hdrop : drop i xs = rev r ++ [z]).
      { rewrite <- (rev_involutive (drop i xs)), Hrev. done. }
      assert (Hxs : xs = take i xs ++ rev r ++ [z]).
      { rewrite <- Hdrop. by rewrite take_drop. }
      opose proof (Emplace_in_capacity h vm t this b cap (take i xs) (rev r) z arg v _ _ Hmax _
                     Hsrc Hali _) as (h' & Hres & Hb').
      * by rewrite <- Hxs.
      * rewrite <- Hxs. lia.
      * by rewrite <- Hxs.
      * by rewrite rev_involutive.
      * rewrite <- Hxs, Hlen1, rev_involutive in Hres. rewrite Hres.
        cbn [fst snd vecs heap trace]. split; [|split; [|by rewrite decide_False]].
        -- unfold position. cbn [vecs]. rewrite lookup_insert_eq.
           cbn [data_ GetAddress buffer_ ptr_add]. by rewrite N.add_0_l.
        -- rewrite Hdrop. eapply vector_view_intro_ptr; cbn [vecs heap]; try done.
           ++ rewrite lookup_insert_eq. do 2 f_equal.
              rewrite length_app. simpl. rewrite <- Hdrop, Hlen1, Hlen2. lia.
           ++ rewrite length_app. simpl. rewrite <- Hdrop, Hlen1, Hlen2. lia.
Qed.

End EmplaceSpec.

Section MoveProofs.

Context {E : Elem}.

Implicit Types (s : state) (h : gmap block (list (slot T))).
Implicit Types (vm : gmap loc Vector) (t : list (event T Args)).
Implicit Types (l pre post spre spost : list (slot T)) (xs ys ws ds done : list T).

(** [Vector::Swap] exchanges two objects and nothing else. *)
Lemma Swap_ok h vm t this other a b :
  vm !! this = Some a → vm !! other = Some b → this ≠ other →
  Swap this other (mkState h vm t)
  = (Ok tt, mkState h (<[other := a]> (<[this := b]> vm)) t).
Proof.
  intros Ha Hb Hne. unfold Swap.
  erewrite bind_ok; [|by apply get_vec_ok].
  erewrite bind_ok; [|by apply get_vec_ok].
  destruct a as [da na], b as [db nb]. cbn [RawMemory_Swap data_ size_].
  erewrite bind_ok; [|by eapply set_data_ok].
  erewrite bind_ok; [|by eapply set_data_ok; rewrite lookup_insert_ne].
  erewrite bind_ok; [|by eapply get_vec_ok; rewrite lookup_insert_ne, lookup_insert_eq].
  erewrite bind_ok; [|by eapply get_vec_ok; rewrite lookup_insert_eq].
  erewrite bind_ok;
    [|by eapply set_size_ok; rewrite lookup_insert_ne, lookup_insert_eq].
  erewrite set_size_ok; [|by rewrite lookup_insert_ne, lookup_insert_eq].
  cbn [data_ size_]. do 2 f_equal.
  destruct da as [ba ca], db as [bb cb]. cbn [buffer_ capacity_].
  apply map_eq. intros k.
  destruct (decide (k = other)) as [->|]; [by rewrite !lookup_insert_eq|].
  rewrite !(lookup_insert_ne _ other) by done.
  destruct (decide (k = this)) as [->|]; [by rewrite !lookup_insert_eq|].
  by rewrite !lookup_insert_ne.
Qed.

Lemma Swap_self h vm t this a :
  vm !! this = Some a → Swap this this (mkState h vm t) = (Ok tt, mkState h vm t).
Proof.
  intros Ha. unfold Swap.
  erewrite bind_ok; [|by apply get_vec_ok].
  erewrite bind_ok; [|by apply get_vec_ok].
  destruct a as [[buf c] n]. cbn [RawMemory_Swap data_ size_ buffer_ capacity_].
  erewrite bind_ok; [|by eapply set_data_ok].
  erewrite bind_ok; [|by eapply set_data_ok; rewrite lookup_insert_eq].
  erewrite bind_ok; [|by eapply get_vec_ok; rewrite lookup_insert_eq].
  erewrite bind_ok; [|by eapply get_vec_ok; rewrite lookup_insert_eq].
  erewrite bind_ok; [|by eapply set_size_ok; rewrite lookup_insert_eq].
  erewrite set_size_ok; [|by rewrite lookup_insert_eq].
  cbn [data_ size_]. rewrite !insert_insert_eq. by rewrite insert_id.
Qed.

(** The view of a vector depends on its record and on the store only. *)
Lemma vector_view_ext s s' this that :
  vecs s' !! this = vecs s !! that → heap s' = heap s →
  vector_view s' this = vector_view s that.
Proof. intros Hv Hh. unfold vector_view. by rewrite Hv, Hh. Qed.


Lemma self_assign_spec s this :
  Vector_copy_assign this this s = (Ok tt, s) ∧
  Vector_move_assign this this s = (Ok tt, s).
Proof.
  unfold Vector_copy_assign, Vector_move_assign.
  by rewrite !decide_False by (by intros []).
Qed.

End MoveProofs.

Section CopyAssignProofs.

Context {E : Elem}.

Implicit Types (s : state) (h : gmap block (list (slot T))).
Implicit Types (vm : gmap loc Vector) (t : list (event T Args)).
Implicit Types (l pre post spre spost : list (slot T)) (xs ys ws ds done : list T).

Lemma std_copy_across h vm t bs bd (n : N) post spost ds ws :
  bs ≠ bd → length ds = length ws → N.to_nat n = length ws →
  (n < size_t_modulus)%N →
  h !! bs = Some ((Live <$> ws) ++ spost) →
  h !! bd = Some ((Live <$> ds) ++ post) →
  if quiet t (zip_with OpCopyAssign ds ws)
  then std_copy (Ptr bs 0) (ptr_add (Ptr bs 0) n) (Ptr bd 0) (mkState h vm t)
       = (Ok tt, mkState (<[bd := (Live <$> ws) ++ post]> h) vm
                   (t ++ oks (zip_with OpCopyAssign ds ws)))
  else ∃ h' t', std_copy (Ptr bs 0) (ptr_add (Ptr bs 0) n) (Ptr bd 0) (mkState h vm t)
       = (Throw ElemFailure, mkState h' vm t').
Proof.
  intros Hne Hlen Hn Hlt Hs Hd. unfold std_copy. cbn [ptr_add]. rewrite N.add_0_l.
  rewrite distance_same_block by lia. cbn [lift_opt].
  erewrite bind_ok; [|reflexivity]. rewrite N.sub_0_r, Hn.
  pose proof (copy_loop_across vm bs bd post spost ws ds [] [] h t 0 0 Hne Hlen Hs eq_refl Hd eq_refl)
    as H.
  destruct (quiet t _); [done|].
  destruct H as (zs & t' & H & _). by eexists _, _.
Qed.

(** Copy assignment into storage that is large enough. *)
Lemma copy_assign_reuse h vm t this rhs b br cx cy xs ys :
  this ≠ rhs → b ≠ br →
  vm !! this = Some (mkVector (mkRawMemory (Ptr b 0) cx) (N.of_nat (length xs))) →
  vm !! rhs = Some (mkVector (mkRawMemory (Ptr br 0) cy) (N.of_nat (length ys))) →
  (N.of_nat (length xs) ≤ cx)%N → (N.of_nat (length ys) ≤ cx)%N → (cx ≤ max_slots)%N →
  (N.of_nat (length ys) ≤ cy)%N →
  h !! b = Some (slots_of xs cx) → h !! br = Some (slots_of ys cy) →
  let ops := zip_with OpCopyAssign xs ys ++ (OpCopy <$> drop (length xs) ys) in
  if quiet t ops
  then Vector_copy_assign this rhs (mkState h vm t)
       = (Ok tt, mkState (<[b := slots_of ys cx]> h)
                   (<[this := mkVector (mkRawMemory (Ptr b 0) cx) (N.of_nat (length ys))]> vm)
                   (t ++ oks ops ++ destroys (drop (length ys) xs)))
  else ∃ h' t', Vector_copy_assign this rhs (mkState h vm t)
       = (Throw ElemFailure, mkState h' vm t').
Proof.
  intros Hne Hbb Hthis Hrhs Hxs Hys Hmax Hycy Hb Hbr ops.
  pose proof max_slots_lt_modulus as Hmod.
  unfold Vector_copy_assign. rewrite decide_True by done.
  erewrite bind_ok; [|by apply get_vec_ok]. erewrite bind_ok; [|by apply get_vec_ok].
  cbn [data_ size_ capacity_ GetAddress buffer_].
  destruct (N.ltb_spec cx (N.of_nat (length ys))) as [|_]; [lia|].
  destruct (N.ltb_spec (N.of_nat (length ys)) (N.of_nat (length xs))) as [Hlt|Hge].
  - (* the source is shorter *)
    assert (Hdrop : drop (length xs) ys = []) by (apply drop_ge; lia).
    unfold ops. rewrite Hdrop, fmap_nil, app_nil_r.
    assert (Hzip : zip_with (@OpCopyAssign T Args) xs ys
                   = zip_with OpCopyAssign (take (length ys) xs) ys).
    { clear. revert ys. induction xs as [|x xs IH]; intros [|y ys]; simpl; try done.
      by rewrite <- IH. }
    rewrite Hzip.
    opose proof (std_copy_across h vm t br b (N.of_nat (length ys))
                   ((Live <$> drop (length ys) xs) ++ replicate (N.to_nat cx - length xs) Raw)
                   (replicate (N.to_nat cy - length ys) Raw)
                   (take (length ys) xs) ys (not_eq_sym Hbb) _ _ _ Hbr _) as H; try lia.
    { rewrite length_take. lia. }
    { rewrite Hb. unfold slots_of. rewrite <- (take_drop (length ys) xs) at 1.
      rewrite fmap_app, <- app_assoc. done. }
    destruct (quiet t _).
    + erewrite bind_ok; cycle 1.
      { erewrite bind_ok; [|exact H].
        cbn [ptr_add]. rewrite N.add_0_l. rewrite size_sub_small by lia.
        eapply (destroy_n_ok (drop (length ys) xs) _ _ _ _ _ (Live <$> ys)).
        - by rewrite lookup_insert_eq.
        - rewrite length_fmap. lia.
        - rewrite length_drop. lia. }
      erewrite set_size_ok; [|done]. cbn [data_].
      rewrite insert_insert_eq. rewrite <- (app_assoc t). fold (destroys (drop (length ys) xs)).
      replace (replicate (length (drop (length ys) xs)) Raw ++
               replicate (N.to_nat cx - length xs) Raw)
        with (replicate (N.to_nat cx - length ys) (@Raw T)); [done|].
      rewrite <- replicate_add. f_equal. rewrite length_drop. lia.
    + destruct H as (h' & t' & H). exists h', t'.
      erewrite bind_throw; [done|]. by erewrite bind_throw.
  - (* the source is at least as long *)
    assert (Hdrop : drop (length ys) xs = []) by (apply drop_ge; lia).
    rewrite Hdrop. unfold destroys at 1. rewrite fmap_nil, app_nil_r.
    assert (Hzip : zip_with (@OpCopyAssign T Args) xs ys
                   = zip_with OpCopyAssign xs (take (length xs) ys)).
    { clear. revert ys. induction xs as [|x xs IH]; intros [|y ys]; simpl; try done.
      by rewrite <- IH. }
    unfold ops. rewrite quiet_app, oks_app, Hzip.
    set (ys1 := take (length xs) ys) in *. set (ys2 := drop (length xs) ys) in *.
    assert (Hl1 : length ys1 = length xs) by (unfold ys1; rewrite length_take; lia).
    assert (Hl2 : length ys2 = length ys - length xs) by (unfold ys2; by rewrite length_drop).
    assert (Hys12 : ys = ys1 ++ ys2) by (unfold ys1, ys2; by rewrite take_drop).
    opose proof (std_copy_across h vm t br b (N.of_nat (length xs))
                   (replicate (N.to_nat cx - length xs) Raw)
                   ((Live <$> ys2) ++ replicate (N.to_nat cy - length ys) Raw)
                   xs ys1 (not_eq_sym Hbb) _ _ _ _ Hb) as H; try lia.
    { rewrite Hbr. unfold slots_of. rewrite Hys12 at 1. by rewrite fmap_app, <- app_assoc. }
    destruct (quiet t _); cbn [andb].
    + set (h1 := <[b := (Live <$> ys1) ++ replicate (N.to_nat cx - length xs) Raw]> h) in *.
      set (t1 := t ++ oks (zip_with OpCopyAssign xs ys1)) in *.
      opose proof (uninitialized_copy_n_spec h1 vm t1 br b (N.of_nat (length xs))
                     (N.of_nat (length xs)) (N.of_nat (length ys) - N.of_nat (length xs))
                     (Live <$> ys1) (replicate (N.to_nat cx - length ys) Raw)
                     (Live <$> ys1) (replicate (N.to_nat cy - length ys) Raw)
                     ys2 (not_eq_sym Hbb) _ _ _ _ _ _) as H2.
      { unfold h1. rewrite lookup_insert_ne by done. rewrite Hbr. unfold slots_of.
        rewrite Hys12 at 1. by rewrite fmap_app, <- app_assoc. }
      { rewrite length_fmap. lia. }
      { unfold h1. rewrite lookup_insert_eq. do 2 f_equal. rewrite <- replicate_add.
        f_equal. lia. }
      { rewrite length_fmap. lia. }
      { lia. }
      { lia. }
      destruct (quiet t1 _).
      * erewrite bind_ok; cycle 1.
        { erewrite bind_ok; [|exact H].
          cbn [ptr_add]. rewrite !N.add_0_l. rewrite size_sub_small by lia. exact H2. }
        erewrite set_size_ok; [|done]. cbn [data_].
        unfold h1, t1. rewrite insert_insert_eq. rewrite <- (app_assoc t).
        unfold slots_of. rewrite (app_assoc (Live <$> ys1)), <- fmap_app, <- Hys12. done.
      * destruct H2 as (t' & H2). exists h1, t'.
        erewrite bind_throw; [done|]. erewrite bind_ok; [|exact H].
        cbn [ptr_add]. rewrite !N.add_0_l. rewrite size_sub_small by lia. exact H2.
    + destruct H as (h' & t' & H). exists h', t'.
      erewrite bind_throw; [done|]. by erewrite bind_throw.
Qed.

(** Copy assignment of a source that does not fit: copy, swap, destroy. *)
Lemma copy_assign_realloc h vm t this rhs bufa br cx cy xs ys :
  this ≠ rhs →
  vm !! this = Some (mkVector (mkRawMemory bufa cx) (N.of_nat (length xs))) →
  vm !! rhs = Some (mkVector (mkRawMemory (Ptr br 0) cy) (N.of_nat (length ys))) →
  (cx < N.of_nat (length ys))%N → (N.of_nat (length ys) ≤ cy)%N → (cy ≤ max_slots)%N →
  h !! br = Some (slots_of ys cy) →
  match bufa with
  | Null => xs = []
  | Ptr b off => off = 0%N ∧ b ≠ br ∧ h !! b = Some (slots_of xs cx)
  end →
  let n := N.of_nat (length ys) in
  let b' := fresh (dom h) in
  let ops := OpAlloc n :: (OpCopy <$> ys) in
  if quiet t ops
  then ∃ h', Vector_copy_assign this rhs (mkState h vm t)
             = (Ok tt, mkState h' (<[this := mkVector (mkRawMemory (Ptr b' 0) n) n]> vm)
                         (t ++ oks ops ++ destroys xs)) ∧
             h' !! b' = Some (slots_of ys n) ∧ h' !! br = Some (slots_of ys cy)
  else ∃ e t', Vector_copy_assign this rhs (mkState h vm t)
               = (Throw e, mkState h vm t').
Proof.
  intros Hne Hthis Hrhs Hlt Hycy Hmax Hbr Hbufa n b' ops.
  pose proof max_slots_lt_modulus as Hmod.
  assert (Hb' : h !! b' = None) by apply fresh_block_None.
  assert (Hbrb' : br ≠ b') by congruence.
  set (copy := fresh (dom vm)).
  assert (Hcopy : vm !! copy = None) by (apply not_elem_of_dom, is_fresh).
  assert (Hcthis : this ≠ copy) by congruence.
  assert (Hcrhs : rhs ≠ copy) by congruence.
  assert (Hnn : N.to_nat n = length ys) by (unfold n; lia).
  unfold Vector_copy_assign. rewrite decide_True by done.
  erewrite bind_ok; [|by apply get_vec_ok]. erewrite bind_ok; [|by apply get_vec_ok].
  cbn [data_ size_ capacity_ GetAddress buffer_]. fold n.
  destruct (N.ltb_spec cx n) as [_|]; [|lia].
  erewrite bind_ok; [|reflexivity]. cbn [vecs]. fold copy.
  unfold ops. cbn [quiet].
  destruct (throws t (OpAlloc n)) eqn:Ha; cbn [negb andb].
  { exists BadAlloc. eexists.
    erewrite bind_throw; [done|]. unfold Vector_copy_ctor.
    erewrite bind_ok; [|by apply get_vec_ok]. cbn [size_]. fold n.
    erewrite bind_throw; [done|]. unfold RawMemory_ctor.
    erewrite bind_throw; [done|]. apply Allocate_fail; [lia|]. by rewrite Ha, orb_true_r. }
  set (t1 := t ++ [(OpAlloc n, false)]).
  set (h1 := <[b' := replicate (N.to_nat n) Raw]> h).
  opose proof (uninitialized_copy_n_spec h1 vm t1 br b' 0 0 n [] [] []
                 (replicate (N.to_nat cy - length ys) Raw) ys Hbrb' _ eq_refl _ eq_refl Hnn _) as Hc.
  { unfold h1. by rewrite lookup_insert_ne. }
  { unfold h1. rewrite lookup_insert_eq, Hnn. by rewrite app_nil_r. }
  { lia. }
  destruct (quiet t1 (OpCopy <$> ys)) eqn:Hq.
  - assert (Hctor : Vector_copy_ctor copy rhs (mkState h vm t)
      = (Ok tt, mkState (<[b' := Live <$> ys]> h)
                  (<[copy := mkVector (mkRawMemory (Ptr b' 0) n) n]> vm)
                  (t1 ++ oks (OpCopy <$> ys)))).
    { unfold Vector_copy_ctor.
      erewrite bind_ok; [|by apply get_vec_ok]. cbn [size_ data_ GetAddress buffer_]. fold n.
      erewrite bind_ok; cycle 1.
      { unfold RawMemory_ctor. erewrite bind_ok; [done|]. apply Allocate_ok; [lia|lia|done]. }
      fold b' h1 t1. cbn [GetAddress buffer_].
      erewrite bind_ok; [|by apply on_unwind_ok].
      rewrite put_vec_ok. unfold h1. rewrite insert_insert_eq. cbn [app].
      by rewrite app_nil_r. }
    erewrite bind_ok; [|exact Hctor]. clear Hctor.
    set (rec := mkVector (mkRawMemory (Ptr b' 0) n) n).
    erewrite bind_ok; cycle 1.
    { eapply Swap_ok; [by rewrite lookup_insert_ne|by rewrite lookup_insert_eq|done]. }
    unfold Vector_dtor.
    erewrite bind_ok; [|by apply get_vec_ok, lookup_insert_eq].
    cbn [data_ size_ GetAddress buffer_].
    assert (Hvm : delete copy (<[copy := mkVector (mkRawMemory bufa cx) (N.of_nat (length xs))]>
                                (<[this := rec]> (<[copy := rec]> vm)))
                  = <[this := rec]> vm).
    { rewrite delete_insert_eq. rewrite delete_insert_ne by done.
      rewrite delete_insert_eq. by rewrite delete_id. }
    destruct bufa as [|b off].
    + subst xs. cbn [length N.of_nat] in Hvm. cbn [length N.of_nat destroy_n N.to_nat destroy_loop].
      erewrite bind_ok; [|reflexivity].
      unfold RawMemory_dtor. cbn [buffer_ Deallocate].
      erewrite bind_ok; [|reflexivity].
      unfold del_vec, set_vecs. cbn [heap vecs trace]. rewrite Hvm.
      eexists. split; [|split].
      * unfold destroys. rewrite fmap_nil, app_nil_r. unfold t1.
        rewrite <- app_assoc. reflexivity.
      * rewrite lookup_insert_eq. unfold slots_of. rewrite Hnn, Nat.sub_diag.
        by rewrite app_nil_r.
      * by rewrite lookup_insert_ne.
    + destruct Hbufa as (-> & Hbbr & Hb).
      assert (Hbb' : b ≠ b') by congruence.
      erewrite bind_ok; cycle 1.
      { eapply (destroy_n_ok xs _ _ _ _ _ []).
        - rewrite lookup_insert_ne by done. exact Hb.
        - done.
        - lia. }
      unfold RawMemory_dtor. cbn [buffer_].
      erewrite bind_ok; [|by eapply Deallocate_ok, lookup_insert_eq].
      unfold del_vec, set_vecs. cbn [heap vecs trace]. rewrite Hvm.
      eexists. split; [|split].
      * unfold t1. rewrite <- !app_assoc. reflexivity.
      * rewrite lookup_delete_ne by done. rewrite lookup_insert_ne by done.
        rewrite lookup_insert_eq. unfold slots_of. rewrite Hnn, Nat.sub_diag.
        by rewrite app_nil_r.
      * rewrite lookup_delete_ne by done. by rewrite !lookup_insert_ne.
  - destruct Hc as (t' & Hc). exists ElemFailure, t'.
    erewrite bind_throw; [done|]. unfold Vector_copy_ctor.
    erewrite bind_ok; [|by apply get_vec_ok]. cbn [size_ data_ GetAddress buffer_]. fold n.
    erewrite bind_ok; cycle 1.
    { unfold RawMemory_ctor. erewrite bind_ok; [done|]. apply Allocate_ok; [lia|lia|done]. }
    fold b' h1 t1. cbn [GetAddress buffer_].
    erewrite bind_throw; [done|].
    eapply on_unwind_throw; [exact Hc|].
    unfold RawMemory_dtor. cbn [buffer_].
    erewrite Deallocate_ok; [|by apply lookup_insert_eq].
    unfold h1. by rewrite delete_insert_id.
Qed.

(** Copy assignment from a vector without storage. *)
Lemma copy_assign_from_null h vm t this rhs b cx xs :
  this ≠ rhs →
  vm !! this = Some (mkVector (mkRawMemory (Ptr b 0) cx) (N.of_nat (length xs))) →
  vm !! rhs = Some (mkVector (mkRawMemory Null 0) 0) →
  (N.of_nat (length xs) ≤ cx)%N → (cx ≤ max_slots)%N →
  h !! b = Some (slots_of xs cx) →
  Vector_copy_assign this rhs (mkState h vm t)
  = (Ok tt, mkState (<[b := slots_of [] cx]> h)
              (<[this := mkVector (mkRawMemory (Ptr b 0) cx) 0]> vm)
              (t ++ destroys xs)).
Proof.
  intros Hne Hthis Hrhs Hxs Hmax Hb.
  pose proof max_slots_lt_modulus as Hmod.
  unfold Vector_copy_assign. rewrite decide_True by done.
  erewrite bind_ok; [|by apply get_vec_ok]. erewrite bind_ok; [|by apply get_vec_ok].
  cbn [data_ size_ capacity_ GetAddress buffer_ ptr_add].
  destruct (N.ltb_spec cx 0) as [|_]; [lia|].
  assert (Hcopy0 : ∀ d st, std_copy Null Null d st = (Ok tt, st)) by done.
  destruct (N.ltb_spec 0 (N.of_nat (length xs))) as [Hlt|Hge].
  - erewrite bind_ok; cycle 1.
    { erewrite bind_ok; [|apply Hcopy0].
      rewrite N.add_0_l. rewrite size_sub_small by lia. rewrite N.sub_0_r.
      eapply (destroy_n_ok xs _ _ _ _ _ []); [exact Hb|done|lia]. }
    erewrite set_size_ok; [|done]. cbn [data_]. do 3 f_equal.
    unfold slots_of. simpl. rewrite <- replicate_add. f_equal. lia.
  - assert (xs = []) as -> by (destruct xs; [done|simpl in Hge; lia]).
    erewrite bind_ok; cycle 1.
    { erewrite bind_ok; [|apply Hcopy0]. reflexivity. }
    erewrite set_size_ok; [|done]. cbn [data_ length N.of_nat].
    unfold destroys. rewrite fmap_nil, app_nil_r. by rewrite (insert_id h).
Qed.

(** Copy assignment to a vector without storage. *)
Lemma copy_assign_to_null h vm t this rhs bufr cy :
  this ≠ rhs →
  vm !! this = Some (mkVector (mkRawMemory Null 0) 0) →
  vm !! rhs = Some (mkVector (mkRawMemory bufr cy) 0) →
  match bufr with Null => True | Ptr _ off => off = 0%N end →
  Vector_copy_assign this rhs (mkState h vm t) = (Ok tt, mkState h vm t).
Proof.
  intros Hne Hthis Hrhs Hbufr.
  unfold Vector_copy_assign. rewrite decide_True by done.
  erewrite bind_ok; [|by apply get_vec_ok]. erewrite bind_ok; [|by apply get_vec_ok].
  cbn [data_ size_ capacity_ GetAddress buffer_ ptr_add N.ltb N.compare].
  erewrite bind_ok; cycle 1.
  { erewrite bind_ok; [reflexivity|].
    destruct bufr as [|br off]; [done|]. subst off. unfold std_copy. cbn [ptr_add].
    rewrite distance_same_block by done. reflexivity. }
  erewrite set_size_ok; [|done]. cbn [data_]. by rewrite insert_id.
Qed.

(** A vector is read off its record and its own block only. *)
Lemma vector_view_frame s s' r :
  vecs s' !! r = vecs s !! r →
  (∀ b, owned_block s r = Some b → heap s' !! b = heap s !! b) →
  vector_view s' r = vector_view s r.
Proof.
  intros Hv Hh. unfold vector_view, owned_block in *. rewrite Hv.
  destruct (vecs s !! r) as [[[buf c] n]|]; [|done].
  unfold buffer_view. cbn [data_ buffer_ capacity_ size_] in *.
  destruct buf as [|b off]; [done|]. by rewrite (Hh b).
Qed.

Lemma storage_disjoint_blocks s this rhs b br :
  storage_disjoint s this rhs = true →
  owned_block s this = Some b → owned_block s rhs = Some br → b ≠ br.
Proof.
  intros H Ha Hb. unfold storage_disjoint in H. rewrite Ha, Hb in H.
  intros ->. by rewrite Pos.eqb_refl in H.
Qed.

Lemma zip_with_nil_r {A B C} (f : A → B → C) (l : list A) : zip_with f l [] = [].
Proof. by destruct l. Qed.

(** Copy assignment between two distinct vectors, read off the vectors. *)
Lemma Copy_assign_spec s this rhs xs cx ys cy :
  this ≠ rhs →
  vector_view s this = Some (xs, cx) →
  vector_view s rhs = Some (ys, cy) →
  storage_disjoint s this rhs = true →
  let ops := copy_assign_ops xs cx ys in
  let realloc := (cx <? N.of_nat (length ys))%N in
  let res := Vector_copy_assign this rhs s in
  if quiet (trace s) ops
  then res.1 = Ok tt ∧
       vector_view res.2 this = Some (ys, if realloc then N.of_nat (length ys) else cx) ∧
       vector_view res.2 rhs = Some (ys, cy) ∧
       storage_disjoint res.2 this rhs = true ∧
       owned_block res.2 this
         = (if realloc then Some (fresh (dom (heap s))) else owned_block s this) ∧
       trace res.2 = trace s ++ oks ops ++ copy_assign_cleanup xs cx ys
  else ∃ e, res.1 = Throw e ∧
            (realloc = true → heap res.2 = heap s ∧ vecs res.2 = vecs s).
Proof.
  destruct s as [h vm t]. intros Hne Hvthis Hvrhs Hdis ops realloc res.
  subst ops realloc res. unfold copy_assign_ops, copy_assign_cleanup. cbn [heap vecs trace].
  pose proof max_slots_lt_modulus as Hmod.
  pose proof Hvthis as (bufa & Hthis & Hxs & Hcx & Hbufa)%vector_view_inv.
  pose proof Hvrhs as (bufr & Hrhs & Hys & Hcy & Hbufr)%vector_view_inv.
  cbn [heap vecs] in *.
  assert (Hoa : owned_block (mkState h vm t) this
                = match bufa with Ptr b _ => Some b | Null => None end).
  { unfold owned_block. cbn [vecs]. by rewrite Hthis. }
  assert (Hor : owned_block (mkState h vm t) rhs
                = match bufr with Ptr b _ => Some b | Null => None end).
  { unfold owned_block. cbn [vecs]. by rewrite Hrhs. }
  (* what remains to be shown once the run is known *)
  assert (Hfin : ∀ h' b' cx' t',
    h' !! b' = Some (slots_of ys cx') → (N.of_nat (length ys) ≤ cx')%N → (cx' ≤ max_slots)%N →
    cx' ≠ 0%N →
    (∀ br, owned_block (mkState h vm t) rhs = Some br → br ≠ b' ∧ h' !! br = h !! br) →
    let s' := mkState h' (<[this := mkVector (mkRawMemory (Ptr b' 0) cx') (N.of_nat (length ys))]> vm) t' in
    vector_view s' this = Some (ys, cx') ∧ vector_view s' rhs = Some (ys, cy) ∧
    storage_disjoint s' this rhs = true ∧ owned_block s' this = Some b').
  { intros h' b' cx' t' Hb' Hle Hmax Hne0 Hfr s'. subst s'.
    split; [|split; [|split]].
    - eapply vector_view_intro_ptr; cbn [vecs heap]; try done. apply lookup_insert_eq.
    - rewrite <- Hvrhs. apply vector_view_frame; [by cbn [vecs]; rewrite lookup_insert_ne|].
      intros br Hbr. by apply Hfr.
    - unfold storage_disjoint, owned_block. cbn [vecs].
      rewrite lookup_insert_eq, lookup_insert_ne, Hrhs by done. cbn [data_ buffer_].
      destruct bufr as [|br off]; [done|]. apply negb_true_iff, Pos.eqb_neq.
      destruct (Hfr br) as [? _]; [by rewrite Hor|]. done.
    - unfold owned_block. cbn [vecs]. by rewrite lookup_insert_eq. }
  destruct (N.ltb_spec cx (N.of_nat (length ys))) as [Hlt|Hge].
  - (* the source does not fit *)
    destruct bufr as [|br off]; [lia|]. destruct Hbufr as (-> & Hcy0 & Hbr).
    opose proof (copy_assign_realloc h vm t this rhs bufa br cx cy xs ys Hne Hthis Hrhs Hlt
                   Hys Hcy Hbr _) as H.
    { destruct bufa as [|b off]; [subst cx; destruct xs; [done|simpl in Hxs; lia]|].
      destruct Hbufa as (-> & _ & Hb). split; [done|]. split; [|done].
      eapply storage_disjoint_blocks; [exact Hdis|by rewrite Hoa|by rewrite Hor]. }
    cbv zeta in H. destruct (quiet t _).
    + destruct H as (h' & -> & Hb' & Hbr'). cbn [fst snd trace].
      opose proof (Hfin h' (fresh (dom h)) (N.of_nat (length ys)) _ Hb' _ _ _ _) as Hf;
        [lia|lia|lia| |].
      { rewrite Hor. intros ? [= <-]. split; [|by rewrite Hbr'].
        intros ->. by rewrite fresh_block_None in Hbr. }
      cbv zeta in Hf. destruct Hf as (? & ? & ? & ?). done.
    + destruct H as (e & t' & ->). exists e. done.
  - (* the source fits *)
    destruct bufa as [|b offa].
    + (* nothing to assign to *)
      subst cx. assert (ys = []) as -> by (destruct ys; [done|simpl in Hge; lia]).
      assert (xs = []) as -> by (destruct xs; [done|simpl in Hxs; lia]).
      cbn [zip_with drop fmap list_fmap app quiet length N.of_nat].
      opose proof (copy_assign_to_null h vm t this rhs bufr cy Hne Hthis Hrhs _) as H.
      { destruct bufr; [done|]. by destruct Hbufr. }
      rewrite H. cbn [fst snd trace]. rewrite Hoa.
      split; [done|]. split; [done|]. split; [done|]. split; [done|]. split; [done|].
      by rewrite app_nil_r.
    + destruct Hbufa as (-> & Hcx0 & Hb).
      destruct bufr as [|br offr].
      * (* nothing to assign from *)
        subst cy. assert (ys = []) as -> by (destruct ys; [done|simpl in Hys; lia]).
        rewrite zip_with_nil_r, drop_nil, fmap_nil.
        cbn [drop app quiet length N.of_nat oks fmap list_fmap].
        rewrite (copy_assign_from_null h vm t this rhs b cx xs Hne Hthis Hrhs Hxs Hcx Hb).
        cbn [fst snd trace].
        opose proof (Hfin (<[b := slots_of [] cx]> h) b cx (t ++ destroys xs) _ _ Hcx Hcx0 _) as Hf.
        { by rewrite lookup_insert_eq. } { simpl. lia. } { by rewrite Hor. }
        cbv zeta in Hf. destruct Hf as (? & ? & ? & ?). rewrite Hoa. done.
      * destruct Hbufr as (-> & Hcy0 & Hbr).
        assert (Hbbr : b ≠ br).
        { eapply storage_disjoint_blocks; [exact Hdis|by rewrite Hoa|by rewrite Hor]. }
        pose proof (copy_assign_reuse h vm t this rhs b br cx cy xs ys Hne Hbbr Hthis Hrhs
                      Hxs Hge Hcx Hys Hb Hbr) as H.
        cbv zeta in H. destruct (quiet t _).
        -- rewrite H. cbn [fst snd trace].
           opose proof (Hfin (<[b := slots_of ys cx]> h) b cx _ _ Hge Hcx Hcx0 _) as Hf.
           { by rewrite lookup_insert_eq. }
           { rewrite Hor. intros ? [= <-]. split; [done|]. by rewrite lookup_insert_ne. }
           cbv zeta in Hf. destruct Hf as (? & ? & ? & ?). rewrite Hoa. done.
        -- destruct H as (h' & t' & ->). exists ElemFailure. done.
Qed.

End CopyAssignProofs.

Section GrowthProofs.

Context {E : Elem}.

Implicit Types (s : state) (h : gmap block (list (slot T))).
Implicit Types (vm : gmap loc Vector) (t : list (event T Args)).
Implicit Types (l pre post spre spost : list (slot T)) (xs ys ws ds done : list T).





(** Writing through a position of one vector leaves a vector with other
    storage as it is. *)
Lemma store_frame s s' a r i (x : slot T) :
  storage_disjoint s a r = true →
  store (position s a i) x s = (Ok tt, s') →
  vector_view s' r = vector_view s r ∧ storage_disjoint s' a r = true.
Proof.
  intros Hdis Hstore. unfold position, store in Hstore.
  destruct (vecs s !! a) as [va|] eqn:Ha; [|done].
  destruct (GetAddress (data_ va)) as [|b off] eqn:Hbuf; [done|]. cbn [ptr_add] in Hstore.
  destruct (heap s !! b) as [l|] eqn:Hb; [|done].
  destruct (decide _); [|done]. injection Hstore as <-.
  split; [|done].
  apply vector_view_frame; [done|]. intros br Hbr. cbn [heap set_heap].
  rewrite lookup_insert_ne; [done|]. intros <-.
  unfold storage_disjoint in Hdis. rewrite Hbr in Hdis.
  unfold owned_block in Hdis at 1. rewrite Ha in Hdis. unfold GetAddress in Hbuf.
  rewrite Hbuf in Hdis. by rewrite Pos.eqb_refl in Hdis.
Qed.

End GrowthProofs.

Section Reading.

Context {E : Elem}.

Implicit Types (s : state) (h : gmap block (list (slot T))).
Implicit Types (vm : gmap loc Vector) (t : list (event T Args)).
Implicit Types (xs ys ws : list T).

(** What [begin() + i] points to in a well-formed vector: its [i]-th
    element, and nothing live from the size on. *)
Lemma view_live_at s this xs cap i :
  vector_view s this = Some (xs, cap) →
  live_at (heap s) (position s this i) = xs !! i.
Proof.
  intros (buf & Hvm & Hle & _ & Hbuf)%vector_view_inv. unfold position. rewrite Hvm.
  cbn [data_ GetAddress buffer_]. destruct buf as [|b off].
  - subst cap. destruct xs; [done|]. simpl in Hle. lia.
  - destruct Hbuf as (-> & _ & Hb). cbn [ptr_add live_at]. rewrite Hb, N.add_0_l, Nat2N.id.
    unfold slots_of. destruct (decide (i < length xs)) as [Hlt|Hge].
    + rewrite lookup_app_l by by rewrite length_fmap.
      rewrite list_lookup_fmap. by destruct (xs !! i).
    + rewrite (lookup_ge_None_2 xs) by lia.
      rewrite lookup_app_r by (rewrite length_fmap; lia).
      destruct (replicate _ _ !! _) as [x|] eqn:Hx; [|done].
      by apply lookup_replicate in Hx as [-> _].
Qed.

(** [PushBack] is [EmplaceBack] with the reference dropped. *)
Lemma PushBack_EmplaceBack s this arg :
  PushBack this arg s
  = (match (EmplaceBack this arg s).1 with
     | Ok _ => Ok tt
     | Throw e => Throw e
     | Undefined => Undefined
     end, (EmplaceBack this arg s).2).
Proof.
  unfold PushBack, bind. by destruct (EmplaceBack this arg s) as [[p|e|] s'].
Qed.

Lemma storage_disjoint_sym s a r :
  storage_disjoint s a r = storage_disjoint s r a.
Proof.
  unfold storage_disjoint. destruct (owned_block s a), (owned_block s r); try done.
  f_equal. apply Pos.eqb_sym.
Qed.

Lemma length_insert_at {A} (l : list A) (i : nat) (v : A) :
  i ≤ length l → length (take i l ++ v :: drop i l) = S (length l).
Proof.
  intros Hi. rewrite length_app, length_take. cbn [length]. rewrite length_drop. lia.
Qed.

Lemma lookup_insert_at {A} (l : list A) (i j : nat) (v y : A) :
  i ≤ length l → l !! j = Some y →
  (take i l ++ v :: drop i l) !! (if decide (j < i) then j else S j) = Some y.
Proof.
  intros Hi Hj. destruct (decide (j < i)) as [Hlt|Hge].
  - rewrite lookup_app_l by (rewrite length_take; lia). by rewrite lookup_take_lt.
  - rewrite lookup_app_r by (rewrite length_take; lia). rewrite length_take.
    replace (S j - i `min` length l) with (S (j - i)) by lia.
    change ((v :: drop i l) !! S (j - i)) with (drop i l !! (j - i)).
    rewrite lookup_drop. rewrite <- Hj. f_equal. lia.
Qed.

Lemma lookup_erase_at {A} (l : list A) (i j : nat) :
  i < length l →
  (take i l ++ drop (S i) l) !! j = l !! (if decide (j < i) then j else S j).
Proof.
  intros Hi. destruct (decide (j < i)) as [Hlt|Hge].
  - rewrite lookup_app_l by (rewrite length_take; lia). by rewrite lookup_take_lt.
  - rewrite lookup_app_r by (rewrite length_take; lia). rewrite length_take.
    rewrite lookup_drop. f_equal. lia.
Qed.

End Reading.

Section Properties.

Context {E : Elem}.

Implicit Types (s : state) (h : gmap block (list (slot T))).
Implicit Types (vm : gmap loc Vector) (t : list (event T Args)).
Implicit Types (xs ys ws : list T).


(** C3: [EmplaceBack] on a full vector, outcome by outcome. The new storage
    is asked for first and the new element is built next, before any old
    element is touched: when the allocation or that construction fails, the
    store and the vector are exactly as before. When nothing fails, the old
    elements are migrated (moved in move mode, copied otherwise), the old ones
    are destroyed, the vector has the old elements followed by the new one in
    the doubled capacity, and the returned reference is to the new last
    element. When a migration step fails, the failure propagates and the
    record of the vector is as before. [PushBack] is the same call. *)
Theorem emplace_back_reallocating s this xs cap arg v :
  vector_view s this = Some (xs, cap) →
  N.of_nat (length xs) = cap →
  arg_value s this arg = Some v →
  let cap' := N.max 1 (2 * cap) in
  let t1 := trace s ++ [(OpAlloc cap', false)] in
  let t2 := t1 ++ [(arg_op v arg, false)] in
  let res := EmplaceBack this arg s in
  (if (max_slots <? cap')%N || throws (trace s) (OpAlloc cap')
   then res = (Throw BadAlloc,
               mkState (heap s) (vecs s) (trace s ++ [(OpAlloc cap', true)]))
   else if throws t1 (arg_op v arg)
   then res = (Throw ElemFailure,
               mkState (heap s) (vecs s) (t1 ++ [(arg_op v arg, true)]))
   else if quiet t2 (migrate_ops xs)
   then ∃ p, res.1 = Ok p ∧
          vector_view res.2 this = Some (xs ++ [v], cap') ∧
          Vector_index this cap res.2 = (Ok p, res.2) ∧
          live_at (heap res.2) p = Some v ∧
          trace res.2 = t2 ++ oks (migrate_ops xs) ++ destroys (leftover xs)
   else res.1 = Throw ElemFailure ∧ vecs res.2 = vecs s ∧
        (move_mode = false → vector_view res.2 this = Some (xs, cap))) ∧
  PushBack this arg s
  = (match res.1 with Ok _ => Ok tt | Throw e => Throw e | Undefined => Undefined end,
     res.2).
Proof.
  intros Hview Hfull Hv cap' t1 t2 res.
  split; [|apply PushBack_EmplaceBack].
  exact (EmplaceBack_full_spec s this xs cap arg v Hview Hfull Hv).
Qed.


(** C6: an insertion at index [i] of a vector, [i] between 0 and the size,
    during which no allocation and no element operation fails, returns the
    position [begin() + i]; the new value is exactly there, every other
    element keeps its place relative to the others (the ones before [i] stay,
    the ones from [i] on are one further), and the size is one more. At
    [i = size] the call is [EmplaceBack]. [Insert] is [Emplace] with the
    value copied or moved in. *)
Theorem insert_places_value s this xs cap i arg v :
  vector_view s this = Some (xs, cap) →
  i ≤ length xs →
  arg_value s this arg = Some v →
  let cap' := if (N.of_nat (length xs) =? cap)%N then N.max 1 (2 * cap) else cap in
  (cap' ≤ max_slots)%N →
  quiet (trace s) (emplace_ops xs cap i v arg) = true →
  let res := Emplace this (position s this i) arg s in
  res.1 = Ok (position res.2 this i) ∧
  vector_view res.2 this = Some (take i xs ++ v :: drop i xs, cap') ∧
  live_at (heap res.2) (position res.2 this i) = Some v ∧
  (∀ j y, xs !! j = Some y →
     live_at (heap res.2) (position res.2 this (if decide (j < i) then j else S j)) = Some y) ∧
  Size this res.2 = (Ok (N.of_nat (length xs) + 1)%N, res.2) ∧
  (i = length xs → res = EmplaceBack this arg s) ∧
  (∀ pos p, Insert this pos p = Emplace this pos (ByCopy p) ∧
            Insert_rvalue this pos p = Emplace this pos (ByMove p)).
Proof.
  intros Hview Hi Hv cap' Hcap' Hq res.
  destruct (Emplace_spec s this xs cap i arg v Hview Hi Hv Hcap' Hq) as (Hres & Hview' & _).
  fold res in Hres, Hview'. fold cap' in Hview'.
  split; [done|]. split; [done|].
  split.
  { rewrite (view_live_at _ _ _ _ _ Hview').
    rewrite lookup_app_r by (rewrite length_take; lia).
    rewrite length_take. by replace (i - i `min` length xs) with 0 by lia. }
  split.
  { intros j y Hj. rewrite (view_live_at _ _ _ _ _ Hview'). by apply lookup_insert_at. }
  split.
  { rewrite (view_Size _ _ _ _ Hview'). rewrite length_insert_at by done.
    do 2 f_equal. lia. }
  split; [|done].
  intros ->. by eapply Emplace_at_end.
Qed.

(** C7: [Erase] at index [i] of a vector that has an element there. Each
    later element is assigned, by move in move mode and by copy otherwise,
    over the one before it; when none of these assignments fails, the last
    slot is destroyed, the vector is the old one without its [i]-th element
    in the same storage, the size is one less, and the returned iterator is
    the position [i], where the next element now is, or [end()] when the
    last element was removed. A failing assignment propagates. *)
Theorem erase_removes_one s this xs cap i x :
  vector_view s this = Some (xs, cap) →
  xs !! i = Some x →
  let ws := drop (S i) xs in
  let res := Erase this (position s this i) s in
  if quiet (trace s) (erase_ops x ws)
  then res.1 = Ok (position s this i) ∧
       position res.2 this i = position s this i ∧
       vector_view res.2 this = Some (take i xs ++ ws, cap) ∧
       (∀ j, live_at (heap res.2) (position res.2 this j)
             = if decide (length xs ≤ S j) then None
               else xs !! (if decide (j < i) then j else S j)) ∧
       Size this res.2 = (Ok (N.of_nat (length xs) - 1)%N, res.2) ∧
       (ws = [] → vend this res.2 = (Ok (position s this i), res.2)) ∧
       trace res.2 = trace s ++ oks (erase_ops x ws)
                             ++ [(OpDestroy (erase_residue x ws), false)]
  else res.1 = Throw ElemFailure.
Proof.
  intros Hview Hx ws res.
  pose proof (Erase_spec s this xs cap i x Hview Hx) as H. cbv zeta in H.
  fold ws res in H. destruct (quiet _ _); [|done].
  destruct H as (Hres & Hpos & Hview' & Htr).
  pose proof (lookup_lt_Some _ _ _ Hx) as Hlt.
  assert (Hlen : length (take i xs ++ ws) = length xs - 1).
  { subst ws. rewrite length_app, length_take, length_drop. lia. }
  do 3 (split; [done|]).
  split.
  { intros j. rewrite (view_live_at _ _ _ _ _ Hview'). destruct (decide _) as [Hj|Hj].
    - apply lookup_ge_None_2. lia.
    - subst ws. by apply lookup_erase_at. }
  split.
  { rewrite (view_Size _ _ _ _ Hview'), Hlen. do 2 f_equal. lia. }
  split; [|done].
  intros Hws. rewrite (view_vend _ _ _ _ Hview'). f_equal. f_equal.
  rewrite Hlen, <- Hpos. f_equal.
  subst ws. apply (f_equal length) in Hws. rewrite length_drop in Hws. simpl in Hws. lia.
Qed.

(** C8: copy assignment between two distinct vectors with separate storage.
    When the source has more elements than the target has capacity, a copy of
    the source is built in new storage of exactly the source's size and
    swapped in, and the old elements are destroyed; otherwise the target's
    storage is kept, the common prefix is copy-assigned, and the rest of the
    source is copy-constructed behind it or the rest of the target is
    destroyed. When nothing fails the target holds the source's elements,
    the source is as before, the two storages are separate, and a write
    through a position of either leaves the other as it is. A failure
    propagates, and on the reallocating path store and vectors are then as
    before. *)
Theorem copy_assign_independent_copy s this rhs xs cx ys cy :
  this ≠ rhs →
  vector_view s this = Some (xs, cx) →
  vector_view s rhs = Some (ys, cy) →
  storage_disjoint s this rhs = true →
  let ops := copy_assign_ops xs cx ys in
  let realloc := (cx <? N.of_nat (length ys))%N in
  let cx' := if realloc then N.of_nat (length ys) else cx in
  let res := Vector_copy_assign this rhs s in
  if quiet (trace s) ops
  then res.1 = Ok tt ∧
       vector_view res.2 this = Some (ys, cx') ∧
       vector_view res.2 rhs = Some (ys, cy) ∧
       owned_block res.2 this
         = (if realloc then Some (fresh (dom (heap s))) else owned_block s this) ∧
       storage_disjoint res.2 this rhs = true ∧
       (∀ i x s', store (position res.2 this i) x res.2 = (Ok tt, s') →
                  vector_view s' rhs = Some (ys, cy)) ∧
       (∀ i x s', store (position res.2 rhs i) x res.2 = (Ok tt, s') →
                  vector_view s' this = Some (ys, cx')) ∧
       trace res.2 = trace s ++ oks ops ++ copy_assign_cleanup xs cx ys
  else ∃ e, res.1 = Throw e ∧
            (realloc = true → heap res.2 = heap s ∧ vecs res.2 = vecs s).
Proof.
  intros Hne Hx Hy Hdis ops realloc cx' res.
  pose proof (Copy_assign_spec s this rhs xs cx ys cy Hne Hx Hy Hdis) as H. cbv zeta in H.
  fold ops realloc res in H. fold cx' in H. destruct (quiet _ _); [|done].
  destruct H as (Hres & Hx' & Hy' & Hdis' & Hown & Htr).
  do 5 (split; [done|]).
  split.
  { intros i x s' Hst. destruct (store_frame _ _ _ _ _ _ Hdis' Hst) as [-> _]. done. }
  split; [|done].
  intros i x s' Hst. rewrite storage_disjoint_sym in Hdis'.
  destruct (store_frame _ _ _ _ _ _ Hdis' Hst) as [-> _]. done.
Qed.


(** C10: assigning a vector to itself, by copy or by move, returns with the
    whole state as it was: the test [this != &rhs] fails and nothing else
    runs. *)
Theorem self_assignment_noop s this :
  Vector_copy_assign this this s = (Ok tt, s) ∧
  Vector_move_assign this this s = (Ok tt, s).
Proof. apply self_assign_spec. Qed.

End Properties.

Section UnluckyRuns.

#[local] Existing Instance unlucky_int.

(** C1: [Emplace] of 7 at index 1 of the full vector [13; 2], when copying
    13 throws. The first migration phase fails in the copy of 13; the handler
    destroys the new element and does not rethrow, so the second phase, the
    destruction of the old elements, the swap and the increment of the size
    all run: the call returns normally, the old storage is gone, and the
    vector has size 3 and capacity 4 over a block in which only slot 2 is
    live. When the copy that throws is in the second phase (the vector
    [2; 13]), the handler destroys the old elements and the destruction that
    follows destroys them again. *)
Theorem emplace_realloc_swallows_failure :
  let s := one_vector [13; 2]%Z 2 in
  let res := Emplace 1%positive (position s 1%positive 1) (ByArgs 7%Z) s in
  let s' := one_vector [2; 13]%Z 2 in
  vector_view s 1%positive = Some ([13; 2]%Z, 2%N) ∧
  emplace_ops [13; 2]%Z 2 1 7%Z (ByArgs 7%Z) = [OpAlloc 4; OpConstruct 7%Z; OpCopy 13%Z; OpCopy 2%Z] ∧
  res.1 = Ok (Ptr 2%positive 1) ∧
  trace res.2 = [(OpAlloc 4, false); (OpConstruct 7%Z, false); (OpCopy 13%Z, true);
                 (OpDestroy 7%Z, false); (OpCopy 2%Z, false);
                 (OpDestroy 13%Z, false); (OpDestroy 2%Z, false)] ∧
  heap res.2 = {[2%positive := [Raw; Raw; Live 2%Z; Raw]]} ∧
  vecs res.2 = {[1%positive := mkVector (mkRawMemory (Ptr 2%positive 0) 4) 3]} ∧
  (Emplace 1%positive (position s' 1%positive 1) (ByArgs 7%Z) s').1 = Undefined.
Proof. vm_compute. repeat split. Qed.

(** C5: [Emplace] of 7 at index 2 of the full vector [13; 2; 5], when
    copying 13 throws, returns normally and leaves a vector of size 4 and
    capacity 6 whose slots 0, 1 and 2 are not constructed: the state is not
    a well-formed vector any more, and [operator[]] at index 0 refers to
    raw storage. *)
Theorem emplace_realloc_breaks_invariant :
  let s := one_vector [13; 2; 5]%Z 3 in
  let res := Emplace 1%positive (position s 1%positive 2) (ByArgs 7%Z) s in
  vector_view s 1%positive = Some ([13; 2; 5]%Z, 3%N) ∧
  res.1 = Ok (Ptr 2%positive 2) ∧
  Size 1%positive res.2 = (Ok 4%N, res.2) ∧
  Capacity 1%positive res.2 = (Ok 6%N, res.2) ∧
  heap res.2 = {[2%positive := [Raw; Raw; Raw; Live 5%Z; Raw; Raw]]} ∧
  Vector_index 1%positive 0 res.2 = (Ok (Ptr 2%positive 0), res.2) ∧
  live_at (heap res.2) (Ptr 2%positive 0) = None ∧
  vector_view res.2 1%positive = None.
Proof. vm_compute. repeat split. Qed.



End UnluckyRuns.

Section CopyingRuns.

#[local] Existing Instance unlucky_int.


(** [EmplaceBack] of 7 on the full vector [3; 2]. *)
Lemma emplace_back_reallocating_witness :
  let s := one_vector [3; 2]%Z 2 in
  (vector_view s 1%positive = Some ([3; 2]%Z, 2%N) ∧ N.of_nat 2 = 2%N ∧
   arg_value s 1%positive (ByArgs 7%Z) = Some 7%Z) ∧
  ∃ p, (EmplaceBack 1%positive (ByArgs 7%Z) s).1 = Ok p ∧
       vector_view (EmplaceBack 1%positive (ByArgs 7%Z) s).2 1%positive
       = Some ([3; 2; 7]%Z, 4%N).
Proof.
  split; [by vm_compute|].
  pose proof (emplace_back_reallocating (one_vector [3; 2]%Z 2) 1%positive [3; 2]%Z 2%N
                (ByArgs 7%Z) 7%Z ltac:(by vm_compute) ltac:(by vm_compute)
                ltac:(by vm_compute)) as [H _].
  vm_compute in H. destruct H as (p & Hp & Hv & _). exists p. vm_compute. by split.
Defined.


(** [Insert] of 7 at index 1 of the full vector [3; 2]. *)
Lemma insert_places_value_witness :
  let s := one_vector [3; 2]%Z 2 in
  let res := Emplace 1%positive (position s 1%positive 1) (ByArgs 7%Z) s in
  (vector_view s 1%positive = Some ([3; 2]%Z, 2%N) ∧ 1 ≤ 2 ∧
   arg_value s 1%positive (ByArgs 7%Z) = Some 7%Z ∧ (4 ≤ max_slots)%N ∧
   quiet (trace s) (emplace_ops [3; 2]%Z 2 1 7%Z (ByArgs 7%Z)) = true) ∧
  vector_view res.2 1%positive = Some ([3; 7; 2]%Z, 4%N).
Proof.
  split; [repeat split; try (by vm_compute); lia|].
  pose proof (insert_places_value (one_vector [3; 2]%Z 2) 1%positive [3; 2]%Z 2%N 1
                (ByArgs 7%Z) 7%Z ltac:(by vm_compute) ltac:(simpl; lia) ltac:(by vm_compute)
                ltac:(by vm_compute) ltac:(by vm_compute)) as (_ & H & _).
  exact H.
Defined.

(** [Erase] at index 1 of [3; 2; 5]. *)
Lemma erase_removes_one_witness :
  let s := one_vector [3; 2; 5]%Z 3 in
  let res := Erase 1%positive (position s 1%positive 1) s in
  (vector_view s 1%positive = Some ([3; 2; 5]%Z, 3%N) ∧ [3; 2; 5]%Z !! 1 = Some 2%Z) ∧
  res.1 = Ok (position s 1%positive 1) ∧
  vector_view res.2 1%positive = Some ([3; 5]%Z, 3%N).
Proof.
  split; [by vm_compute|].
  pose proof (erase_removes_one (one_vector [3; 2; 5]%Z 3) 1%positive [3; 2; 5]%Z 3%N 1 2%Z
                ltac:(by vm_compute) ltac:(by vm_compute)) as H.
  vm_compute in H. destruct H as (H1 & _ & H3 & _). vm_compute. by split.
Defined.

(** Copy assignment of [2; 3] to [1], which has no room for it. *)
Lemma copy_assign_independent_copy_witness :
  let s := two_vectors [1%Z] [2%Z; 3%Z] in
  let res := Vector_copy_assign 1%positive 2%positive s in
  (1%positive ≠ 2%positive ∧ vector_view s 1%positive = Some ([1%Z], 1%N) ∧
   vector_view s 2%positive = Some ([2; 3]%Z, 2%N) ∧
   storage_disjoint s 1%positive 2%positive = true) ∧
  vector_view res.2 1%positive = Some ([2; 3]%Z, 2%N) ∧
  vector_view res.2 2%positive = Some ([2; 3]%Z, 2%N).
Proof.
  split; [by vm_compute|].
  pose proof (copy_assign_independent_copy (two_vectors [1%Z] [2%Z; 3%Z]) 1%positive 2%positive
                [1%Z] 1%N [2; 3]%Z 2%N ltac:(done) ltac:(by vm_compute) ltac:(by vm_compute)
                ltac:(by vm_compute)) as H.
  cbv zeta in H. destruct (quiet _ _) eqn:Hq; [|by vm_compute in Hq].
  destruct H as (_ & H2 & H3 & _). split; [exact H2|exact H3].
Defined.

End CopyingRuns.

Section MovingRuns.

#[local] Existing Instance plain_int.


End MovingRuns.

Section ValueConstruction.

Context {E : Elem}.

Implicit Types (s : state) (h : gmap block (list (slot T))).
Implicit Types (vm : gmap loc Vector) (t : list (event T Args)).
Implicit Types (l pre post : list (slot T)) (xs ys done : list T).

(** [new (p) T()] on a raw slot. *)
Lemma value_construct_at_spec h vm t bd od pre post :
  h !! bd = Some (pre ++ Raw :: post) → N.to_nat od = length pre →
  value_construct_at (Ptr bd od) (mkState h vm t)
  = if throws t OpValueInit
    then (Throw ElemFailure, mkState h vm (t ++ [(OpValueInit, true)]))
    else (Ok tt, mkState (<[bd := pre ++ Live default_value :: post]> h) vm
                   (t ++ [(OpValueInit, false)])).
Proof.
  intros Hd Hod. unfold value_construct_at.
  erewrite bind_ok; [|by eapply check_raw_ok; [done|apply list_lookup_middle]].
  destruct (throws t OpValueInit) eqn:Ht.
  - erewrite bind_throw; [done|]. by apply perform_throws.
  - erewrite bind_ok; [|by apply perform_quiet].
    rewrite (store_ok _ _ _ _ _ _ _ Hd) by (by apply middle_length).
    by rewrite insert_middle.
Qed.

(** [std::uninitialized_value_construct_n]: [k] default values, or, when a
    constructor throws, the raw slots again. *)
Lemma uninitialized_value_construct_loop_spec vm bd pre post (d0 : N) (k : nat) :
  ∀ done h t (co : N),
  h !! bd = Some (pre ++ (Live <$> done) ++ replicate k Raw ++ post) →
  N.to_nat d0 = length pre → N.to_nat co = length pre + length done →
  (co + N.of_nat k < size_t_modulus)%N →
  if quiet t (replicate k OpValueInit)
  then uninitialized_value_construct_loop (Ptr bd d0) (Ptr bd co) k (mkState h vm t)
       = (Ok tt, mkState (<[bd := pre ++ (Live <$> done ++ replicate k default_value) ++ post]> h)
                   vm (t ++ oks (replicate k OpValueInit)))
  else ∃ t', uninitialized_value_construct_loop (Ptr bd d0) (Ptr bd co) k (mkState h vm t)
       = (Throw ElemFailure,
          mkState (<[bd := pre ++ replicate (length done + k) Raw ++ post]> h) vm t').
Proof.
  induction k as [|k IH]; intros done h t co Hd Hd0 Hco Hlt.
  - simpl. unfold ret. rewrite !app_nil_r. by rewrite insert_id.
  - cbn [replicate] in Hd. cbn [uninitialized_value_construct_loop replicate quiet].
    assert (Hd' : h !! bd = Some ((pre ++ (Live <$> done)) ++ Raw :: replicate k Raw ++ post))
      by (by rewrite <- app_assoc).
    assert (Hco' : N.to_nat co = length (pre ++ (Live <$> done)))
      by (by rewrite length_app, length_fmap).
    pose proof (value_construct_at_spec h vm t bd co _ _ Hd' Hco') as Hc.
    destruct (throws t OpValueInit) eqn:Ht; simpl.
    + eexists.
      erewrite bind_throw; [reflexivity|].
      eapply on_unwind_throw; [exact Hc|].
      erewrite (destroy_ok done); [|exact Hd|done|lia|lia].
      do 3 f_equal. rewrite replicate_add. simpl. by rewrite <- app_assoc.
    + opose proof (IH (done ++ [default_value])
                    (<[bd := (pre ++ (Live <$> done)) ++ Live default_value :: replicate k Raw ++ post]> h)
                    (t ++ [(OpValueInit, false)]) (co + 1)%N _ Hd0 _ _) as IH'.
      * rewrite lookup_insert_eq. rewrite fmap_app, <- !app_assoc. done.
      * rewrite length_app. simpl. lia.
      * lia.
      * destruct (quiet (t ++ [(OpValueInit, false)]) (replicate k OpValueInit)).
        -- erewrite bind_ok; [|apply on_unwind_ok, Hc].
           rewrite IH'. rewrite insert_insert_eq. rewrite <- !app_assoc. done.
        -- destruct IH' as [t' IH']. exists t'.
           erewrite bind_ok; [|apply on_unwind_ok, Hc].
           rewrite IH'. rewrite insert_insert_eq.
           replace (length (done ++ [default_value]) + k) with (length done + S k)
             by (rewrite length_app; simpl; lia).
           done.
Qed.

Lemma uninitialized_value_construct_n_spec h vm t bd pre post (d0 n : N) :
  h !! bd = Some (pre ++ replicate (N.to_nat n) Raw ++ post) →
  N.to_nat d0 = length pre → (d0 + n < size_t_modulus)%N →
  if quiet t (replicate (N.to_nat n) OpValueInit)
  then uninitialized_value_construct_n (Ptr bd d0) n (mkState h vm t)
       = (Ok tt, mkState (<[bd := pre ++ (Live <$> replicate (N.to_nat n) default_value) ++ post]> h)
                   vm (t ++ oks (replicate (N.to_nat n) OpValueInit)))
  else ∃ t', uninitialized_value_construct_n (Ptr bd d0) n (mkState h vm t)
       = (Throw ElemFailure, mkState h vm t').
Proof.
  intros Hd Hd0 Hlt. unfold uninitialized_value_construct_n.
  opose proof (uninitialized_value_construct_loop_spec vm bd pre post d0 (N.to_nat n) [] h t d0
                 Hd Hd0 _ _) as H.
  { simpl. lia. }
  { lia. }
  destruct (quiet _ _); [done|].
  destruct H as (t' & H). exists t'. rewrite H. by rewrite insert_id.
Qed.

End ValueConstruction.

Section LastElement.

Context {E : Elem}.

Implicit Types (s : state) (h : gmap block (list (slot T))).
Implicit Types (vm : gmap loc Vector) (t : list (event T Args)).
Implicit Types (l pre post : list (slot T)) (xs ys : list T).

Lemma slots_of_pop xs cap :
  (N.of_nat (length xs) < cap)%N →
  (Live <$> xs) ++ Raw :: replicate (N.to_nat cap - S (length xs)) Raw = slots_of xs cap.
Proof.
  intros Hlt. unfold slots_of. f_equal.
  replace (N.to_nat cap - length xs) with (S (N.to_nat cap - S (length xs))) by lia. done.
Qed.

(** A vector with elements owns a block, and its record and block read as
    follows. *)
Lemma vector_view_snoc s this xs x cap :
  vector_view s this = Some (xs ++ [x], cap) →
  ∃ b, vecs s !! this
       = Some (mkVector (mkRawMemory (Ptr b 0) cap) (N.of_nat (length xs) + 1)) ∧
    (N.of_nat (length xs) < cap)%N ∧ (cap ≤ max_slots)%N ∧
    heap s !! b
    = Some ((Live <$> xs) ++ Live x :: replicate (N.to_nat cap - S (length xs)) Raw).
Proof.
  intros Hview.
  assert (Hc0 : cap ≠ 0%N).
  { apply vector_view_inv in Hview as (? & _ & Hle & _).
    rewrite length_app in Hle. simpl in Hle. lia. }
  apply vector_view_nonempty in Hview as (b & Hvm & Hle & Hmax & Hb); [|done].
  rewrite length_app in Hvm, Hle. cbn [length] in Hvm, Hle.
  exists b. split.
  { rewrite Hvm. do 3 f_equal. lia. }
  split; [lia|]. split; [done|].
  rewrite Hb. by rewrite slots_of_snoc by lia.
Qed.

(** [PopBack] on a vector with a last element. *)
Lemma PopBack_spec s this xs x cap :
  vector_view s this = Some (xs ++ [x], cap) →
  let res := PopBack this s in
  res.1 = Ok tt ∧
  vector_view res.2 this = Some (xs, cap) ∧
  owned_block res.2 this = owned_block s this ∧
  trace res.2 = trace s ++ [(OpDestroy x, false)].
Proof.
  destruct s as [h vm t]. intros Hview res. subst res.
  pose proof max_slots_lt_modulus as Hmod.
  apply vector_view_snoc in Hview as (b & Hvm & Hlt & Hmax & Hb). cbn [heap vecs] in *.
  unfold PopBack. erewrite bind_ok; [|by apply get_vec_ok]. cbn [size_ data_ GetAddress buffer_].
  destruct (N.ltb_spec 0 (N.of_nat (length xs) + 1)) as [_|]; [|lia].
  cbn [assert]. erewrite bind_ok; [|reflexivity].
  rewrite size_sub_small by lia. cbn [ptr_add]. rewrite N.add_0_l.
  erewrite bind_ok; cycle 1.
  { eapply destroy_at_ok; [exact Hb|]. rewrite length_fmap. lia. }
  erewrite decr_size_ok; [|done]. cbn [fst snd data_ size_ trace].
  rewrite size_sub_small by lia.
  split; [done|]. split; [|split; [|done]].
  - eapply vector_view_intro_ptr; cbn [vecs heap].
    + rewrite lookup_insert_eq. do 2 f_equal. lia.
    + lia.
    + done.
    + lia.
    + rewrite lookup_insert_eq. by rewrite slots_of_pop.
  - unfold owned_block. cbn [vecs]. by rewrite lookup_insert_eq, Hvm.
Qed.

(** X1: [PopBack] on a vector whose last element is [x] destroys [x] and
    nothing else: the other elements, the capacity and the storage block are
    as before and the size is one less. On an empty vector the assertion
    [size_ > 0] fails. *)
Theorem pop_back_removes_last s this xs cap :
  vector_view s this = Some (xs, cap) →
  let res := PopBack this s in
  match last xs with
  | None => res = (Undefined, s)
  | Some x =>
      res.1 = Ok tt ∧
      vector_view res.2 this = Some (take (length xs - 1) xs, cap) ∧
      Size this res.2 = (Ok (N.of_nat (length xs) - 1)%N, res.2) ∧
      owned_block res.2 this = owned_block s this ∧
      trace res.2 = trace s ++ [(OpDestroy x, false)]
  end.
Proof.
  intros Hview res. subst res.
  destruct xs as [|x xs _] using rev_ind.
  - cbn [last]. apply vector_view_inv in Hview as (buf & Hvm & _).
    destruct s as [h vm t]. cbn [vecs] in Hvm.
    unfold PopBack. by erewrite bind_ok; [|by apply get_vec_ok].
  - rewrite last_snoc.
    destruct (PopBack_spec s this xs x cap Hview) as (Hres & Hview' & Hown & Htr).
    rewrite length_app. cbn [length]. rewrite Nat.add_sub, take_app_length.
    split; [done|]. split; [done|]. split; [|done].
    rewrite (view_Size _ _ _ _ Hview'). do 2 f_equal. lia.
Qed.

(** X2: [Back] on a vector with elements returns the address of the last
    one; on an empty vector [size_ - 1] wraps around and the assertion of
    [RawMemory::operator[]] fails. *)
Theorem back_is_last_element s this xs cap :
  vector_view s this = Some (xs, cap) →
  match last xs with
  | None => Back this s = (Undefined, s)
  | Some x =>
      Back this s = (Ok (position s this (length xs - 1)), s) ∧
      live_at (heap s) (position s this (length xs - 1)) = Some x
  end.
Proof.
  intros Hview. pose proof max_slots_lt_modulus as Hmod.
  destruct xs as [|x xs _] using rev_ind.
  - cbn [last]. apply vector_view_inv in Hview as (buf & Hvm & _ & Hmax & _).
    destruct s as [h vm t]. cbn [vecs] in Hvm.
    unfold Back. erewrite bind_ok; [|by apply get_vec_ok]. cbn [size_ data_ length N.of_nat].
    unfold RawMemory_index. cbn [capacity_].
    assert (Hw : size_sub 0 1 = (size_t_modulus - 1)%N) by done.
    change (N.of_nat 0) with 0%N. rewrite Hw. destruct (N.ltb_spec (size_t_modulus - 1) cap) as [|_]; [lia|]. done.
  - rewrite last_snoc. rewrite length_app. cbn [length]. rewrite Nat.add_sub.
    split.
    + pose proof Hview as (b & Hvm & Hlt & Hmax & Hb)%vector_view_snoc.
      destruct s as [h vm t]. cbn [heap vecs] in *.
      erewrite Back_ok; [|exact Hvm|lia..].
      unfold position. cbn [vecs]. rewrite Hvm. cbn [data_ GetAddress buffer_].
      do 3 f_equal. lia.
    + rewrite (view_live_at _ _ _ _ _ Hview). by rewrite lookup_app_r, Nat.sub_diag.
Qed.

(** X3: [operator[]] with an index below the size returns the address of
    that element; with any other index the assertion [index < size_] fails. *)
Theorem index_within_size s this xs cap (index : N) :
  vector_view s this = Some (xs, cap) →
  if (index <? N.of_nat (length xs))%N
  then Vector_index this index s = (Ok (position s this (N.to_nat index)), s) ∧
       live_at (heap s) (position s this (N.to_nat index)) = xs !! N.to_nat index ∧
       is_Some (xs !! N.to_nat index)
  else Vector_index this index s = (Undefined, s).
Proof.
  intros Hview.
  pose proof Hview as (buf & Hvm & Hle & Hmax & _)%vector_view_inv.
  destruct (N.ltb_spec index (N.of_nat (length xs))) as [Hlt|Hge].
  - split; [|split].
    + destruct s as [h vm t]. cbn [heap vecs] in *.
      erewrite Vector_index_ok; [|exact Hvm|lia..].
      unfold position. cbn [vecs]. rewrite Hvm. cbn [data_ GetAddress buffer_].
      by rewrite N2Nat.id.
    + by eapply view_live_at.
    + apply lookup_lt_is_Some. lia.
  - destruct s as [h vm t]. cbn [heap vecs] in *.
    unfold Vector_index. erewrite bind_ok; [|by apply get_vec_ok]. cbn [size_].
    destruct (N.ltb_spec index (N.of_nat (length xs))) as [|_]; [lia|]. done.
Qed.

End LastElement.

Section ResizeProofs.

Context {E : Elem}.

Implicit Types (s : state) (h : gmap block (list (slot T))).
Implicit Types (vm : gmap loc Vector) (t : list (event T Args)).
Implicit Types (l pre post : list (slot T)) (xs ys : list T).

Lemma slots_of_grow xs cap (k : nat) (d : T) :
  length xs + k ≤ N.to_nat cap →
  (Live <$> xs) ++ (Live <$> replicate k d) ++ replicate (N.to_nat cap - (length xs + k)) Raw
  = slots_of (xs ++ replicate k d) cap.
Proof.
  intros Hle. unfold slots_of. rewrite fmap_app, <- app_assoc, length_app, length_replicate.
  done.
Qed.

Lemma slots_of_room xs cap (k : nat) :
  length xs + k ≤ N.to_nat cap →
  slots_of xs cap
  = (Live <$> xs) ++ replicate k Raw ++ replicate (N.to_nat cap - (length xs + k)) Raw.
Proof.
  intros Hle. unfold slots_of. f_equal. rewrite <- replicate_add. f_equal. lia.
Qed.

(** The tail of [Resize] when the new size fits the capacity: the new
    elements are value-constructed behind the old ones, or nothing changes. *)
Lemma grow_in_place s this xs cap (n : N) :
  vector_view s this = Some (xs, cap) →
  (N.of_nat (length xs) < n)%N → (n ≤ cap)%N →
  let k := N.to_nat n - length xs in
  let res := bind (get_vec this) (λ v,
               bind (uninitialized_value_construct_n
                       (ptr_add (GetAddress (data_ v)) (size_ v)) (size_sub n (size_ v)))
                    (λ _, set_size this n)) s in
  if quiet (trace s) (replicate k OpValueInit)
  then res.1 = Ok tt ∧
       vector_view res.2 this = Some (xs ++ replicate k default_value, cap) ∧
       owned_block res.2 this = owned_block s this ∧
       trace res.2 = trace s ++ oks (replicate k OpValueInit)
  else res.1 = Throw ElemFailure ∧ heap res.2 = heap s ∧ vecs res.2 = vecs s.
Proof.
  destruct s as [h vm t]. intros Hview Hlt Hle k res. subst res.
  pose proof max_slots_lt_modulus as Hmod.
  apply vector_view_nonempty in Hview as (b & Hvm & Hlen & Hmax & Hb); [|lia].
  cbn [heap vecs trace] in *.
  erewrite bind_ok; [|by apply get_vec_ok]. cbn [size_ data_ GetAddress buffer_ ptr_add].
  rewrite N.add_0_l, size_sub_small by lia.
  assert (Hk : N.to_nat (n - N.of_nat (length xs)) = k) by lia.
  rewrite (slots_of_room xs cap k) in Hb by lia.
  opose proof (uninitialized_value_construct_n_spec h vm t b (Live <$> xs) _
                 (N.of_nat (length xs)) (n - N.of_nat (length xs)) _ _ _) as H.
  { rewrite Hk. exact Hb. }
  { rewrite length_fmap. lia. }
  { lia. }
  rewrite Hk in H. destruct (quiet t _).
  - erewrite bind_ok; [|exact H]. erewrite set_size_ok; [|done]. cbn [fst snd data_ trace].
    split; [done|]. split; [|split; [|done]].
    + eapply vector_view_intro_ptr; cbn [vecs heap].
      * rewrite lookup_insert_eq. do 2 f_equal. rewrite length_app, length_replicate. lia.
      * rewrite length_app, length_replicate. lia.
      * done.
      * lia.
      * rewrite lookup_insert_eq. by rewrite slots_of_grow by lia.
    + unfold owned_block. cbn [vecs]. by rewrite lookup_insert_eq, Hvm.
  - destruct H as (t' & H). erewrite bind_throw; [|exact H]. done.
Qed.

(** X4: [Resize] to a size that is not above the current one destroys the
    elements from the new size on, in order, and keeps the rest, the capacity
    and the storage block; with the current size it changes nothing. *)
Theorem resize_down_destroys_tail s this xs cap (n : N) :
  vector_view s this = Some (xs, cap) →
  (n ≤ N.of_nat (length xs))%N →
  let res := Resize this n s in
  res.1 = Ok tt ∧
  vector_view res.2 this = Some (take (N.to_nat n) xs, cap) ∧
  owned_block res.2 this = owned_block s this ∧
  trace res.2 = trace s ++ destroys (drop (N.to_nat n) xs) ∧
  (n = N.of_nat (length xs) → res.2 = s).
Proof.
  destruct s as [h vm t]. intros Hview Hn res. subst res.
  pose proof max_slots_lt_modulus as Hmod.
  pose proof Hview as (buf & Hvm & Hle & Hmax & Hbuf)%vector_view_inv.
  cbn [heap vecs trace] in *.
  unfold Resize. erewrite bind_ok; [|by apply get_vec_ok]. cbn [size_ data_ GetAddress buffer_].
  destruct (N.ltb_spec n (N.of_nat (length xs))) as [Hlt|Hge].
  - assert (Hc0 : cap ≠ 0%N) by lia.
    apply vector_view_nonempty in Hview as (b & Hvm' & _ & _ & Hb); [|done].
    cbn [heap vecs] in *. rewrite Hvm in Hvm'. injection Hvm' as ->.
    cbn [ptr_add]. rewrite N.add_0_l, size_sub_small by lia.
    assert (Hsplit : slots_of xs cap
                     = (Live <$> take (N.to_nat n) xs) ++ (Live <$> drop (N.to_nat n) xs)
                       ++ replicate (N.to_nat cap - length xs) Raw).
    { unfold slots_of. by rewrite app_assoc, <- fmap_app, take_drop. }
    rewrite Hsplit in Hb.
    erewrite bind_ok; cycle 1.
    { eapply (destroy_n_ok (drop (N.to_nat n) xs)); [exact Hb|..].
      - rewrite length_fmap, length_take. lia.
      - rewrite length_drop. lia. }
    erewrite set_size_ok; [|done]. cbn [fst snd data_ trace].
    split; [done|]. split; [|split; [|split; [done|lia]]].
    + eapply vector_view_intro_ptr; cbn [vecs heap].
      * rewrite lookup_insert_eq. do 2 f_equal. rewrite length_take. lia.
      * rewrite length_take. lia.
      * done.
      * done.
      * rewrite lookup_insert_eq. f_equal. unfold slots_of.
        rewrite length_take, length_drop. f_equal. rewrite <- replicate_add. f_equal. lia.
    + unfold owned_block. cbn [vecs]. by rewrite lookup_insert_eq, Hvm.
  - assert (n = N.of_nat (length xs)) as -> by lia. rewrite N.eqb_refl.
    cbn [ret fst snd trace]. rewrite Nat2N.id, firstn_all, drop_all.
    split; [done|]. split; [done|]. split; [done|]. split; [|done].
    unfold destroys. by rewrite fmap_nil, app_nil_r.
Qed.

(** X5: [Resize] to a size above the current one that fits the capacity
    value-constructs the new elements in the same storage. When one of these
    constructions throws, the ones already made are destroyed again and the
    failure propagates with store and vector as they were. *)
Theorem resize_within_capacity s this xs cap (n : N) :
  vector_view s this = Some (xs, cap) →
  (N.of_nat (length xs) < n)%N → (n ≤ cap)%N →
  let k := N.to_nat n - length xs in
  let res := Resize this n s in
  if quiet (trace s) (replicate k OpValueInit)
  then res.1 = Ok tt ∧
       vector_view res.2 this = Some (xs ++ replicate k default_value, cap) ∧
       owned_block res.2 this = owned_block s this ∧
       trace res.2 = trace s ++ oks (replicate k OpValueInit)
  else res.1 = Throw ElemFailure ∧ heap res.2 = heap s ∧ vecs res.2 = vecs s ∧
       vector_view res.2 this = Some (xs, cap).
Proof.
  intros Hview Hlt Hle k res.
  pose proof (grow_in_place s this xs cap n Hview Hlt Hle) as H. cbv zeta in H. fold k in H.
  assert (Hres : res = bind (get_vec this) (λ v,
               bind (uninitialized_value_construct_n
                       (ptr_add (GetAddress (data_ v)) (size_ v)) (size_sub n (size_ v)))
                    (λ _, set_size this n)) s).
  { subst res. pose proof Hview as (buf & Hvm & _)%vector_view_inv.
    destruct s as [h vm t]. cbn [vecs] in Hvm. unfold Resize.
    erewrite (bind_ok (get_vec this)); [|by apply get_vec_ok]. symmetry.
    erewrite (bind_ok (get_vec this)); [|by apply get_vec_ok]. symmetry.
    cbn [size_ data_ capacity_].
    destruct (N.ltb_spec n (N.of_nat (length xs))); [lia|].
    destruct (N.eqb_spec n (N.of_nat (length xs))); [lia|].
    destruct (N.leb_spec n cap); [done|lia]. }
  rewrite Hres. destruct (quiet _ _); [done|].
  destruct H as (H1 & H2 & H3). do 3 (split; [done|]).
  rewrite <- Hview. apply vector_view_ext; [by rewrite H3|done].
Qed.


End ResizeProofs.

Section Lifetime.

Context {E : Elem}.

Implicit Types (s : state) (h : gmap block (list (slot T))).
Implicit Types (vm : gmap loc Vector) (t : list (event T Args)).
Implicit Types (l pre post : list (slot T)) (xs ys : list T).

Lemma slots_of_full xs : slots_of xs (N.of_nat (length xs)) = Live <$> xs.
Proof. unfold slots_of. rewrite Nat2N.id, Nat.sub_diag. apply app_nil_r. Qed.

(** [RawMemory(capacity)] for a non-zero capacity. *)
Lemma RawMemory_ctor_ok h vm t (n : N) :
  n ≠ 0%N → (n ≤ max_slots)%N → throws t (OpAlloc n) = false →
  RawMemory_ctor n (mkState h vm t)
  = (Ok (mkRawMemory (Ptr (fresh (dom h)) 0) n),
     mkState (<[fresh (dom h) := replicate (N.to_nat n) Raw]> h) vm (t ++ [(OpAlloc n, false)])).
Proof.
  intros. unfold RawMemory_ctor. by erewrite bind_ok; [|by apply Allocate_ok].
Qed.

Lemma RawMemory_ctor_fail h vm t (n : N) :
  n ≠ 0%N → (max_slots <? n)%N || throws t (OpAlloc n) = true →
  RawMemory_ctor n (mkState h vm t) = (Throw BadAlloc, mkState h vm (t ++ [(OpAlloc n, true)])).
Proof.
  intros. unfold RawMemory_ctor. by erewrite bind_throw; [|by apply Allocate_fail].
Qed.

(** The copy constructor, from a source with elements. *)
Lemma Vector_copy_ctor_spec h vm t this other br cy ys :
  vm !! other = Some (mkVector (mkRawMemory (Ptr br 0) cy) (N.of_nat (length ys))) →
  h !! br = Some (slots_of ys cy) → ys ≠ [] → (N.of_nat (length ys) ≤ max_slots)%N →
  let n := N.of_nat (length ys) in
  let b := fresh (dom h) in
  let t1 := t ++ [(OpAlloc n, false)] in
  let res := Vector_copy_ctor this other (mkState h vm t) in
  if (max_slots <? n)%N || throws t (OpAlloc n)
  then res = (Throw BadAlloc, mkState h vm (t ++ [(OpAlloc n, true)]))
  else if quiet t1 (OpCopy <$> ys)
  then res = (Ok tt, mkState (<[b := Live <$> ys]> h)
                       (<[this := mkVector (mkRawMemory (Ptr b 0) n) n]> vm)
                       (t1 ++ oks (OpCopy <$> ys)))
  else ∃ t', res = (Throw ElemFailure, mkState h vm t').
Proof.
  intros Hother Hbr Hne Hmax n b t1 res. subst res.
  pose proof max_slots_lt_modulus as Hmod.
  assert (Hn0 : n ≠ 0%N) by (subst n; destruct ys; [done|simpl; lia]).
  assert (Hfresh : h !! b = None) by apply fresh_block_None.
  unfold Vector_copy_ctor. erewrite bind_ok; [|by apply get_vec_ok].
  cbn [size_ data_ GetAddress buffer_]. fold n.
  destruct (_ || _) eqn:Ha.
  { erewrite bind_throw; [done|]. by apply RawMemory_ctor_fail. }
  apply orb_false_iff in Ha as [Ha1 Ha2]. apply N.ltb_ge in Ha1.
  erewrite bind_ok; [|by apply RawMemory_ctor_ok]. fold b t1. cbn [GetAddress buffer_].
  set (h1 := <[b := replicate (N.to_nat n) Raw]> h).
  opose proof (uninitialized_copy_n_spec h1 vm t1 br b 0 0 n [] [] []
                 (replicate (N.to_nat cy - length ys) Raw) ys _ _ _ _ _ _ _) as H.
  { intros ->. by rewrite Hfresh in Hbr. }
  { unfold h1. rewrite lookup_insert_ne by (intros ->; by rewrite Hfresh in Hbr). exact Hbr. }
  { done. }
  { unfold h1. rewrite lookup_insert_eq. cbn [app]. rewrite app_nil_r. subst n.
    by rewrite Nat2N.id. }
  { done. }
  { subst n. by rewrite Nat2N.id. }
  { lia. }
  destruct (quiet t1 _).
  - erewrite bind_ok; [|apply on_unwind_ok, H].
    unfold put_vec, set_vecs. cbn [heap vecs trace]. unfold h1.
    rewrite insert_insert_eq. cbn [app]. by rewrite app_nil_r.
  - destruct H as (t' & H). exists t'.
    erewrite bind_throw; [done|]. eapply on_unwind_throw; [exact H|].
    unfold RawMemory_dtor. cbn [buffer_].
    erewrite Deallocate_ok; [|by apply lookup_insert_eq].
    unfold h1. by rewrite delete_insert_id.
Qed.

(** The copy constructor, from an empty source: nothing is allocated. *)
Lemma Vector_copy_ctor_empty h vm t this other buf cy :
  vm !! other = Some (mkVector (mkRawMemory buf cy) 0) →
  Vector_copy_ctor this other (mkState h vm t)
  = (Ok tt, mkState h (<[this := mkVector (mkRawMemory Null 0) 0]> vm) t).
Proof.
  intros Hother. unfold Vector_copy_ctor. by erewrite bind_ok; [|by apply get_vec_ok].
Qed.

(** The destructor of a well-formed vector. *)
Lemma Vector_dtor_spec s this xs cap :
  vector_view s this = Some (xs, cap) →
  Vector_dtor this s
  = (Ok tt, mkState (match owned_block s this with
                     | Some b => delete b (heap s)
                     | None => heap s
                     end)
              (delete this (vecs s)) (trace s ++ destroys xs)).
Proof.
  destruct s as [h vm t]. intros Hview.
  pose proof Hview as (buf & Hvm & Hle & Hmax & Hbuf)%vector_view_inv.
  cbn [heap vecs trace] in *. unfold owned_block. cbn [vecs]. rewrite Hvm.
  cbn [data_ buffer_]. unfold Vector_dtor.
  erewrite bind_ok; [|by apply get_vec_ok]. cbn [data_ size_ GetAddress buffer_].
  destruct buf as [|b off].
  - subst cap. assert (xs = []) as -> by (destruct xs; [done|simpl in Hle; lia]).
    unfold destroys. cbn [fmap list_fmap]. by rewrite app_nil_r.
  - destruct Hbuf as (-> & Hc0 & Hb).
    erewrite bind_ok; cycle 1.
    { eapply (destroy_n_ok xs _ _ _ _ _ []); [exact Hb|done|lia]. }
    unfold RawMemory_dtor. cbn [buffer_].
    erewrite bind_ok; [|by eapply Deallocate_ok, lookup_insert_eq].
    unfold del_vec, set_vecs. cbn [heap vecs trace]. by rewrite delete_insert_eq.
Qed.

End Lifetime.

Section LifetimeProperties.

Context {E : Elem}.

Implicit Types (s : state) (h : gmap block (list (slot T))).
Implicit Types (vm : gmap loc Vector) (t : list (event T Args)).
Implicit Types (l pre post : list (slot T)) (xs ys : list T).


(** X8: the copy constructor builds, in storage of exactly the source's
    size (not its capacity), copies of the source's elements in order, and
    leaves the source as it was; from an empty source it asks the allocator
    for nothing. When the allocation or a copy fails, the copies already made
    are destroyed, the storage is released, and store and vectors are as
    before. *)
Theorem copy_ctor_tight_copy s this other ys cy :
  vector_view s other = Some (ys, cy) →
  vecs s !! this = None →
  let n := N.of_nat (length ys) in
  let t1 := if (n =? 0)%N then trace s else trace s ++ [(OpAlloc n, false)] in
  let res := Vector_copy_ctor this other s in
  if negb (n =? 0)%N && throws (trace s) (OpAlloc n)
  then res = (Throw BadAlloc, mkState (heap s) (vecs s) (trace s ++ [(OpAlloc n, true)]))
  else if quiet t1 (OpCopy <$> ys)
  then res.1 = Ok tt ∧
       vector_view res.2 this = Some (ys, n) ∧
       vector_view res.2 other = Some (ys, cy) ∧
       storage_disjoint res.2 this other = true ∧
       trace res.2 = t1 ++ oks (OpCopy <$> ys)
  else res.1 = Throw ElemFailure ∧ heap res.2 = heap s ∧ vecs res.2 = vecs s.
Proof.
  destruct s as [h vm t]. intros Hview Hnew n t1 res. subst res.
  pose proof Hview as (buf & Hvm & Hle & Hmax & Hbuf)%vector_view_inv.
  cbn [heap vecs trace] in *.
  assert (Hne : this ≠ other) by (intros ->; by rewrite Hvm in Hnew).
  destruct (N.eqb_spec n 0) as [Hn0|Hn0]; cbn [negb andb].
  - assert (ys = []) as -> by (subst n; destruct ys; [done|simpl in Hn0; lia]).
    erewrite Vector_copy_ctor_empty; [|exact Hvm].
    subst t1. cbn [fmap list_fmap quiet oks fst snd trace].
    split; [done|]. split; [by apply vector_view_intro_null, lookup_insert_eq|].
    split; [|split; [|by rewrite app_nil_r]].
    + rewrite <- Hview. apply vector_view_ext; [|done]. cbn [vecs].
      by rewrite lookup_insert_ne.
    + unfold storage_disjoint, owned_block. cbn [vecs]. by rewrite lookup_insert_eq.
  - assert (Hc0 : cy ≠ 0%N) by (subst n; lia).
    destruct buf as [|br off]; [done|]. destruct Hbuf as (-> & _ & Hbr).
    assert (Hys : ys ≠ []) by (subst n; intros ->; simpl in Hn0; lia).
    pose proof (Vector_copy_ctor_spec h vm t this other br cy ys Hvm Hbr Hys ltac:(lia)) as H.
    cbv zeta in H. fold n t1 in H.
    destruct (N.ltb_spec max_slots n) as [|_]; [subst n; lia|]. cbn [orb] in H.
    destruct (throws t (OpAlloc n)); [done|].
    assert (Hfresh : h !! fresh (dom h) = None) by apply fresh_block_None.
    set (b := fresh (dom h)) in *.
    assert (Hbb : br ≠ b) by (intros ->; by rewrite Hfresh in Hbr).
    destruct (quiet t1 _).
    + rewrite H. cbn [fst snd trace]. split; [done|].
      split; [|split; [|split; [|done]]].
      * eapply vector_view_intro_ptr; cbn [vecs heap].
        -- by rewrite lookup_insert_eq.
        -- lia.
        -- subst n; lia.
        -- done.
        -- subst n. by rewrite lookup_insert_eq, slots_of_full.
      * rewrite <- Hview. apply vector_view_frame; cbn [vecs heap].
        -- by rewrite lookup_insert_ne.
        -- intros b'. unfold owned_block. cbn [vecs]. rewrite Hvm. cbn [data_ buffer_].
           intros [= <-]. by rewrite lookup_insert_ne.
      * unfold storage_disjoint, owned_block. cbn [vecs].
        rewrite lookup_insert_eq, lookup_insert_ne, Hvm by done. cbn [data_ buffer_].
        apply negb_true_iff, Pos.eqb_neq. done.
    + destruct H as (t' & ->). done.
Qed.

(** X9: the destructor of a vector destroys its elements in order, releases
    its storage block and ends the object; other blocks are not touched. *)
Theorem dtor_releases_everything s this xs cap :
  vector_view s this = Some (xs, cap) →
  let res := Vector_dtor this s in
  res.1 = Ok tt ∧
  vecs res.2 !! this = None ∧
  (∀ b, owned_block s this = Some b → heap res.2 !! b = None) ∧
  (∀ b, owned_block s this ≠ Some b → heap res.2 !! b = heap s !! b) ∧
  (∀ r, r ≠ this → vecs res.2 !! r = vecs s !! r) ∧
  trace res.2 = trace s ++ destroys xs.
Proof.
  intros Hview res. subst res. rewrite (Vector_dtor_spec s this xs cap Hview).
  cbn [fst snd heap vecs trace]. split; [done|]. split; [by apply lookup_delete_eq|].
  split; [|split; [|split; [|done]]].
  - intros b ->. by apply lookup_delete_eq.
  - intros b Hb. destruct (owned_block s this) as [b'|]; [|done].
    rewrite lookup_delete_ne; [done|]. by intros ->.
  - intros r Hr. by rewrite lookup_delete_ne.
Qed.

(** X10: copying a vector into a new object and destroying that object
    again, when no copy fails, leaves the store and the vectors exactly as
    they were; every element that was copied has been destroyed once. *)
Theorem copy_then_destroy_restores s this other ys cy :
  vector_view s other = Some (ys, cy) →
  vecs s !! this = None →
  let n := N.of_nat (length ys) in
  let t1 := if (n =? 0)%N then trace s else trace s ++ [(OpAlloc n, false)] in
  negb (n =? 0)%N && throws (trace s) (OpAlloc n) = false →
  quiet t1 (OpCopy <$> ys) = true →
  bind (Vector_copy_ctor this other) (λ _, Vector_dtor this) s
  = (Ok tt, mkState (heap s) (vecs s) (t1 ++ oks (OpCopy <$> ys) ++ destroys ys)).
Proof.
  destruct s as [h vm t]. intros Hview Hnew n t1 Ha Hq.
  pose proof Hview as (buf & Hvm & Hle & Hmax & Hbuf)%vector_view_inv.
  cbn [heap vecs trace] in *.
  destruct (N.eqb_spec n 0) as [Hn0|Hn0]; cbn [negb andb] in Ha.
  - assert (ys = []) as -> by (subst n; destruct ys; [done|simpl in Hn0; lia]).
    erewrite bind_ok; [|by eapply Vector_copy_ctor_empty].
    set (s1 := mkState h _ t).
    assert (Hv1 : vector_view s1 this = Some ([], 0%N))
      by (by apply vector_view_intro_null, lookup_insert_eq).
    rewrite (Vector_dtor_spec s1 this [] 0 Hv1). subst s1 t1.
    unfold owned_block. cbn [heap vecs trace]. rewrite lookup_insert_eq. cbn [data_ buffer_].
    rewrite delete_insert_id by done. done.
  - assert (Hc0 : cy ≠ 0%N) by (subst n; lia).
    destruct buf as [|br off]; [done|]. destruct Hbuf as (-> & _ & Hbr).
    assert (Hys : ys ≠ []) by (subst n; intros ->; simpl in Hn0; lia).
    pose proof (Vector_copy_ctor_spec h vm t this other br cy ys Hvm Hbr Hys ltac:(lia)) as H.
    cbv zeta in H. fold n t1 in H.
    destruct (N.ltb_spec max_slots n) as [|_]; [subst n; lia|]. cbn [orb] in H.
    rewrite Ha, Hq in H.
    assert (Hfresh : h !! fresh (dom h) = None) by apply fresh_block_None.
    set (b := fresh (dom h)) in *.
    erewrite bind_ok; [|exact H].
    set (s1 := mkState (<[b := _]> h) _ _).
    assert (Hv1 : vector_view s1 this = Some (ys, n)).
    { eapply vector_view_intro_ptr; subst s1; cbn [vecs heap].
      - by rewrite lookup_insert_eq.
      - lia.
      - subst n; lia.
      - done.
      - subst n. by rewrite lookup_insert_eq, slots_of_full. }
    rewrite (Vector_dtor_spec s1 this ys n Hv1). subst s1.
    unfold owned_block. cbn [heap vecs trace]. rewrite lookup_insert_eq. cbn [data_ buffer_].
    rewrite !delete_insert_id by done. by rewrite <- app_assoc.
Qed.

End LifetimeProperties.

Section Stability.

Context {E : Elem}.

Implicit Types (s : state) (h : gmap block (list (slot T))).
Implicit Types (vm : gmap loc Vector) (t : list (event T Args)).
Implicit Types (l pre post : list (slot T)) (xs ys : list T).

(** [EmplaceBack] with room left, read off the vector. *)
Lemma EmplaceBack_room s this xs cap arg v :
  vector_view s this = Some (xs, cap) →
  (N.of_nat (length xs) < cap)%N →
  arg_value s this arg = Some v →
  let res := EmplaceBack this arg s in
  if throws (trace s) (arg_op v arg)
  then res = (Throw ElemFailure,
              mkState (heap s) (vecs s) (trace s ++ [(arg_op v arg, true)]))
  else res.1 = Ok (position s this (length xs)) ∧
       vector_view res.2 this = Some (xs ++ [v], cap) ∧
       owned_block res.2 this = owned_block s this ∧
       (∀ i, position res.2 this i = position s this i) ∧
       trace res.2 = trace s ++ [(arg_op v arg, false)].
Proof.
  destruct s as [h vm t]. intros Hview Hlt Hv res. subst res.
  pose proof (arg_value_source _ _ _ _ _ _ Hv) as Hsrc.
  apply vector_view_nonempty in Hview as (b & Hvm & Hle & Hmax & Hb); [|lia].
  cbn [heap vecs trace] in *.
  pose proof (EmplaceBack_in_capacity h vm t this b cap xs arg v Hvm Hlt Hmax
                Hb Hsrc (arg_value_alias _ _ _ _ _ _ _ _ _ Hv Hvm)) as H.
  cbv zeta in H. destruct (throws t (arg_op v arg)); [done|].
  destruct H as (h' & -> & Hb'). cbn [fst snd trace].
  split.
  { unfold position. cbn [vecs]. rewrite Hvm. cbn [data_ GetAddress buffer_ ptr_add].
    by rewrite N.add_0_l. }
  split.
  { eapply vector_view_intro_ptr; cbn [vecs heap]; try done.
    - rewrite lookup_insert_eq. do 2 f_equal. rewrite length_app. simpl. lia.
    - rewrite length_app. simpl. lia.
    - lia. }
  split.
  { unfold owned_block. cbn [vecs]. by rewrite lookup_insert_eq, Hvm. }
  split; [|done].
  intros i. unfold position. cbn [vecs]. by rewrite lookup_insert_eq, Hvm.
Qed.

(** Pushes that fit the capacity. *)
Lemma push_all_in_capacity (args : list Args) this cap : ∀ s xs,
  vector_view s this = Some (xs, cap) →
  length xs + length args ≤ N.to_nat cap →
  let res := push_all this (ByArgs <$> args) s in
  if quiet (trace s) (OpConstruct <$> args)
  then res.1 = Ok tt ∧
       vector_view res.2 this = Some (xs ++ (construct_value <$> args), cap) ∧
       owned_block res.2 this = owned_block s this ∧
       (∀ i, position res.2 this i = position s this i) ∧
       trace res.2 = trace s ++ oks (OpConstruct <$> args)
  else res.1 = Throw ElemFailure ∧
       ∃ j, j < length args ∧
            vector_view res.2 this = Some (xs ++ (construct_value <$> take j args), cap).
Proof.
  induction args as [|a args IH]; intros s xs Hview Hfit res; subst res.
  - cbn [fmap list_fmap push_all quiet ret fst snd oks]. rewrite !app_nil_r. done.
  - rewrite !fmap_cons. cbn [push_all quiet length] in *.
    assert (Hv : arg_value s this (ByArgs a) = Some (construct_value a)) by done.
    pose proof (EmplaceBack_room s this xs cap _ _ Hview ltac:(lia) Hv) as H.
    cbv zeta in H. cbn [arg_op] in H.
    unfold PushBack. destruct (throws (trace s) (OpConstruct a)); cbn [negb andb].
    + erewrite bind_throw; [|erewrite bind_throw; [done|exact H]].
      split; [done|]. exists 0. split; [lia|]. cbn [take fmap list_fmap snd].
      rewrite app_nil_r. rewrite <- Hview. by apply vector_view_ext.
    + destruct H as (Hres & Hview' & Hown & Hpos & Htr).
      destruct (EmplaceBack this (ByArgs a) s) as [o s1] eqn:HE. cbn [fst snd] in *. subst o.
      erewrite bind_ok; [|erewrite bind_ok; [|exact HE]; reflexivity].
      opose proof (IH s1 (xs ++ [construct_value a]) Hview' _) as IH'.
      { rewrite length_app. simpl. lia. }
      cbv zeta in IH'. rewrite Htr in IH'.
      destruct (quiet _ _).
      * destruct IH' as (I1 & I2 & I3 & I4 & I5).
        split; [done|]. split; [by rewrite <- app_assoc in I2|].
        split; [by rewrite I3|]. split; [intros i; by rewrite I4|].
        rewrite I5. unfold oks. rewrite fmap_cons. by rewrite <- app_assoc.
      * destruct IH' as (I1 & j & Hj & I2). split; [done|].
        exists (S j). split; [lia|]. cbn [take]. rewrite fmap_cons.
        by rewrite <- app_assoc in I2.
Qed.

(** X11: [EmplaceBack] into a vector with room left builds the element in
    the first free slot of the same storage: no allocation, no operation on
    an existing element, every position of the vector stays what it was.
    When the construction throws, store and vector are as before. *)
Theorem emplace_back_with_room s this xs cap arg v :
  vector_view s this = Some (xs, cap) →
  (N.of_nat (length xs) < cap)%N →
  arg_value s this arg = Some v →
  let res := EmplaceBack this arg s in
  if throws (trace s) (arg_op v arg)
  then res = (Throw ElemFailure,
              mkState (heap s) (vecs s) (trace s ++ [(arg_op v arg, true)]))
  else res.1 = Ok (position s this (length xs)) ∧
       vector_view res.2 this = Some (xs ++ [v], cap) ∧
       live_at (heap res.2) (position s this (length xs)) = Some v ∧
       owned_block res.2 this = owned_block s this ∧
       (∀ i, position res.2 this i = position s this i) ∧
       trace res.2 = trace s ++ [(arg_op v arg, false)].
Proof.
  intros Hview Hlt Hv res.
  pose proof (EmplaceBack_room s this xs cap arg v Hview Hlt Hv) as H. cbv zeta in H.
  fold res in H. destruct (throws _ _); [done|].
  destruct H as (H1 & H2 & H3 & H4 & H5). do 2 (split; [done|]).
  split; [|done].
  rewrite <- H4, (view_live_at _ _ _ _ _ H2). by rewrite lookup_app_r, Nat.sub_diag.
Qed.

(** X12: pushing values onto a vector whose capacity has room for all of
    them never reallocates: when no construction throws, the values are
    appended in order in the same storage, every position stays what it was,
    and the only operations are the constructions. When one throws, the
    failure propagates and the values pushed before it stay. *)
Theorem pushes_within_capacity s this xs cap (args : list Args) :
  vector_view s this = Some (xs, cap) →
  length xs + length args ≤ N.to_nat cap →
  let res := push_all this (ByArgs <$> args) s in
  if quiet (trace s) (OpConstruct <$> args)
  then res.1 = Ok tt ∧
       vector_view res.2 this = Some (xs ++ (construct_value <$> args), cap) ∧
       owned_block res.2 this = owned_block s this ∧
       (∀ i, position res.2 this i = position s this i) ∧
       trace res.2 = trace s ++ oks (OpConstruct <$> args)
  else res.1 = Throw ElemFailure ∧
       ∃ j, j < length args ∧
            vector_view res.2 this = Some (xs ++ (construct_value <$> take j args), cap).
Proof. intros Hview Hfit. by apply push_all_in_capacity. Qed.


End Stability.

Section RoundTrips.

Context {E : Elem}.

Implicit Types (s : state) (h : gmap block (list (slot T))).
Implicit Types (vm : gmap loc Vector) (t : list (event T Args)).
Implicit Types (l pre post : list (slot T)) (xs ys : list T).

Lemma PushBack_EmplaceBack_bind {A} s this arg (k : unit → M A) :
  bind (PushBack this arg) k s
  = match EmplaceBack this arg s with
    | (Ok _, s') => k tt s'
    | (Throw e, s') => (Throw e, s')
    | (Undefined, s') => (Undefined, s')
    end.
Proof. unfold PushBack, bind. by destruct (EmplaceBack this arg s) as [[p|e|] s']. Qed.

(** X14: [Swap] exchanges what two vectors hold (elements, capacity and
    storage block) without touching the store or any element, and swapping
    twice gives back the state it started from; a vector swapped with itself
    is unchanged. *)
Theorem swap_exchanges s this other a b :
  vecs s !! this = Some a → vecs s !! other = Some b →
  let res := Swap this other s in
  res.1 = Ok tt ∧
  heap res.2 = heap s ∧ trace res.2 = trace s ∧
  vecs res.2 !! this = Some b ∧ vecs res.2 !! other = Some a ∧
  vector_view res.2 this = vector_view s other ∧
  vector_view res.2 other = vector_view s this ∧
  owned_block res.2 this = owned_block s other ∧
  owned_block res.2 other = owned_block s this ∧
  bind (Swap this other) (λ _, Swap this other) s = (Ok tt, s).
Proof.
  destruct s as [h vm t]. intros Ha Hb res. subst res. cbn [heap vecs trace] in *.
  destruct (decide (this = other)) as [->|Hne].
  - rewrite Ha in Hb. injection Hb as <-.
    erewrite bind_ok; [|by eapply Swap_self].
    rewrite (Swap_self _ _ _ _ _ Ha). done.
  - erewrite bind_ok; [|by eapply Swap_ok].
    rewrite (Swap_ok _ _ _ _ _ _ _ Ha Hb Hne). cbn [fst snd heap vecs trace].
    assert (H1 : <[other := a]> (<[this := b]> vm) !! this = Some b)
      by (by rewrite lookup_insert_ne, lookup_insert_eq).
    assert (H2 : <[other := a]> (<[this := b]> vm) !! other = Some a)
      by (by rewrite lookup_insert_eq).
    do 3 (split; [done|]). split; [done|]. split; [done|].
    split; [apply vector_view_ext; cbn [vecs]; [by rewrite H1|done]|].
    split; [apply vector_view_ext; cbn [vecs]; [by rewrite H2|done]|].
    split; [unfold owned_block; cbn [vecs]; by rewrite H1, Hb|].
    split; [unfold owned_block; cbn [vecs]; by rewrite H2, Ha|].
    rewrite (Swap_ok _ _ _ _ _ _ _ H1 H2 Hne). do 2 f_equal.
    apply map_eq. intros k.
    destruct (decide (k = other)) as [->|Hk1]; [by rewrite lookup_insert_eq|].
    rewrite lookup_insert_ne by done.
    destruct (decide (k = this)) as [->|Hk2]; [by rewrite lookup_insert_eq|].
    by rewrite !lookup_insert_ne.
Qed.

(** X15: a push followed by [PopBack], when nothing throws, gives back the
    elements the vector had; the capacity is the grown one when the push had
    to reallocate, and the value pushed is the last thing destroyed. *)
Theorem push_then_pop_restores s this xs cap arg v :
  vector_view s this = Some (xs, cap) →
  arg_value s this arg = Some v →
  let cap' := if (N.of_nat (length xs) =? cap)%N then N.max 1 (2 * cap) else cap in
  (cap' ≤ max_slots)%N →
  quiet (trace s) (emplace_ops xs cap (length xs) v arg) = true →
  let res := bind (PushBack this arg) (λ _, PopBack this) s in
  res.1 = Ok tt ∧
  vector_view res.2 this = Some (xs, cap') ∧
  trace res.2 = trace s ++ oks (emplace_ops xs cap (length xs) v arg)
                        ++ emplace_cleanup xs cap (length xs) v
                        ++ [(OpDestroy v, false)].
Proof.
  intros Hview Hv cap' Hcap' Hq res. subst res.
  destruct (EmplaceBack_quiet s this xs cap arg v Hview Hv Hcap' Hq) as (H1 & H2 & H3).
  fold cap' in H2. rewrite PushBack_EmplaceBack_bind.
  destruct (EmplaceBack this arg s) as [o s1] eqn:HE. cbn [fst snd] in *. subst o.
  destruct (PopBack_spec s1 this xs v cap' H2) as (P1 & P2 & _ & P4).
  cbn [fst snd]. split; [done|]. split; [done|]. rewrite P4, H3. by rewrite <- !app_assoc.
Qed.

(** X16: inserting a value at index [i] and erasing at the returned
    iterator, when nothing throws, gives back the elements the vector had, in
    their order; the capacity is the grown one when the insertion had to
    reallocate. *)
Theorem emplace_then_erase_restores s this xs cap i arg v :
  vector_view s this = Some (xs, cap) →
  i ≤ length xs →
  arg_value s this arg = Some v →
  let cap' := if (N.of_nat (length xs) =? cap)%N then N.max 1 (2 * cap) else cap in
  (cap' ≤ max_slots)%N →
  quiet (trace s) (emplace_ops xs cap i v arg) = true →
  let r1 := Emplace this (position s this i) arg s in
  quiet (trace r1.2) (erase_ops v (drop i xs)) = true →
  ∃ p, r1.1 = Ok p ∧
       (Erase this p r1.2).1 = Ok p ∧
       vector_view (Erase this p r1.2).2 this = Some (xs, cap').
Proof.
  intros Hview Hi Hv cap' Hcap' Hq r1 Hq2.
  destruct (Emplace_spec s this xs cap i arg v Hview Hi Hv Hcap' Hq) as (H1 & H2 & _).
  fold r1 in H1, H2. fold cap' in H2.
  exists (position r1.2 this i). split; [done|].
  assert (Hx : (take i xs ++ v :: drop i xs) !! i = Some v).
  { rewrite lookup_app_r by (rewrite length_take; lia).
    rewrite length_take. by replace (i - i `min` length xs) with 0 by lia. }
  assert (Hws : drop (S i) (take i xs ++ v :: drop i xs) = drop i xs).
  { rewrite drop_app_ge by (rewrite length_take; lia).
    rewrite length_take. by replace (S i - i `min` length xs) with 1 by lia. }
  assert (Htk : take i (take i xs ++ v :: drop i xs) = take i xs).
  { rewrite take_app_le by (rewrite length_take; lia).
    rewrite take_take. f_equal. lia. }
  pose proof (Erase_spec r1.2 this _ cap' i v H2 Hx) as H. cbv zeta in H.
  rewrite Hws, Hq2, Htk in H. destruct H as (E1 & _ & E3 & _).
  split; [done|]. by rewrite take_drop in E3.
Qed.

(** X17: a position that is not one of the vector's is stopped by the
    assertion before anything is touched: [Erase] at [end()] or beyond (so
    every [Erase] on an empty vector), [Emplace] beyond [end()], and both at a
    pointer into another block. *)
Theorem positions_out_of_range s this xs cap arg :
  vector_view s this = Some (xs, cap) →
  (∀ i, length xs ≤ i → Erase this (position s this i) s = (Undefined, s)) ∧
  (∀ i, length xs < i → cap ≠ 0%N →
        Emplace this (position s this i) arg s = (Undefined, s)) ∧
  (∀ b b' off, owned_block s this = Some b → b' ≠ b →
        Erase this (Ptr b' off) s = (Undefined, s) ∧
        Emplace this (Ptr b' off) arg s = (Undefined, s)).
Proof.
  destruct s as [h vm t]. intros Hview.
  pose proof Hview as (buf & Hvm & Hle & Hmax & Hbuf)%vector_view_inv.
  cbn [heap vecs trace] in *.
  split; [|split].
  - intros i Hi. unfold Erase, position. cbn [vecs]. rewrite Hvm.
    erewrite bind_ok; [|by apply get_vec_ok]. cbn [data_ size_ GetAddress buffer_].
    destruct buf as [|b off]; [done|]. destruct Hbuf as (-> & _ & _).
    cbn [ptr_add ptr_le ptr_lt]. rewrite !decide_True by done. rewrite !N.add_0_l.
    destruct (N.leb_spec 0 (N.of_nat i)) as [_|]; [|lia]. cbn [assert_opt].
    erewrite bind_ok; [|reflexivity].
    destruct (N.ltb_spec (N.of_nat i) (N.of_nat (length xs))) as [|_]; [lia|]. done.
  - intros i Hi Hc0. unfold Emplace, position. cbn [vecs]. rewrite Hvm.
    erewrite bind_ok; [|by apply get_vec_ok]. cbn [data_ size_ GetAddress buffer_].
    destruct buf as [|b off]; [done|]. destruct Hbuf as (-> & _ & _).
    cbn [ptr_add ptr_le]. rewrite !decide_True by done. rewrite !N.add_0_l.
    destruct (N.leb_spec 0 (N.of_nat i)) as [_|]; [|lia]. cbn [assert_opt].
    erewrite bind_ok; [|reflexivity].
    destruct (N.leb_spec (N.of_nat i) (N.of_nat (length xs))) as [|_]; [lia|]. done.
  - intros b b' off Hown Hne. unfold owned_block in Hown. cbn [vecs] in Hown.
    rewrite Hvm in Hown. cbn [data_ buffer_] in Hown.
    destruct buf as [|b0 off0]; [done|]. injection Hown as ->.
    split.
    + unfold Erase. erewrite bind_ok; [|by apply get_vec_ok].
      cbn [data_ size_ GetAddress buffer_ ptr_le]. by rewrite decide_False by done.
    + unfold Emplace. erewrite bind_ok; [|by apply get_vec_ok].
      cbn [data_ size_ GetAddress buffer_ ptr_le]. by rewrite decide_False by done.
Qed.

End RoundTrips.

Section EmplaceFailures.

Context {E : Elem}.

Implicit Types (s : state) (h : gmap block (list (slot T))).
Implicit Types (vm : gmap loc Vector) (t : list (event T Args)).
Implicit Types (l pre post : list (slot T)) (xs ys ws : list T).

Lemma scope_throw {A} (hd : M unit) (m : M A) s e s' s'' :
  m s = (Throw e, s') → hd s' = (Ok tt, s'') → scope hd m s = (Throw e, s'').
Proof.
  intros Hm Hh. unfold scope. erewrite bind_throw; [done|]. by eapply on_unwind_throw.
Qed.

(** [Emplace] before the end of a vector with room left, when the
    construction of the new value, the construction of the new last element,
    or the final assignment of the new value throws. *)
Lemma Emplace_in_capacity_fails h vm t this b cap xs1 ws z arg v :
  let xs := xs1 ++ ws ++ [z] in
  let n := N.of_nat (length xs) in
  let i := N.of_nat (length xs1) in
  let t1 := t ++ [(arg_op v arg, false)] in
  let t2 := t1 ++ [(OpMove z, false)] in
  let t3 := t2 ++ oks (move_chain (moved_from z) (rev ws)) in
  let d := move_residue (moved_from z) (rev ws) in
  let res := Emplace this (Ptr b i) arg (mkState h vm t) in
  vm !! this = Some (mkVector (mkRawMemory (Ptr b 0) cap) n) →
  (n < cap)%N → (cap ≤ max_slots)%N →
  h !! b = Some (slots_of xs cap) →
  arg_source h arg = Some v →
  (∀ bs os, arg = ByMove (Ptr bs os) → bs ≠ b) →
  if throws t (arg_op v arg)
  then res = (Throw ElemFailure, mkState h vm (t ++ [(arg_op v arg, true)]))
  else if throws t1 (OpMove z)
  then ∃ h', res = (Throw ElemFailure,
                    mkState h' vm (t1 ++ [(OpMove z, true); (OpDestroy v, false)])) ∧
             h' !! b = Some (slots_of xs cap)
  else quiet t2 (move_chain (moved_from z) (rev ws)) = true →
       throws t3 (OpMoveAssign d v) = true →
       ∃ h', res = (Throw ElemFailure,
                    mkState h' vm (t3 ++ [(OpMoveAssign d v, true); (OpDestroy v, false)])) ∧
             h' !! b = Some ((Live <$> xs1) ++ Live d :: (Live <$> ws) ++ Live z
                             :: replicate (N.to_nat cap - S (length xs)) Raw).
Proof.
  intros xs n i t1 t2 t3 d res Hvm Hn Hmax Hb Hv Hali. subst res.
  pose proof max_slots_lt_modulus as Hmod.
  assert (Hlenxs : length xs = length xs1 + length ws + 1).
  { unfold xs. rewrite !length_app. simpl. lia. }
  assert (Hnn : N.to_nat n = length xs1 + length ws + 1) by (unfold n; lia).
  assert (Hi : N.to_nat i = length xs1) by (unfold i; lia).
  set (post := replicate (N.to_nat cap - S (length xs)) (@Raw T)).
  assert (Hb0 : h !! b = Some (((Live <$> xs1) ++ (Live <$> ws)) ++ Live z :: Raw :: post)).
  { rewrite Hb. unfold slots_of, xs, post. rewrite !fmap_app, <- !app_assoc. cbn [app fmap list_fmap].
    do 4 f_equal. rewrite !length_app. simpl.
    replace (N.to_nat cap - (length xs1 + (length ws + 1)))
      with (S (N.to_nat cap - S (length xs1 + (length ws + 1)))) by lia.
    simpl. rewrite Hlenxs. do 2 f_equal. lia. }
  clearbody n i.
  set (bn := fresh (dom h)).
  assert (Hbn : h !! bn = None) by apply fresh_block_None.
  assert (Hbbn : bn ≠ b) by congruence.
  unfold Emplace.
  erewrite bind_ok; [|by apply get_vec_ok].
  cbn [data_ size_ capacity_ GetAddress buffer_ ptr_add ptr_le ptr_diff assert_opt ptr_prev].
  rewrite !decide_True by done. rewrite !N.add_0_l.
  destruct (N.eqb_spec n 0) as [|_]; [lia|].
  destruct (N.leb_spec 0 i) as [_|]; [|lia].
  destruct (N.leb_spec i n) as [_|]; [|lia].
  erewrite bind_ok; [|reflexivity]. erewrite bind_ok; [|reflexivity].
  rewrite size_sub_small by lia. cbn [lift_opt]. erewrite bind_ok; [|reflexivity].
  rewrite N.sub_0_r.
  destruct (N.eqb_spec n i) as [|_]; [lia|].
  destruct (N.eqb_spec n cap) as [|_]; [lia|].
  erewrite bind_ok; [|reflexivity]. fold bn.
  set (h1 := <[bn := [Raw]]> h).
  assert (H1bn : h1 !! bn = Some ([] ++ Raw :: [])) by (by unfold h1; rewrite lookup_insert_eq).
  assert (Hv1 : arg_source h1 arg = Some v) by (by apply arg_source_insert_fresh).
  assert (Hali' : ∀ bs os, arg = ByMove (Ptr bs os) → bs ≠ bn).
  { intros bs os Harg ->. destruct (arg_source_block _ _ _ _ _ Hv Harg) as [? ?]. congruence. }
  pose proof (construct_at_arg h1 vm t bn 0 _ _ arg v H1bn eq_refl Hv1 Hali') as Hc.
  destruct (throws t (arg_op v arg)) eqn:Ht.
  { erewrite bind_throw; [done|].
    eapply on_unwind_throw; [exact Hc|].
    erewrite Deallocate_ok; [|exact H1bn]. unfold h1. by rewrite delete_insert_id. }
  cbn [app] in Hc.
  set (h2 := after_arg arg v _) in Hc.
  assert (H2bn : h2 !! bn = Some ([] ++ Live v :: [])).
  { unfold h2. rewrite after_arg_lookup_ne by done. by rewrite lookup_insert_eq. }
  assert (H2b : h2 !! b = Some (((Live <$> xs1) ++ (Live <$> ws)) ++ Live z :: Raw :: post)).
  { unfold h2, h1. rewrite after_arg_lookup_ne by done.
    by rewrite !lookup_insert_ne by done. }
  erewrite bind_ok; [|by apply on_unwind_ok]. fold t1.
  opose proof (construct_at_move_up h2 vm t1 b (n - 1) _ _ z H2b _) as Hm.
  { rewrite length_app, !length_fmap. lia. }
  replace (n - 1 + 1)%N with n in Hm by lia.
  destruct (throws t1 (OpMove z)) eqn:Hz.
  { eexists. split.
    - eapply scope_throw.
      + erewrite bind_ok; [|by apply RawMemory_plus_ok; lia].
        cbn [ptr_add]. rewrite N.add_0_l.
        erewrite bind_throw; [reflexivity|exact Hm].
      + erewrite bind_ok; cycle 1.
        { eapply (destroy_at_ok _ _ _ _ _ [] []); [exact H2bn|done]. }
        erewrite Deallocate_ok; [|by rewrite lookup_insert_eq].
        rewrite <- app_assoc. reflexivity.
    - rewrite lookup_delete_ne by done. rewrite lookup_insert_ne by done.
      rewrite H2b, <- Hb0. exact Hb. }
  intros Hq Hf. fold t2 in Hm.
  set (h3 := <[b := ((Live <$> xs1) ++ (Live <$> ws)) ++ Live (moved_from z) :: Live z :: post]> h2)
    in *.
  opose proof (move_backward_loop_up vm b (Live <$> xs1) (rev ws) (moved_from z)
                 (Live z :: post) h3 t2 (n - 1) _ _ Hq) as Hs.
  { unfold h3. rewrite lookup_insert_eq. rewrite rev_involutive, <- !app_assoc. done. }
  { rewrite length_fmap, length_rev. lia. }
  replace (n - 1 + 1)%N with n in Hs by lia.
  rewrite length_rev, rev_involutive in Hs. fold d t3 in Hs.
  set (h4 := <[b := (Live <$> xs1) ++ Live d :: (Live <$> ws) ++ Live z :: post]> h3) in *.
  opose proof (move_assign_at_across h4 vm t3 b bn i 0 (Live <$> xs1) _ [] [] d v Hbbn _ _ _ eq_refl)
    as Hf'.
  { unfold h4. by rewrite lookup_insert_eq. }
  { by rewrite length_fmap. }
  { unfold h4, h3. rewrite !lookup_insert_ne by done. exact H2bn. }
  rewrite Hf in Hf'.
  eexists. split.
  - eapply scope_throw.
    + erewrite bind_ok; [|by apply RawMemory_plus_ok; lia].
      cbn [ptr_add]. rewrite N.add_0_l.
      erewrite bind_ok; [|exact Hm].
      erewrite bind_ok; cycle 1.
      { apply on_unwind_ok. unfold move_backward.
        rewrite distance_same_block by lia. cbn [lift_opt].
        erewrite bind_ok; [|reflexivity].
        replace (N.to_nat (n - 1 - i)) with (length ws) by lia.
        exact Hs. }
      erewrite bind_throw; [reflexivity|exact Hf'].
    + erewrite bind_ok; cycle 1.
      { eapply (destroy_at_ok _ _ _ _ _ [] []); [|done].
        unfold h4, h3. rewrite !lookup_insert_ne by done. exact H2bn. }
      erewrite Deallocate_ok; [|by rewrite lookup_insert_eq].
      rewrite <- app_assoc. reflexivity.
  - rewrite lookup_delete_ne by done. rewrite lookup_insert_ne by done.
    unfold h4. by rewrite lookup_insert_eq.
Qed.

(** X18: [Emplace] before the end of a vector with room left, when
    something throws outside the shift. A throwing construction of the new
    value or of the new last element propagates with the vector as it was. A
    throwing final assignment of the new value propagates after the shift:
    the size is not incremented, the copy of the old last element that was
    built in the slot behind the size is not destroyed, and the temporary
    value is. *)
Theorem emplace_with_room_failures s this xs1 ws z cap arg v :
  let xs := xs1 ++ ws ++ [z] in
  vector_view s this = Some (xs, cap) →
  (N.of_nat (length xs) < cap)%N →
  arg_value s this arg = Some v →
  let t1 := trace s ++ [(arg_op v arg, false)] in
  let t2 := t1 ++ [(OpMove z, false)] in
  let t3 := t2 ++ oks (move_chain (moved_from z) (rev ws)) in
  let d := move_residue (moved_from z) (rev ws) in
  let res := Emplace this (position s this (length xs1)) arg s in
  if throws (trace s) (arg_op v arg)
  then res = (Throw ElemFailure,
              mkState (heap s) (vecs s) (trace s ++ [(arg_op v arg, true)]))
  else if throws t1 (OpMove z)
  then res.1 = Throw ElemFailure ∧ vecs res.2 = vecs s ∧
       vector_view res.2 this = Some (xs, cap) ∧
       trace res.2 = t1 ++ [(OpMove z, true); (OpDestroy v, false)]
  else quiet t2 (move_chain (moved_from z) (rev ws)) = true →
       throws t3 (OpMoveAssign d v) = true →
       res.1 = Throw ElemFailure ∧ vecs res.2 = vecs s ∧
       Size this res.2 = (Ok (N.of_nat (length xs)), res.2) ∧
       live_at (heap res.2) (position res.2 this (length xs)) = Some z ∧
       vector_view res.2 this = None ∧
       trace res.2 = t3 ++ [(OpMoveAssign d v, true); (OpDestroy v, false)].
Proof.
  destruct s as [h vm t]. intros xs Hview Hlt Hv t1 t2 t3 d res. subst res.
  pose proof (arg_value_source _ _ _ _ _ _ Hv) as Hsrc.
  pose proof Hview as (b & Hvm & Hle & Hmax & Hb)%vector_view_nonempty; [|lia].
  cbn [heap vecs trace] in *.
  pose proof (Emplace_in_capacity_fails h vm t this b cap xs1 ws z arg v Hvm Hlt Hmax
                Hb Hsrc (arg_value_alias _ _ _ _ _ _ _ _ _ Hv Hvm)) as H.
  cbv zeta in H. fold xs t1 t2 t3 d in H.
  assert (Hpos : ∀ j, position (mkState h vm t) this j = Ptr b (N.of_nat j)).
  { intros j. unfold position. cbn [vecs]. rewrite Hvm. cbn [data_ GetAddress buffer_ ptr_add].
    by rewrite N.add_0_l. }
  rewrite Hpos. destruct (throws t (arg_op v arg)); [done|].
  destruct (throws t1 (OpMove z)).
  - destruct H as (h' & -> & Hb'). cbn [fst snd vecs trace].
    do 2 (split; [done|]). split; [|done].
    eapply vector_view_intro_ptr; cbn [vecs heap]; try done. lia.
  - intros Hq Hf. destruct (H Hq Hf) as (h' & -> & Hb'). cbn [fst snd vecs trace heap].
    set (t4 := t3 ++ [(OpMoveAssign d v, true); (OpDestroy v, false)]).
    assert (Hsize : Size this (mkState h' vm t4)
                    = (Ok (N.of_nat (length xs)), mkState h' vm t4)).
    { unfold Size. by erewrite bind_ok; [|by apply get_vec_ok]. }
    assert (Hlive : live_at h' (Ptr b (N.of_nat (length xs))) = Some z).
    { unfold live_at. rewrite Hb', Nat2N.id.
      assert (Hlen : length xs = length ((Live <$> xs1) ++ Live d :: (Live <$> ws))).
      { unfold xs. repeat (rewrite ?length_app, ?length_fmap; cbn [length]). lia. }
      assert (Hl : ∀ p, (Live <$> xs1) ++ Live d :: (Live <$> ws) ++ Live z :: p
                        = ((Live <$> xs1) ++ Live d :: (Live <$> ws)) ++ Live z :: p)
        by (intros p; by rewrite <- app_assoc).
      rewrite Hl. by rewrite (list_lookup_middle _ _ _ _ Hlen). }
    do 2 (split; [done|]). split; [done|].
    split.
    { unfold position. cbn [vecs]. rewrite Hvm. cbn [data_ GetAddress buffer_ ptr_add].
      by rewrite N.add_0_l. }
    split; [|done].
    destruct (vector_view (mkState h' vm t4) this) as [[ys c]|] eqn:Hv'; [exfalso|done].
    pose proof (view_live_at _ _ _ _ (length xs) Hv') as Hl.
    pose proof Hv' as (buf & Hvm' & _)%vector_view_inv. cbn [vecs heap] in *.
    rewrite Hvm in Hvm'. injection Hvm' as _ _ Hlen.
    unfold position in Hl. cbn [vecs] in Hl. rewrite Hvm in Hl.
    cbn [data_ GetAddress buffer_ ptr_add] in Hl. rewrite N.add_0_l, Hlive in Hl.
    symmetry in Hl. apply lookup_lt_Some in Hl. lia.
Qed.

End EmplaceFailures.

Section Compositions.

Context {E : Elem}.

Implicit Types (s : state) (h : gmap block (list (slot T))).
Implicit Types (vm : gmap loc Vector) (t : list (event T Args)).
Implicit Types (l pre post : list (slot T)) (xs ys ws : list T).

(** X19: [Reserve] is idempotent, and a smaller request after it does
    nothing: whatever the first call did (returned, or failed in the
    allocation or in the migration), following it by [Reserve m] with
    [m <= n] gives the outcome and the state of the first call alone. *)
Theorem reserve_again_is_noop s this xs cap (n m : N) :
  vector_view s this = Some (xs, cap) →
  (m ≤ n)%N →
  bind (Reserve this n) (λ _, Reserve this m) s = Reserve this n s.
Proof.
  intros Hview Hm.
  pose proof (Reserve_spec s this xs cap n Hview) as H. cbv zeta in H.
  destruct (N.leb_spec n cap) as [Hle|Hgt].
  - erewrite bind_ok; [|exact H]. rewrite H.
    pose proof (Reserve_spec s this xs cap m Hview) as H'. cbv zeta in H'.
    destruct (N.leb_spec m cap) as [|]; [done|lia].
  - destruct (_ || _).
    { rewrite H. by erewrite bind_throw. }
    destruct (quiet _ _).
    + destruct H as (Hok & Hview' & _).
      destruct (Reserve this n s) as [o s1] eqn:HR. cbn [fst snd] in *. subst o.
      erewrite bind_ok; [|exact HR].
      pose proof (Reserve_spec s1 this xs n m Hview') as H'. cbv zeta in H'.
      destruct (N.leb_spec m n) as [|]; [done|lia].
    + destruct H as (Hthrow & _).
      destruct (Reserve this n s) as [o s1] eqn:HR. cbn [fst snd] in *. subst o.
      by erewrite bind_throw.
Qed.

(** X20: moving a vector into a new object and then destroying both the
    moved-from source and the new object ends in the state that destroying
    the original vector gives: every element is destroyed once and the block
    is released once. *)
Theorem move_then_destroy_both s new rhs ys cy :
  vector_view s rhs = Some (ys, cy) →
  vecs s !! new = None →
  bind (Vector_move_ctor new rhs)
       (λ _, bind (Vector_dtor rhs) (λ _, Vector_dtor new)) s
  = Vector_dtor rhs s.
Proof.
  destruct s as [h vm t]. intros Hview Hnew.
  pose proof Hview as (buf & Hvm & _)%vector_view_inv. cbn [heap vecs trace] in *.
  assert (Hne : new ≠ rhs) by (intros ->; by rewrite Hvm in Hnew).
  rewrite (Vector_dtor_spec _ _ _ _ Hview). cbn [heap vecs trace].
  unfold Vector_move_ctor, Vector_default_ctor.
  erewrite bind_ok; cycle 1.
  { erewrite bind_ok; [|apply put_vec_ok].
    eapply Swap_ok; [by apply lookup_insert_eq|by rewrite lookup_insert_ne|done]. }
  set (vm1 := <[rhs := _]> (<[new := _]> (<[new := _]> vm))).
  set (s1 := mkState h vm1 t).
  assert (Hv1 : vector_view s1 rhs = Some ([], 0%N)).
  { apply vector_view_intro_null. subst s1 vm1. cbn [vecs]. by rewrite lookup_insert_eq. }
  erewrite bind_ok; [|by apply (Vector_dtor_spec s1 rhs [] 0)].
  assert (Hown1 : owned_block s1 rhs = None).
  { unfold owned_block. subst s1 vm1. cbn [vecs]. by rewrite lookup_insert_eq. }
  rewrite Hown1. subst s1. cbn [heap vecs trace].
  unfold destroys at 1. cbn [fmap list_fmap]. rewrite app_nil_r.
  set (s2 := mkState h (delete rhs vm1) t).
  assert (Hv2 : vector_view s2 new = Some (ys, cy)).
  { rewrite <- Hview. apply vector_view_ext; [|done]. subst s2 vm1. cbn [vecs].
    rewrite lookup_delete_ne, lookup_insert_ne, lookup_insert_eq by done. by rewrite Hvm. }
  rewrite (Vector_dtor_spec s2 new ys cy Hv2).
  assert (Hown2 : owned_block s2 new = owned_block (mkState h vm t) rhs).
  { unfold owned_block. subst s2 vm1. cbn [vecs].
    rewrite lookup_delete_ne, lookup_insert_ne, lookup_insert_eq by done. by rewrite Hvm. }
  rewrite Hown2. subst s2. cbn [heap vecs trace]. do 2 f_equal.
  subst vm1. apply map_eq. intros k.
  destruct (decide (k = new)) as [->|Hk1].
  { rewrite lookup_delete_eq, lookup_delete_ne by done. done. }
  rewrite lookup_delete_ne by done.
  destruct (decide (k = rhs)) as [->|Hk2]; [by rewrite !lookup_delete_eq|].
  by rewrite !lookup_delete_ne, !lookup_insert_ne by done.
Qed.

(** X21: a copy outlives its source. After a copy assignment during which
    nothing fails, destroying the source leaves the target with the copied
    elements. *)
Theorem copy_outlives_source s this rhs xs cx ys cy :
  this ≠ rhs →
  vector_view s this = Some (xs, cx) →
  vector_view s rhs = Some (ys, cy) →
  storage_disjoint s this rhs = true →
  quiet (trace s) (copy_assign_ops xs cx ys) = true →
  let cx' := if (cx <? N.of_nat (length ys))%N then N.of_nat (length ys) else cx in
  let res := bind (Vector_copy_assign this rhs) (λ _, Vector_dtor rhs) s in
  res.1 = Ok tt ∧
  vector_view res.2 this = Some (ys, cx') ∧
  vecs res.2 !! rhs = None.
Proof.
  intros Hne Hx Hy Hdis Hq cx' res. subst res.
  pose proof (Copy_assign_spec s this rhs xs cx ys cy Hne Hx Hy Hdis) as H. cbv zeta in H.
  rewrite Hq in H. fold cx' in H. destruct H as (Hok & Hx' & Hy' & Hdis' & _).
  destruct (Vector_copy_assign this rhs s) as [o s1] eqn:HC. cbn [fst snd] in *. subst o.
  erewrite bind_ok; [|exact HC]. rewrite (Vector_dtor_spec s1 rhs ys cy Hy').
  cbn [fst snd vecs]. split; [done|]. split; [|by apply lookup_delete_eq].
  rewrite <- Hx'. apply vector_view_frame; cbn [vecs heap].
  - by rewrite lookup_delete_ne.
  - intros b Hb. destruct (owned_block s1 rhs) as [br|] eqn:Hbr; [|done].
    rewrite lookup_delete_ne; [done|]. intros ->.
    by eapply (storage_disjoint_blocks s1 this rhs).
Qed.

(** X22: a vector's own element can be inserted into it by reference. With
    [value] the address of the element at index [j], [Insert] at index [i]
    puts a copy of that element at [i], also when the insertion reallocates
    or shifts the element away first; at [i = size] this is
    [PushBack] of an own element. *)
Theorem insert_own_element s this xs cap i j x :
  vector_view s this = Some (xs, cap) →
  i ≤ length xs →
  xs !! j = Some x →
  let value := position s this j in
  let cap' := if (N.of_nat (length xs) =? cap)%N then N.max 1 (2 * cap) else cap in
  (cap' ≤ max_slots)%N →
  quiet (trace s) (emplace_ops xs cap i x (ByCopy value)) = true →
  let res := Insert this (position s this i) value s in
  res.1 = Ok (position res.2 this i) ∧
  vector_view res.2 this = Some (take i xs ++ x :: drop i xs, cap').
Proof.
  intros Hview Hi Hj value cap' Hcap' Hq res. subst res.
  assert (Hv : arg_value s this (ByCopy value) = Some x).
  { cbn [arg_value arg_source]. subst value. by eapply view_position. }
  destruct (Emplace_spec s this xs cap i (ByCopy value) x Hview Hi Hv Hcap' Hq)
    as (H1 & H2 & _).
  done.
Qed.

(** X25: [begin()] and [end()] delimit the elements: [end()] is [size()]
    steps after [begin()], the steps in between address the elements in
    order, and [end()] itself addresses no element. *)
Theorem begin_end_range s this xs cap :
  vector_view s this = Some (xs, cap) →
  vbegin this s = (Ok (position s this 0), s) ∧
  vend this s = (Ok (position s this (length xs)), s) ∧
  distance (position s this 0) (position s this (length xs)) = Some (N.of_nat (length xs)) ∧
  (∀ i, position s this i = ptr_add (position s this 0) (N.of_nat i)) ∧
  (∀ i, live_at (heap s) (position s this i) = xs !! i) ∧
  live_at (heap s) (position s this (length xs)) = None.
Proof.
  intros Hview. pose proof max_slots_lt_modulus as Hmod.
  pose proof Hview as (buf & Hvm & Hle & Hmax & Hbuf)%vector_view_inv.
  split.
  { destruct s as [h vm t]. cbn [vecs] in Hvm. unfold vbegin, position. cbn [vecs].
    rewrite Hvm. erewrite bind_ok; [|by apply get_vec_ok].
    cbn [data_ GetAddress buffer_]. destruct buf; [done|]. cbn [ptr_add]. by rewrite N.add_0_r. }
  split; [by eapply view_vend|].
  split.
  { unfold position. rewrite Hvm. cbn [data_ GetAddress buffer_].
    destruct buf as [|b off].
    - subst cap. by assert (xs = []) as -> by (destruct xs; [done|simpl in Hle; lia]).
    - destruct Hbuf as (-> & _). cbn [ptr_add]. rewrite distance_same_block by lia.
      f_equal. lia. }
  split.
  { intros i. unfold position. rewrite Hvm. cbn [data_ GetAddress buffer_].
    destruct buf; [done|]. cbn [ptr_add]. f_equal. lia. }
  split; [intros i; by eapply view_live_at|].
  rewrite (view_live_at _ _ _ _ _ Hview). by apply lookup_ge_None_2.
Qed.

End Compositions.

Section Rollback.

Context {E : Elem}.

Implicit Types (s : state) (h : gmap block (list (slot T))).
Implicit Types (vm : gmap loc Vector) (t : list (event T Args)).
Implicit Types (l pre post : list (slot T)) (xs ys ws made : list T).

(** A failing [std::uninitialized_copy_n], event by event. *)
Lemma uninitialized_copy_loop_fail vm bs bd pre post spost (d0 : N) xs :
  ∀ made spre h t (fo co : N),
  bs ≠ bd →
  h !! bs = Some (spre ++ (Live <$> xs) ++ spost) → N.to_nat fo = length spre →
  h !! bd = Some (pre ++ (Live <$> made) ++ replicate (length xs) Raw ++ post) →
  N.to_nat d0 = length pre → N.to_nat co = length pre + length made →
  (co + N.of_nat (length xs) < size_t_modulus)%N →
  quiet t (OpCopy <$> xs) = false →
  let j := quiet_prefix t (OpCopy <$> xs) in
  uninitialized_copy_loop (Ptr bd d0) (Ptr bs fo) (Ptr bd co) (length xs) (mkState h vm t)
  = (Throw ElemFailure,
     mkState (<[bd := pre ++ replicate (length made + length xs) Raw ++ post]> h) vm
       (t ++ oks (OpCopy <$> take j xs)
          ++ match xs !! j with Some x => [(OpCopy x, true)] | None => [] end
          ++ destroys (made ++ take j xs))).
Proof.
  induction xs as [|x xs IH]; intros made spre h t fo co Hne Hs Hfo Hd Hd0 Hco Hlt Hq j;
    [done|].
  subst j. simpl in Hs, Hd. rewrite fmap_cons in *.
  cbn [uninitialized_copy_loop quiet quiet_prefix length] in *.
  assert (Hd' : h !! bd = Some ((pre ++ (Live <$> made)) ++ Raw :: replicate (length xs) Raw ++ post))
    by (by rewrite <- app_assoc).
  assert (Hco' : N.to_nat co = length (pre ++ (Live <$> made)))
    by (by rewrite length_app, length_fmap).
  pose proof (construct_at_copy h vm t bd co _ _ bs fo _ x Hd' Hco' Hs
                (list_lookup_middle _ _ _ _ Hfo)) as Hc.
  destruct (throws t (OpCopy x)) eqn:Ht.
  - cbn [take fmap list_fmap oks app lookup list_lookup].
    erewrite bind_throw; [reflexivity|].
    eapply on_unwind_throw; [exact Hc|].
    erewrite (destroy_ok made); [|exact Hd|done|lia|lia].
    rewrite app_nil_r, <- app_assoc. do 3 f_equal.
    rewrite replicate_add. simpl. by rewrite <- app_assoc.
  - cbn [negb andb] in Hq.
    opose proof (IH (made ++ [x]) (spre ++ [Live x])
                    (<[bd := (pre ++ (Live <$> made)) ++ Live x :: replicate (length xs) Raw ++ post]> h)
                    (t ++ [(OpCopy x, false)]) (fo + 1)%N (co + 1)%N Hne _ _ _ Hd0 _ _ Hq) as IH'.
    + rewrite lookup_insert_ne by done. by rewrite <- app_assoc.
    + rewrite length_app. simpl. lia.
    + rewrite lookup_insert_eq. rewrite fmap_app, <- !app_assoc. done.
    + rewrite length_app. simpl. lia.
    + lia.
    + cbv zeta in IH'.
      erewrite bind_ok; [|apply on_unwind_ok, Hc].
      cbn [ptr_add]. rewrite IH'. rewrite insert_insert_eq.
      cbn [take lookup list_lookup]. rewrite fmap_cons. unfold oks at 2. rewrite fmap_cons.
      fold (oks (OpCopy <$> take (quiet_prefix (t ++ [(OpCopy x, false)]) (OpCopy <$> xs)) xs)).
      rewrite <- !app_assoc. cbn [app].
      replace (length (made ++ [x]) + length xs) with (length made + S (length xs))
        by (rewrite length_app; simpl; lia).
      done.
Qed.

Lemma uninitialized_copy_n_fail h vm t bs bd (fo d0 n : N) pre post spre spost xs :
  bs ≠ bd →
  h !! bs = Some (spre ++ (Live <$> xs) ++ spost) → N.to_nat fo = length spre →
  h !! bd = Some (pre ++ replicate (length xs) Raw ++ post) → N.to_nat d0 = length pre →
  N.to_nat n = length xs → (d0 + n < size_t_modulus)%N →
  quiet t (OpCopy <$> xs) = false →
  uninitialized_copy_n (Ptr bs fo) n (Ptr bd d0) (mkState h vm t)
  = (Throw ElemFailure, mkState h vm (t ++ failed_copy_events t xs)).
Proof.
  intros Hne Hs Hfo Hd Hd0 Hn Hlt Hq. unfold uninitialized_copy_n. rewrite Hn.
  opose proof (uninitialized_copy_loop_fail vm bs bd pre post spost d0 xs [] spre h t fo d0
                 Hne Hs Hfo Hd Hd0 _ _ Hq) as H.
  { simpl. lia. }
  { lia. }
  cbv zeta in H. rewrite H. cbn [length Nat.add app]. by rewrite insert_id.
Qed.


(** X24: [EmplaceBack] on a full vector, for an element type that is
    copied, when a copy of the migration throws: the copies that were made
    are destroyed, the new storage is released and the failure propagates
    with the vector as it was. The new element, built in the new storage
    before the migration, is not destroyed: after its construction the trace
    holds only the copies and the destruction of the copies. *)
Theorem emplace_back_migration_failure s this xs cap arg v :
  vector_view s this = Some (xs, cap) →
  N.of_nat (length xs) = cap →
  arg_value s this arg = Some v →
  move_mode = false →
  let cap' := N.max 1 (2 * cap) in
  let t1 := trace s ++ [(OpAlloc cap', false)] in
  let t2 := t1 ++ [(arg_op v arg, false)] in
  (max_slots <? cap')%N || throws (trace s) (OpAlloc cap') = false →
  throws t1 (arg_op v arg) = false →
  quiet t2 (OpCopy <$> xs) = false →
  let res := EmplaceBack this arg s in
  res.1 = Throw ElemFailure ∧
  vecs res.2 = vecs s ∧
  vector_view res.2 this = Some (xs, cap) ∧
  heap res.2 !! fresh (dom (heap s)) = None ∧
  trace res.2 = t2 ++ failed_copy_events t2 xs.
Proof.
  destruct s as [h vm t]. intros Hview Hfull Hv Hmode cap' t1 t2 Ha Ht Hq res. subst res.
  pose proof (arg_value_source _ _ _ _ _ _ Hv) as Hsrc.
  pose proof max_slots_lt_modulus as Hmod.
  pose proof Hview as (buf & Hvm & _ & Hmax & Hbuf)%vector_view_inv.
  cbn [heap vecs trace] in *. unfold move_mode in Hmode.
  destruct buf as [|b off].
  { rewrite Hbuf in Hfull.
    assert (xs = []) as -> by (destruct xs; [done|simpl in Hfull; lia]). done. }
  destruct Hbuf as (-> & Hc0 & Hb).
  pose proof (arg_value_alias _ _ _ _ _ _ _ _ _ Hv Hvm) as Hali.
  set (n := N.of_nat (length xs)) in *.
  assert (Hlen : N.to_nat n = length xs) by (unfold n; lia).
  assert (Hgc : grown_capacity n = cap').
  { rewrite grown_capacity_max by lia. subst cap' cap. done. }
  assert (Hcap : cap' = (2 * n)%N) by (subst cap'; lia).
  rewrite <- Hfull in Hvm, Hb. unfold slots_of in Hb. rewrite Hlen, Nat.sub_diag, app_nil_r in Hb.
  clearbody cap' n.
  set (b' := fresh (dom h)).
  assert (Hb' : h !! b' = None) by apply fresh_block_None.
  assert (Hbb : b ≠ b') by congruence.
  unfold EmplaceBack.
  erewrite bind_ok; [|by apply get_vec_ok]. cbn [size_ capacity_ data_ buffer_].
  rewrite N.eqb_refl, Hgc.
  apply orb_false_iff in Ha as [Hle Ha]. apply N.ltb_ge in Hle.
  erewrite bind_ok; [|by apply RawMemory_ctor_ok; [lia|done|done]].
  fold b' t1.
  set (h1 := <[b' := replicate (N.to_nat cap') Raw]> h).
  assert (Hsplit : h1 !! b' = Some (replicate (length xs) Raw ++ Raw ::
                      replicate (N.to_nat cap' - S (length xs)) Raw)).
  { unfold h1. rewrite lookup_insert_eq. f_equal. apply replicate_split. lia. }
  assert (Hv1 : arg_source h1 arg = Some v) by (by apply arg_source_insert_fresh).
  assert (Hali' : ∀ bs os, arg = ByMove (Ptr bs os) → bs ≠ b').
  { intros bs os Harg ->. destruct (arg_source_block _ _ _ _ _ Hsrc Harg) as [? ?]. congruence. }
  pose proof (construct_at_arg h1 vm t1 b' n _ _ arg v Hsplit
                ltac:(rewrite length_replicate; lia) Hv1 Hali') as Hc.
  rewrite Ht in Hc. fold t2 in Hc.
  set (h2 := after_arg arg v (<[b':=replicate (length xs) Raw ++ Live v ::
                replicate (N.to_nat cap' - S (length xs)) Raw]> h1)) in Hc.
  assert (H2b : h2 !! b = Some ([] ++ (Live <$> xs) ++ [])).
  { unfold h2, h1. rewrite after_arg_lookup_ne by done.
    rewrite !lookup_insert_ne by done. by rewrite app_nil_r. }
  assert (H2b' : h2 !! b' = Some ([] ++ replicate (length xs) Raw ++ Live v ::
                      replicate (N.to_nat cap' - S (length xs)) Raw)).
  { unfold h2. rewrite after_arg_lookup_ne by done. by rewrite lookup_insert_eq. }
  opose proof (uninitialized_copy_n_fail h2 vm t2 b b' 0 0 n _ _ _ _ xs Hbb H2b _ H2b' _ Hlen _ Hq)
    as Hm; [done|done|lia|].
  erewrite bind_throw; cycle 1.
  { eapply on_unwind_throw.
    - erewrite bind_ok; [|by apply RawMemory_plus_ok; lia].
      cbn [ptr_add N.add]. erewrite bind_ok; [|exact Hc].
      cbn [GetAddress buffer_]. rewrite Hmode.
      erewrite bind_throw; [done|exact Hm].
    - unfold RawMemory_dtor. cbn [buffer_]. by erewrite Deallocate_ok. }
  cbn [fst snd heap vecs trace]. split; [done|]. split; [done|].
  split; [|split; [by apply lookup_delete_eq|done]].
  rewrite <- Hview. apply vector_view_frame; cbn [vecs heap]; [done|].
  intros b0. unfold owned_block. cbn [vecs]. rewrite Hvm. cbn [data_ buffer_].
  intros [= <-]. rewrite lookup_delete_ne by done. rewrite H2b, Hb.
  cbn [app]. by rewrite app_nil_r.
Qed.

End Rollback.

Section MoreCopyingRuns.

#[local] Existing Instance unlucky_int.

(** [PopBack] on [3; 2]. *)
Lemma pop_back_removes_last_witness :
  let s := one_vector [3; 2]%Z 2 in
  vector_view s 1%positive = Some ([3; 2]%Z, 2%N) ∧
  (PopBack 1%positive s).1 = Ok tt ∧
  vector_view (PopBack 1%positive s).2 1%positive = Some ([3%Z], 2%N).
Proof.
  split; [by vm_compute|].
  pose proof (pop_back_removes_last (one_vector [3; 2]%Z 2) 1%positive [3; 2]%Z 2%N
                ltac:(by vm_compute)) as (H1 & H2 & _).
  split; [exact H1|exact H2].
Defined.

(** [Back] on [3; 2]. *)
Lemma back_is_last_element_witness :
  let s := one_vector [3; 2]%Z 2 in
  vector_view s 1%positive = Some ([3; 2]%Z, 2%N) ∧
  Back 1%positive s = (Ok (position s 1%positive 1), s) ∧
  live_at (heap s) (position s 1%positive 1) = Some 2%Z.
Proof.
  split; [by vm_compute|].
  exact (back_is_last_element (one_vector [3; 2]%Z 2) 1%positive [3; 2]%Z 2%N
           ltac:(by vm_compute)).
Defined.

(** [operator[]] at index 1 of [3; 2]. *)
Lemma index_within_size_witness :
  let s := one_vector [3; 2]%Z 2 in
  vector_view s 1%positive = Some ([3; 2]%Z, 2%N) ∧
  Vector_index 1%positive 1 s = (Ok (position s 1%positive 1), s).
Proof.
  split; [by vm_compute|].
  pose proof (index_within_size (one_vector [3; 2]%Z 2) 1%positive [3; 2]%Z 2%N 1%N
                ltac:(by vm_compute)) as (H & _).
  exact H.
Defined.

(** [Resize 1] on [3; 2; 5]. *)
Lemma resize_down_destroys_tail_witness :
  let s := one_vector [3; 2; 5]%Z 3 in
  (vector_view s 1%positive = Some ([3; 2; 5]%Z, 3%N) ∧ (1 ≤ N.of_nat 3)%N) ∧
  vector_view (Resize 1%positive 1 s).2 1%positive = Some ([3%Z], 3%N) ∧
  trace (Resize 1%positive 1 s).2 = [(OpDestroy 2%Z, false); (OpDestroy 5%Z, false)].
Proof.
  split; [by vm_compute|].
  pose proof (resize_down_destroys_tail (one_vector [3; 2; 5]%Z 3) 1%positive [3; 2; 5]%Z 3%N 1%N
                ltac:(by vm_compute) ltac:(by vm_compute)) as (_ & H2 & _ & H4 & _).
  split; [exact H2|exact H4].
Defined.

(** [Resize 3] on [3] with capacity 3. *)
Lemma resize_within_capacity_witness :
  let s := one_vector [3%Z] 3 in
  (vector_view s 1%positive = Some ([3%Z], 3%N) ∧ (N.of_nat 1 < 3)%N ∧ (3 ≤ 3)%N) ∧
  vector_view (Resize 1%positive 3 s).2 1%positive = Some ([3; 0; 0]%Z, 3%N).
Proof.
  split; [by vm_compute|].
  pose proof (resize_within_capacity (one_vector [3%Z] 3) 1%positive [3%Z] 3%N 3%N
                ltac:(by vm_compute) ltac:(by vm_compute) ltac:(by vm_compute)) as H.
  cbv zeta in H. destruct (quiet _ _) eqn:Hq; [|by vm_compute in Hq].
  destruct H as (_ & H2 & _). exact H2.
Defined.


End MoreCopyingRuns.

Section MoreCopyingRuns2.

#[local] Existing Instance unlucky_int.

(** A copy of [3; 2], which sits in storage of capacity 4. *)
Lemma copy_ctor_tight_copy_witness :
  let s := one_vector [3; 2]%Z 4 in
  (vector_view s 1%positive = Some ([3; 2]%Z, 4%N) ∧ vecs s !! 2%positive = None) ∧
  vector_view (Vector_copy_ctor 2%positive 1%positive s).2 2%positive = Some ([3; 2]%Z, 2%N).
Proof.
  split; [by vm_compute|].
  pose proof (copy_ctor_tight_copy (one_vector [3; 2]%Z 4) 2%positive 1%positive [3; 2]%Z 4%N
                ltac:(by vm_compute) ltac:(by vm_compute)) as H.
  cbv zeta in H.
  destruct (_ && _) eqn:Ha; [by vm_compute in Ha|].
  destruct (quiet _ _) eqn:Hq; [|by vm_compute in Hq].
  destruct H as (_ & H2 & _). exact H2.
Defined.

(** The destructor on [3; 2]. *)
Lemma dtor_releases_everything_witness :
  let s := one_vector [3; 2]%Z 2 in
  vector_view s 1%positive = Some ([3; 2]%Z, 2%N) ∧
  (Vector_dtor 1%positive s).1 = Ok tt ∧
  trace (Vector_dtor 1%positive s).2 = [(OpDestroy 3%Z, false); (OpDestroy 2%Z, false)].
Proof.
  split; [by vm_compute|].
  pose proof (dtor_releases_everything (one_vector [3; 2]%Z 2) 1%positive [3; 2]%Z 2%N
                ltac:(by vm_compute)) as (H1 & _ & _ & _ & _ & H6).
  split; [exact H1|exact H6].
Defined.

(** A copy of [3; 2] built and destroyed. *)
Lemma copy_then_destroy_restores_witness :
  let s := one_vector [3; 2]%Z 4 in
  (vector_view s 1%positive = Some ([3; 2]%Z, 4%N) ∧ vecs s !! 2%positive = None) ∧
  bind (Vector_copy_ctor 2%positive 1%positive) (λ _, Vector_dtor 2%positive) s
  = (Ok tt, mkState (heap s) (vecs s)
              [(OpAlloc 2, false); (OpCopy 3%Z, false); (OpCopy 2%Z, false);
               (OpDestroy 3%Z, false); (OpDestroy 2%Z, false)]).
Proof.
  split; [by vm_compute|].
  exact (copy_then_destroy_restores (one_vector [3; 2]%Z 4) 2%positive 1%positive [3; 2]%Z 4%N
           ltac:(by vm_compute) ltac:(by vm_compute) ltac:(by vm_compute)
           ltac:(by vm_compute)).
Defined.

(** [EmplaceBack] of 7 on [3] with capacity 2. *)
Lemma emplace_back_with_room_witness :
  let s := one_vector [3%Z] 2 in
  (vector_view s 1%positive = Some ([3%Z], 2%N) ∧ (N.of_nat 1 < 2)%N ∧
   arg_value s 1%positive (ByArgs 7%Z) = Some 7%Z) ∧
  vector_view (EmplaceBack 1%positive (ByArgs 7%Z) s).2 1%positive = Some ([3; 7]%Z, 2%N).
Proof.
  split; [by vm_compute|].
  pose proof (emplace_back_with_room (one_vector [3%Z] 2) 1%positive [3%Z] 2%N (ByArgs 7%Z) 7%Z
                ltac:(by vm_compute) ltac:(by vm_compute) ltac:(by vm_compute)) as H.
  cbv zeta in H. destruct (throws _ _) eqn:Ht; [by vm_compute in Ht|].
  destruct H as (_ & H2 & _). exact H2.
Defined.

(** Two pushes onto [3] with capacity 4. *)
Lemma pushes_within_capacity_witness :
  let s := one_vector [3%Z] 4 in
  (vector_view s 1%positive = Some ([3%Z], 4%N) ∧ 1 + 2 ≤ N.to_nat 4) ∧
  vector_view (push_all 1%positive (ByArgs <$> [7; 8]%Z) s).2 1%positive
  = Some ([3; 7; 8]%Z, 4%N).
Proof.
  split; [split; [by vm_compute|simpl; lia]|].
  pose proof (pushes_within_capacity (one_vector [3%Z] 4) 1%positive [3%Z] 4%N [7; 8]%Z
                ltac:(by vm_compute) ltac:(simpl; lia)) as H.
  cbv zeta in H. destruct (quiet _ _) eqn:Hq; [|by vm_compute in Hq].
  destruct H as (_ & H2 & _). exact H2.
Defined.


(** [Swap] of [1] and [2; 3]. *)
Lemma swap_exchanges_witness :
  let s := two_vectors [1%Z] [2; 3]%Z in
  let a := mkVector (mkRawMemory (Ptr 1%positive 0) 1) 1 in
  let b := mkVector (mkRawMemory (Ptr 2%positive 0) 2) 2 in
  (vecs s !! 1%positive = Some a ∧ vecs s !! 2%positive = Some b) ∧
  vector_view (Swap 1%positive 2%positive s).2 1%positive = vector_view s 2%positive ∧
  bind (Swap 1%positive 2%positive) (λ _, Swap 1%positive 2%positive) s = (Ok tt, s).
Proof.
  split; [by vm_compute|].
  pose proof (swap_exchanges (two_vectors [1%Z] [2; 3]%Z) 1%positive 2%positive
                (mkVector (mkRawMemory (Ptr 1%positive 0) 1) 1)
                (mkVector (mkRawMemory (Ptr 2%positive 0) 2) 2)
                ltac:(by vm_compute) ltac:(by vm_compute))
    as (_ & _ & _ & _ & _ & H6 & _ & _ & _ & H10).
  split; [exact H6|exact H10].
Defined.

End MoreCopyingRuns2.

Section RoundTripRuns.

#[local] Existing Instance unlucky_int.

(** A push of 7 onto the full [3; 2], then [PopBack]. *)
Lemma push_then_pop_restores_witness :
  let s := one_vector [3; 2]%Z 2 in
  let res := bind (PushBack 1%positive (ByArgs 7%Z)) (λ _, PopBack 1%positive) s in
  (vector_view s 1%positive = Some ([3; 2]%Z, 2%N) ∧
   arg_value s 1%positive (ByArgs 7%Z) = Some 7%Z ∧ (4 ≤ max_slots)%N ∧
   quiet (trace s) (emplace_ops [3; 2]%Z 2 2 7%Z (ByArgs 7%Z)) = true) ∧
  res.1 = Ok tt ∧ vector_view res.2 1%positive = Some ([3; 2]%Z, 4%N).
Proof.
  split; [by vm_compute|].
  pose proof (push_then_pop_restores (one_vector [3; 2]%Z 2) 1%positive [3; 2]%Z 2%N
                (ByArgs 7%Z) 7%Z ltac:(by vm_compute) ltac:(by vm_compute)
                ltac:(by vm_compute) ltac:(by vm_compute)) as (H1 & H2 & _).
  split; [exact H1|exact H2].
Defined.

(** [Emplace] of 7 at index 1 of the full [3; 2], then [Erase] there. *)
Lemma emplace_then_erase_restores_witness :
  let s := one_vector [3; 2]%Z 2 in
  let r1 := Emplace 1%positive (position s 1%positive 1) (ByArgs 7%Z) s in
  (vector_view s 1%positive = Some ([3; 2]%Z, 2%N) ∧ 1 ≤ 2 ∧
   arg_value s 1%positive (ByArgs 7%Z) = Some 7%Z ∧ (4 ≤ max_slots)%N ∧
   quiet (trace s) (emplace_ops [3; 2]%Z 2 1 7%Z (ByArgs 7%Z)) = true ∧
   quiet (trace r1.2) (erase_ops 7%Z [2%Z]) = true) ∧
  ∃ p, r1.1 = Ok p ∧ vector_view (Erase 1%positive p r1.2).2 1%positive = Some ([3; 2]%Z, 4%N).
Proof.
  split; [repeat split; try (by vm_compute); lia|].
  pose proof (emplace_then_erase_restores (one_vector [3; 2]%Z 2) 1%positive [3; 2]%Z 2%N 1
                (ByArgs 7%Z) 7%Z ltac:(by vm_compute) ltac:(simpl; lia) ltac:(by vm_compute)
                ltac:(by vm_compute) ltac:(by vm_compute) ltac:(by vm_compute))
    as (p & H1 & _ & H3).
  exists p. split; [exact H1|exact H3].
Defined.

(** [Erase] at [end()] of [3; 2]. *)
Lemma positions_out_of_range_witness :
  let s := one_vector [3; 2]%Z 2 in
  vector_view s 1%positive = Some ([3; 2]%Z, 2%N) ∧
  Erase 1%positive (position s 1%positive 2) s = (Undefined, s).
Proof.
  split; [by vm_compute|].
  pose proof (positions_out_of_range (one_vector [3; 2]%Z 2) 1%positive [3; 2]%Z 2%N
                (ByArgs 7%Z) ltac:(by vm_compute)) as (H & _).
  exact (H 2 ltac:(simpl; lia)).
Defined.

(** [Reserve 4] and then [Reserve 2] on [3] with capacity 1. *)
Lemma reserve_again_is_noop_witness :
  let s := one_vector [3%Z] 1 in
  (vector_view s 1%positive = Some ([3%Z], 1%N) ∧ (2 ≤ 4)%N) ∧
  bind (Reserve 1%positive 4) (λ _, Reserve 1%positive 2) s = Reserve 1%positive 4 s.
Proof.
  split; [by vm_compute|].
  exact (reserve_again_is_noop (one_vector [3%Z] 1) 1%positive [3%Z] 1%N 4%N 2%N
           ltac:(by vm_compute) ltac:(by vm_compute)).
Defined.

(** [3; 2] moved into a new object, both destroyed. *)
Lemma move_then_destroy_both_witness :
  let s := one_vector [3; 2]%Z 2 in
  (vector_view s 1%positive = Some ([3; 2]%Z, 2%N) ∧ vecs s !! 2%positive = None) ∧
  bind (Vector_move_ctor 2%positive 1%positive)
       (λ _, bind (Vector_dtor 1%positive) (λ _, Vector_dtor 2%positive)) s
  = Vector_dtor 1%positive s.
Proof.
  split; [by vm_compute|].
  exact (move_then_destroy_both (one_vector [3; 2]%Z 2) 2%positive 1%positive [3; 2]%Z 2%N
           ltac:(by vm_compute) ltac:(by vm_compute)).
Defined.

(** [2; 3] copy-assigned to [1], then destroyed. *)
Lemma copy_outlives_source_witness :
  let s := two_vectors [1%Z] [2; 3]%Z in
  let res := bind (Vector_copy_assign 1%positive 2%positive) (λ _, Vector_dtor 2%positive) s in
  (1%positive ≠ 2%positive ∧ vector_view s 1%positive = Some ([1%Z], 1%N) ∧
   vector_view s 2%positive = Some ([2; 3]%Z, 2%N) ∧
   storage_disjoint s 1%positive 2%positive = true ∧
   quiet (trace s) (copy_assign_ops [1%Z] 1 [2; 3]%Z) = true) ∧
  res.1 = Ok tt ∧ vector_view res.2 1%positive = Some ([2; 3]%Z, 2%N).
Proof.
  split; [by vm_compute|].
  pose proof (copy_outlives_source (two_vectors [1%Z] [2; 3]%Z) 1%positive 2%positive
                [1%Z] 1%N [2; 3]%Z 2%N ltac:(done) ltac:(by vm_compute) ltac:(by vm_compute)
                ltac:(by vm_compute) ltac:(by vm_compute)) as (H1 & H2 & _).
  split; [exact H1|exact H2].
Defined.

(** [Insert] of the vector's own last element at the front of the full
    [3; 2]. *)
Lemma insert_own_element_witness :
  let s := one_vector [3; 2]%Z 2 in
  let res := Insert 1%positive (position s 1%positive 0) (position s 1%positive 1) s in
  (vector_view s 1%positive = Some ([3; 2]%Z, 2%N) ∧ 0 ≤ 2 ∧ [3; 2]%Z !! 1 = Some 2%Z ∧
   (4 ≤ max_slots)%N ∧
   quiet (trace s) (emplace_ops [3; 2]%Z 2 0 2%Z (ByCopy (position s 1%positive 1))) = true) ∧
  vector_view res.2 1%positive = Some ([2; 3; 2]%Z, 4%N).
Proof.
  split; [repeat split; try (by vm_compute); lia|].
  pose proof (insert_own_element (one_vector [3; 2]%Z 2) 1%positive [3; 2]%Z 2%N 0 1 2%Z
                ltac:(by vm_compute) ltac:(simpl; lia) ltac:(by vm_compute)
                ltac:(by vm_compute) ltac:(by vm_compute)) as (_ & H2).
  exact H2.
Defined.


(** [EmplaceBack] of 7 on the full [3; 13] when the copy of 13 throws: 7 is
    constructed and never destroyed. *)
Lemma emplace_back_migration_failure_witness :
  let s := one_vector [3; 13]%Z 2 in
  let res := EmplaceBack 1%positive (ByArgs 7%Z) s in
  (vector_view s 1%positive = Some ([3; 13]%Z, 2%N) ∧ N.of_nat 2 = 2%N ∧
   arg_value s 1%positive (ByArgs 7%Z) = Some 7%Z ∧ move_mode = false) ∧
  res.1 = Throw ElemFailure ∧
  vector_view res.2 1%positive = Some ([3; 13]%Z, 2%N) ∧
  trace res.2 = [(OpAlloc 4, false); (OpConstruct 7%Z, false); (OpCopy 3%Z, false);
                 (OpCopy 13%Z, true); (OpDestroy 3%Z, false)].
Proof.
  split; [by vm_compute|].
  pose proof (emplace_back_migration_failure (one_vector [3; 13]%Z 2) 1%positive [3; 13]%Z 2%N
                (ByArgs 7%Z) 7%Z ltac:(by vm_compute) ltac:(by vm_compute)
                ltac:(by vm_compute) ltac:(by vm_compute) ltac:(by vm_compute)
                ltac:(by vm_compute) ltac:(by vm_compute)) as (H1 & _ & H3 & _ & H5).
  split; [exact H1|]. split; [exact H3|exact H5].
Defined.

(** [begin()] and [end()] of [3; 2]. *)
Lemma begin_end_range_witness :
  let s := one_vector [3; 2]%Z 2 in
  vector_view s 1%positive = Some ([3; 2]%Z, 2%N) ∧
  vend 1%positive s = (Ok (position s 1%positive 2), s) ∧
  distance (position s 1%positive 0) (position s 1%positive 2) = Some 2%N.
Proof.
  split; [by vm_compute|].
  pose proof (begin_end_range (one_vector [3; 2]%Z 2) 1%positive [3; 2]%Z 2%N
                ltac:(by vm_compute)) as (_ & H2 & H3 & _).
  split; [exact H2|exact H3].
Defined.

End RoundTripRuns.

Section AssignmentRuns.

#[local] Existing Instance unlucky_assign_int.

(** [Emplace] of 7 at index 0 of [3; 2] with capacity 3, when the move
    assignment of 7 throws: the size stays 2 and slot 2 holds a live 2. *)
Lemma emplace_with_room_failures_witness :
  let s := one_vector [3; 2]%Z 3 in
  let res := Emplace 1%positive (position s 1%positive 0) (ByArgs 7%Z) s in
  (vector_view s 1%positive = Some ([3; 2]%Z, 3%N) ∧ (N.of_nat 2 < 3)%N ∧
   arg_value s 1%positive (ByArgs 7%Z) = Some 7%Z) ∧
  res.1 = Throw ElemFailure ∧
  Size 1%positive res.2 = (Ok 2%N, res.2) ∧
  live_at (heap res.2) (position res.2 1%positive 2) = Some 2%Z ∧
  vector_view res.2 1%positive = None.
Proof.
  split; [by vm_compute|].
  pose proof (emplace_with_room_failures (one_vector [3; 2]%Z 3) 1%positive [] [3%Z] 2%Z 3%N
                (ByArgs 7%Z) 7%Z ltac:(by vm_compute) ltac:(by vm_compute)
                ltac:(by vm_compute)) as H.
  cbv zeta in H.
  destruct (throws _ _) eqn:H1 in H; [by vm_compute in H1|].
  destruct (throws _ _) eqn:H2 in H; [by vm_compute in H2|].
  destruct (H ltac:(by vm_compute) ltac:(by vm_compute)) as (R1 & _ & R3 & R4 & R5 & _).
  split; [exact R1|]. split; [exact R3|]. split; [exact R4|exact R5].
Defined.

End AssignmentRuns.

Section EraseFailure.

Context {E : Elem}.

Implicit Types (s : state) (h : gmap block (list (slot T))).
Implicit Types (vm : gmap loc Vector) (t : list (event T Args)).
Implicit Types (l pre post : list (slot T)) (xs ys ws zs : list T).

(** A shift down by one slot that fails leaves every slot of the run
    live. *)
Lemma move_loop_down_fail vm b post ws : ∀ d pre h t (od : N),
  h !! b = Some (pre ++ Live d :: (Live <$> ws) ++ post) → N.to_nat od = length pre →
  quiet t (move_chain d ws) = false →
  ∃ zs t', move_loop (Ptr b (od + 1)) (Ptr b od) (length ws) (mkState h vm t)
           = (Throw ElemFailure, mkState (<[b := pre ++ (Live <$> zs) ++ post]> h) vm t') ∧
           length zs = S (length ws).
Proof.
  induction ws as [|w ws IH]; intros d pre h t od Hb Hod Hq; [done|].
  rewrite fmap_cons, <- app_comm_cons in Hb.
  cbn [move_loop length ptr_add move_chain quiet] in *.
  pose proof (move_assign_at_down h vm t b od pre _ d w Hb Hod) as Hstep.
  destruct (throws t (OpMoveAssign d w)) eqn:Ht; cbn [negb andb] in Hq.
  - exists (d :: w :: ws), (t ++ [(OpMoveAssign d w, true)]). split; [|done].
    erewrite bind_throw; [|exact Hstep]. rewrite insert_id; [done|].
    rewrite Hb. by rewrite !fmap_cons.
  - opose proof (IH (moved_from w) (pre ++ [Live w])
                   (<[b := pre ++ Live w :: Live (moved_from w) :: (Live <$> ws) ++ post]> h)
                   (t ++ [(OpMoveAssign d w, false)]) (od + 1)%N _ _ Hq) as (zs & t' & IH' & Hlen).
    + rewrite lookup_insert_eq. by rewrite <- app_assoc.
    + rewrite length_app. simpl. lia.
    + exists (w :: zs), t'. split; [|simpl; lia].
      erewrite bind_ok; [|exact Hstep]. rewrite IH'.
      rewrite insert_insert_eq, fmap_cons, <- !app_assoc. done.
Qed.

Lemma copy_loop_down_fail vm b post ws : ∀ d pre h t (od : N),
  h !! b = Some (pre ++ Live d :: (Live <$> ws) ++ post) → N.to_nat od = length pre →
  quiet t (copy_chain d ws) = false →
  ∃ zs t', copy_loop (Ptr b (od + 1)) (Ptr b od) (length ws) (mkState h vm t)
           = (Throw ElemFailure, mkState (<[b := pre ++ (Live <$> zs) ++ post]> h) vm t') ∧
           length zs = S (length ws).
Proof.
  induction ws as [|w ws IH]; intros d pre h t od Hb Hod Hq; [done|].
  rewrite fmap_cons, <- app_comm_cons in Hb.
  cbn [copy_loop length ptr_add copy_chain quiet] in *.
  pose proof (copy_assign_at_down h vm t b od pre _ d w Hb Hod) as Hstep.
  destruct (throws t (OpCopyAssign d w)) eqn:Ht; cbn [negb andb] in Hq.
  - exists (d :: w :: ws), (t ++ [(OpCopyAssign d w, true)]). split; [|done].
    erewrite bind_throw; [|exact Hstep]. rewrite insert_id; [done|].
    rewrite Hb. by rewrite !fmap_cons.
  - opose proof (IH w (pre ++ [Live w])
                   (<[b := pre ++ Live w :: Live w :: (Live <$> ws) ++ post]> h)
                   (t ++ [(OpCopyAssign d w, false)]) (od + 1)%N _ _ Hq) as (zs & t' & IH' & Hlen).
    + rewrite lookup_insert_eq. by rewrite <- app_assoc.
    + rewrite length_app. simpl. lia.
    + exists (w :: zs), t'. split; [|simpl; lia].
      erewrite bind_ok; [|exact Hstep]. rewrite IH'.
      rewrite insert_insert_eq, fmap_cons, <- !app_assoc. done.
Qed.

(** X26: [Erase] when one of the assignments of the shift throws: the
    failure propagates, nothing is destroyed and the size is not decremented;
    the vector is still well formed, with the same size and capacity in the
    same storage, and the elements before the erased position are
    untouched. *)
Theorem erase_failure_keeps_vector s this xs cap i x :
  vector_view s this = Some (xs, cap) →
  xs !! i = Some x →
  quiet (trace s) (erase_ops x (drop (S i) xs)) = false →
  let res := Erase this (position s this i) s in
  res.1 = Throw ElemFailure ∧
  vecs res.2 = vecs s ∧
  ∃ zs, vector_view res.2 this = Some (take i xs ++ zs, cap) ∧
        length (take i xs ++ zs) = length xs.
Proof.
  destruct s as [h vm t]. intros Hview Hx Hq res. subst res.
  set (ws := drop (S i) xs) in *.
  pose proof max_slots_lt_modulus as Hmod.
  pose proof (lookup_lt_Some _ _ _ Hx) as Hi.
  assert (Hcap : cap ≠ 0%N).
  { apply vector_view_inv in Hview as (buf & _ & Hle & _). lia. }
  apply vector_view_nonempty in Hview as (b & Hvm & Hle & Hmax & Hb); [|done].
  cbn [heap vecs trace] in *.
  unfold position. cbn [vecs]. rewrite Hvm. cbn [data_ GetAddress buffer_ ptr_add].
  rewrite N.add_0_l.
  assert (Hxs : xs = take i xs ++ x :: ws).
  { unfold ws. rewrite <- (take_drop_middle _ _ _ Hx) at 1. done. }
  assert (Hlen : length xs = i + S (length ws)).
  { unfold ws. rewrite length_drop. lia. }
  set (post := replicate (N.to_nat cap - length xs) (@Raw T)) in *.
  assert (Hb1 : h !! b = Some ((Live <$> take i xs) ++ Live x :: (Live <$> ws) ++ post)).
  { rewrite Hb. unfold slots_of. rewrite Hxs at 1.
    rewrite fmap_app, fmap_cons, <- app_assoc. done. }
  assert (Hpre : N.to_nat (N.of_nat i) = length (Live <$> take i xs)).
  { rewrite length_fmap, length_take. lia. }
  unfold Erase.
  erewrite bind_ok; [|by apply get_vec_ok].
  cbn [data_ size_ GetAddress buffer_ ptr_add ptr_le ptr_lt ptr_diff assert_opt].
  rewrite !decide_True by done. rewrite N.add_0_l.
  destruct (N.leb_spec 0 (N.of_nat i)) as [_|]; [|lia].
  destruct (N.ltb_spec (N.of_nat i) (N.of_nat (length xs))) as [_|]; [|lia].
  erewrite bind_ok; [|reflexivity]. erewrite bind_ok; [|reflexivity].
  rewrite size_sub_small by lia. cbn [lift_opt]. erewrite bind_ok; [|reflexivity].
  rewrite N.sub_0_r.
  unfold erase_ops, move_mode in Hq.
  assert (Hshift : ∃ zs t',
    (if nothrow_move_constructible || negb copy_constructible
     then std_move (Ptr b (N.of_nat i + 1)) (Ptr b (N.of_nat (length xs))) (Ptr b (N.of_nat i))
     else std_copy (Ptr b (N.of_nat i + 1)) (Ptr b (N.of_nat (length xs))) (Ptr b (N.of_nat i)))
      (mkState h vm t)
    = (Throw ElemFailure,
       mkState (<[b := (Live <$> take i xs) ++ (Live <$> zs) ++ post]> h) vm t') ∧
    length zs = S (length ws)).
  { destruct (nothrow_move_constructible || negb copy_constructible).
    - unfold std_move. rewrite distance_same_block by lia. cbn [lift_opt].
      erewrite bind_ok; [|reflexivity].
      replace (N.to_nat (N.of_nat (length xs) - (N.of_nat i + 1))) with (length ws) by lia.
      by eapply move_loop_down_fail.
    - unfold std_copy. rewrite distance_same_block by lia. cbn [lift_opt].
      erewrite bind_ok; [|reflexivity].
      replace (N.to_nat (N.of_nat (length xs) - (N.of_nat i + 1))) with (length ws) by lia.
      by eapply copy_loop_down_fail. }
  destruct Hshift as (zs & t' & Hshift & Hzs).
  erewrite bind_throw; [|exact Hshift]. cbn [fst snd vecs].
  split; [done|]. split; [done|].
  assert (Hlen' : length (take i xs ++ zs) = length xs).
  { rewrite length_app, length_take. lia. }
  exists zs. split; [|done].
  eapply vector_view_intro_ptr; cbn [vecs heap].
  - by rewrite Hlen'.
  - by rewrite Hlen'.
  - done.
  - done.
  - rewrite lookup_insert_eq. f_equal. unfold slots_of, post.
    rewrite fmap_app, <- !app_assoc, Hlen'. done.
Qed.

End EraseFailure.

Section EraseFailureRun.

#[local] Existing Instance unlucky_assign_int.

(** [Erase] at index 0 of [3; 2; 7] when assigning 7 throws. *)
Lemma erase_failure_keeps_vector_witness :
  let s := one_vector [3; 2; 7]%Z 3 in
  let res := Erase 1%positive (position s 1%positive 0) s in
  (vector_view s 1%positive = Some ([3; 2; 7]%Z, 3%N) ∧ [3; 2; 7]%Z !! 0 = Some 3%Z ∧
   quiet (trace s) (erase_ops 3%Z [2; 7]%Z) = false) ∧
  res.1 = Throw ElemFailure ∧
  ∃ zs, vector_view res.2 1%positive = Some (zs, 3%N) ∧ length zs = 3.
Proof.
  split; [by vm_compute|].
  pose proof (erase_failure_keeps_vector (one_vector [3; 2; 7]%Z 3) 1%positive [3; 2; 7]%Z 3%N
                0 3%Z ltac:(by vm_compute) ltac:(by vm_compute) ltac:(by vm_compute))
    as (H1 & _ & zs & H3 & H4).
  split; [exact H1|]. exists zs. split; [exact H3|exact H4].
Defined.

End EraseFailureRun.

Section ShiftFailure.

Context {E : Elem}.

Implicit Types (s : state) (h : gmap block (list (slot T))).
Implicit Types (vm : gmap loc Vector) (t : list (event T Args)).
Implicit Types (l pre post : list (slot T)) (xs ys ws zs r : list T).

(** A shift up by one slot that fails leaves every slot of the run live. *)
Lemma move_backward_loop_up_fail vm b pre r : ∀ d post h t (ol : N),
  h !! b = Some (pre ++ (Live <$> rev r) ++ Live d :: post) →
  N.to_nat ol = length pre + length r →
  quiet t (move_chain d r) = false →
  ∃ zs t', move_backward_loop (Ptr b ol) (Ptr b (ol + 1)) (length r) (mkState h vm t)
           = (Throw ElemFailure, mkState (<[b := pre ++ (Live <$> zs) ++ post]> h) vm t') ∧
           length zs = S (length r).
Proof.
  induction r as [|w r IH]; intros d post h t ol Hb Hol Hq; [done|].
  cbn [move_chain quiet] in Hq.
  pose proof Hb as Hb0.
  cbn [rev] in Hb. rewrite fmap_app, <- app_assoc in Hb. simpl in Hb.
  rewrite app_assoc in Hb. simpl in Hol.
  cbn [move_backward_loop length ptr_prev].
  destruct (N.eqb_spec (ol + 1) 0); [lia|].
  destruct (N.eqb_spec ol 0); [lia|].
  replace (ol + 1 - 1)%N with (ol - 1 + 1)%N by lia.
  opose proof (move_assign_at_up h vm t b (ol - 1) _ _ d w Hb _) as Hstep.
  { rewrite length_app, length_fmap, length_rev. lia. }
  destruct (throws t (OpMoveAssign d w)) eqn:Ht; cbn [negb andb] in Hq.
  - exists (rev (w :: r) ++ [d]), (t ++ [(OpMoveAssign d w, true)]). split.
    + erewrite bind_throw; [|exact Hstep]. rewrite insert_id; [done|].
      rewrite Hb0. by rewrite fmap_app, <- app_assoc.
    + rewrite length_app, length_rev. simpl. lia.
  - erewrite bind_ok; [|exact Hstep].
    opose proof (IH (moved_from w) (Live w :: post)
                   (<[b := (pre ++ (Live <$> rev r)) ++ Live (moved_from w) :: Live w :: post]> h)
                   (t ++ [(OpMoveAssign d w, false)]) (ol - 1)%N _ _ Hq)
      as (zs & t' & IH' & Hlen).
    + rewrite lookup_insert_eq. by rewrite <- app_assoc.
    + lia.
    + exists (zs ++ [w]), t'. split; [|rewrite length_app; simpl; lia].
      replace (ol - 1 + 1 - 1)%N with (ol - 1)%N by lia.
      rewrite IH'. rewrite insert_insert_eq.
      rewrite fmap_app, <- !app_assoc. done.
Qed.

(** X27: [Emplace] before the end of a vector with room left, when an
    assignment of the backward shift throws: the copy of the old last element
    in the slot behind the size is destroyed, the temporary value is
    destroyed, and the failure propagates. The vector is still well formed,
    with the same size and capacity in the same storage, and the elements
    before the position are untouched. *)
Theorem emplace_shift_failure s this xs1 ws z cap arg v :
  let xs := xs1 ++ ws ++ [z] in
  vector_view s this = Some (xs, cap) →
  (N.of_nat (length xs) < cap)%N →
  arg_value s this arg = Some v →
  let t1 := trace s ++ [(arg_op v arg, false)] in
  let t2 := t1 ++ [(OpMove z, false)] in
  throws (trace s) (arg_op v arg) = false →
  throws t1 (OpMove z) = false →
  quiet t2 (move_chain (moved_from z) (rev ws)) = false →
  let res := Emplace this (position s this (length xs1)) arg s in
  res.1 = Throw ElemFailure ∧
  vecs res.2 = vecs s ∧
  (∃ zs, vector_view res.2 this = Some (xs1 ++ zs, cap) ∧
         length (xs1 ++ zs) = length xs) ∧
  ∃ t', trace res.2 = t' ++ [(OpDestroy z, false); (OpDestroy v, false)].
Proof.
  destruct s as [h vm t]. intros xs Hview Hn Hv t1 t2 Ht Hz Hq res. subst res.
  pose proof (arg_value_source _ _ _ _ _ _ Hv) as Hsrc.
  pose proof Hview as (b & Hvm & _ & Hmax & Hb)%vector_view_nonempty; [|lia].
  cbn [heap vecs trace] in *.
  pose proof (arg_value_alias _ _ _ _ _ _ _ _ _ Hv Hvm) as Hali.
  unfold position. cbn [vecs]. rewrite Hvm. cbn [data_ GetAddress buffer_ ptr_add].
  rewrite N.add_0_l.
  pose proof max_slots_lt_modulus as Hmod.
  set (n := N.of_nat (length xs)) in *. set (i := N.of_nat (length xs1)).
  assert (Hlenxs : length xs = length xs1 + length ws + 1).
  { unfold xs. rewrite !length_app. simpl. lia. }
  assert (Hnn : N.to_nat n = length xs1 + length ws + 1) by (unfold n; lia).
  assert (Hi : N.to_nat i = length xs1) by (unfold i; lia).
  set (post := replicate (N.to_nat cap - S (length xs)) (@Raw T)).
  assert (Hb0 : h !! b = Some (((Live <$> xs1) ++ (Live <$> ws)) ++ Live z :: Raw :: post)).
  { rewrite Hb. unfold slots_of, xs, post. rewrite !fmap_app, <- !app_assoc. cbn [app fmap list_fmap].
    do 4 f_equal. rewrite !length_app. simpl.
    replace (N.to_nat cap - (length xs1 + (length ws + 1)))
      with (S (N.to_nat cap - S (length xs1 + (length ws + 1)))) by lia.
    simpl. rewrite Hlenxs. do 2 f_equal. lia. }
  assert (Hneq : n = N.of_nat (length xs)) by done.
  clearbody n i.
  set (bn := fresh (dom h)).
  assert (Hbn : h !! bn = None) by apply fresh_block_None.
  assert (Hbbn : bn ≠ b) by congruence.
  unfold Emplace.
  erewrite bind_ok; [|by apply get_vec_ok].
  cbn [data_ size_ capacity_ GetAddress buffer_ ptr_add ptr_le ptr_diff assert_opt ptr_prev].
  rewrite !decide_True by done. rewrite !N.add_0_l.
  destruct (N.eqb_spec n 0) as [|_]; [lia|].
  destruct (N.leb_spec 0 i) as [_|]; [|lia].
  destruct (N.leb_spec i n) as [_|]; [|lia].
  erewrite bind_ok; [|reflexivity]. erewrite bind_ok; [|reflexivity].
  rewrite size_sub_small by lia. cbn [lift_opt]. erewrite bind_ok; [|reflexivity].
  rewrite N.sub_0_r.
  destruct (N.eqb_spec n i) as [|_]; [lia|].
  destruct (N.eqb_spec n cap) as [|_]; [lia|].
  erewrite bind_ok; [|reflexivity]. fold bn.
  set (h1 := <[bn := [Raw]]> h).
  assert (H1bn : h1 !! bn = Some ([] ++ Raw :: [])) by (by unfold h1; rewrite lookup_insert_eq).
  assert (Hv1 : arg_source h1 arg = Some v) by (by apply arg_source_insert_fresh).
  assert (Hali' : ∀ bs os, arg = ByMove (Ptr bs os) → bs ≠ bn).
  { intros bs os Harg ->. destruct (arg_source_block _ _ _ _ _ Hsrc Harg) as [? ?]. congruence. }
  pose proof (construct_at_arg h1 vm t bn 0 _ _ arg v H1bn eq_refl Hv1 Hali') as Hc.
  rewrite Ht in Hc. cbn [app] in Hc.
  set (h2 := after_arg arg v _) in Hc.
  assert (H2bn : h2 !! bn = Some ([] ++ Live v :: [])).
  { unfold h2. rewrite after_arg_lookup_ne by done. by rewrite lookup_insert_eq. }
  assert (H2b : h2 !! b = Some (((Live <$> xs1) ++ (Live <$> ws)) ++ Live z :: Raw :: post)).
  { unfold h2, h1. rewrite after_arg_lookup_ne by done.
    by rewrite !lookup_insert_ne by done. }
  erewrite bind_ok; [|by apply on_unwind_ok]. fold t1.
  opose proof (construct_at_move_up h2 vm t1 b (n - 1) _ _ z H2b _) as Hm.
  { rewrite length_app, !length_fmap. lia. }
  replace (n - 1 + 1)%N with n in Hm by lia.
  rewrite Hz in Hm. fold t2 in Hm.
  set (h3 := <[b := ((Live <$> xs1) ++ (Live <$> ws)) ++ Live (moved_from z) :: Live z :: post]> h2)
    in *.
  opose proof (move_backward_loop_up_fail vm b (Live <$> xs1) (rev ws) (moved_from z)
                 (Live z :: post) h3 t2 (n - 1) _ _ Hq) as (zs & t' & Hs & Hzs).
  { unfold h3. rewrite lookup_insert_eq. rewrite rev_involutive, <- !app_assoc. done. }
  { rewrite length_fmap, length_rev. lia. }
  replace (n - 1 + 1)%N with n in Hs by lia.
  rewrite length_rev in Hs, Hzs.
  set (h4 := <[b := (Live <$> xs1) ++ (Live <$> zs) ++ Live z :: post]> h3) in *.
  assert (H4b : h4 !! b = Some (((Live <$> xs1) ++ (Live <$> zs)) ++ (Live <$> [z]) ++ post)).
  { unfold h4. rewrite lookup_insert_eq. by rewrite <- app_assoc. }
  erewrite scope_throw; cycle 1.
  { erewrite bind_ok; [|by apply RawMemory_plus_ok; lia].
    cbn [ptr_add]. rewrite N.add_0_l.
    erewrite bind_ok; [|exact Hm].
    erewrite bind_throw; [reflexivity|].
    eapply on_unwind_throw.
    - unfold move_backward.
      rewrite distance_same_block by lia. cbn [lift_opt].
      erewrite bind_ok; [|reflexivity].
      replace (N.to_nat (n - 1 - i)) with (length ws) by lia.
      exact Hs.
    - eapply (destroy_n_ok [z]); [exact H4b| |done].
      rewrite length_app, !length_fmap. lia. }
  { erewrite bind_ok; cycle 1.
    { eapply (destroy_at_ok _ _ _ _ _ [] []); [|done].
      rewrite lookup_insert_ne by done. unfold h4, h3.
      rewrite !lookup_insert_ne by done. exact H2bn. }
    erewrite Deallocate_ok; [|by rewrite lookup_insert_eq]. reflexivity. }
  cbn [fst snd vecs trace heap].
  split; [done|]. split; [done|].
  assert (Hlen' : length (xs1 ++ zs) = length xs).
  { rewrite length_app. lia. }
  split.
  - exists zs. split; [|done].
    eapply vector_view_intro_ptr; cbn [vecs heap].
    + by rewrite Hlen', <- Hneq.
    + rewrite Hlen'. lia.
    + done.
    + lia.
    + rewrite lookup_delete_ne by done. rewrite lookup_insert_ne by done.
      rewrite lookup_insert_eq. f_equal. unfold slots_of, post.
      rewrite fmap_app, <- !app_assoc, Hlen'. cbn [length replicate app].
      do 2 f_equal.
      replace (N.to_nat cap - length xs) with (S (N.to_nat cap - S (length xs))) by lia.
      done.
  - exists t'. cbn [fmap list_fmap]. by rewrite <- app_assoc.
Qed.

End ShiftFailure.

Section ShiftFailureRun.

#[local] Existing Instance unlucky_assign_int.

(** [Emplace] of 5 at index 0 of [7; 2] with capacity 3, when the move
    assignment of 7 in the shift throws. *)
Lemma emplace_shift_failure_witness :
  let s := one_vector [7; 2]%Z 3 in
  let res := Emplace 1%positive (position s 1%positive 0) (ByArgs 5%Z) s in
  (vector_view s 1%positive = Some ([7; 2]%Z, 3%N) ∧ (N.of_nat 2 < 3)%N ∧
   arg_value s 1%positive (ByArgs 5%Z) = Some 5%Z) ∧
  res.1 = Throw ElemFailure ∧
  ∃ zs, vector_view res.2 1%positive = Some (zs, 3%N) ∧ length zs = 2.
Proof.
  split; [by vm_compute|].
  pose proof (emplace_shift_failure (one_vector [7; 2]%Z 3) 1%positive [] [7%Z] 2%Z 3%N
                (ByArgs 5%Z) 5%Z ltac:(by vm_compute) ltac:(by vm_compute)
                ltac:(by vm_compute) ltac:(by vm_compute) ltac:(by vm_compute)
                ltac:(by vm_compute)) as (H1 & _ & (zs & H3 & H4) & _).
  split; [exact H1|]. exists zs. split; [exact H3|exact H4].
Defined.

End ShiftFailureRun.

Section AssignFailure.

Context {E : Elem}.

Implicit Types (s : state) (h : gmap block (list (slot T))).
Implicit Types (vm : gmap loc Vector) (t : list (event T Args)).
Implicit Types (l pre post : list (slot T)) (xs ys ws zs : list T).

(** [std::copy] from the start of one block over the start of another,
    when an assignment throws: the target run is still live. *)
Lemma std_copy_across_fail h vm t bs bd (n : N) post spost ds ws :
  bs ≠ bd → length ds = length ws → N.to_nat n = length ws →
  (n < size_t_modulus)%N →
  h !! bs = Some ((Live <$> ws) ++ spost) →
  h !! bd = Some ((Live <$> ds) ++ post) →
  quiet t (zip_with OpCopyAssign ds ws) = false →
  ∃ zs t', std_copy (Ptr bs 0) (ptr_add (Ptr bs 0) n) (Ptr bd 0) (mkState h vm t)
           = (Throw ElemFailure, mkState (<[bd := (Live <$> zs) ++ post]> h) vm t') ∧
           length zs = length ws.
Proof.
  intros Hne Hlen Hn Hlt Hs Hd Hq. unfold std_copy. cbn [ptr_add]. rewrite N.add_0_l.
  rewrite distance_same_block by lia. cbn [lift_opt].
  erewrite bind_ok; [|reflexivity]. rewrite N.sub_0_r, Hn.
  pose proof (copy_loop_across vm bs bd post spost ws ds [] [] h t 0 0 Hne Hlen Hs eq_refl Hd eq_refl)
    as H.
  rewrite Hq in H. exact H.
Qed.

Lemma zip_with_take_l {A B C} (f : A → B → C) (l : list A) (k : list B) :
  zip_with f l k = zip_with f (take (length k) l) k.
Proof.
  revert k. induction l as [|x l IH]; intros [|y k]; simpl; try done. by rewrite <- IH.
Qed.

Lemma zip_with_take_r {A B C} (f : A → B → C) (l : list A) (k : list B) :
  zip_with f l k = zip_with f l (take (length l) k).
Proof.
  revert k. induction l as [|x l IH]; intros [|y k]; simpl; try done. by rewrite <- IH.
Qed.

(** Copy assignment into storage that is large enough, when an assignment
    or a copy throws. *)
Lemma copy_assign_reuse_fail h vm t this rhs b br cx cy xs ys :
  this ≠ rhs → b ≠ br →
  vm !! this = Some (mkVector (mkRawMemory (Ptr b 0) cx) (N.of_nat (length xs))) →
  vm !! rhs = Some (mkVector (mkRawMemory (Ptr br 0) cy) (N.of_nat (length ys))) →
  (N.of_nat (length xs) ≤ cx)%N → (N.of_nat (length ys) ≤ cx)%N → (cx ≤ max_slots)%N →
  (N.of_nat (length ys) ≤ cy)%N →
  h !! b = Some (slots_of xs cx) → h !! br = Some (slots_of ys cy) →
  quiet t (zip_with OpCopyAssign xs ys ++ (OpCopy <$> drop (length xs) ys)) = false →
  ∃ zs t', Vector_copy_assign this rhs (mkState h vm t)
           = (Throw ElemFailure, mkState (<[b := slots_of zs cx]> h) vm t') ∧
           length zs = length xs.
Proof.
  intros Hne Hbb Hthis Hrhs Hxs Hys Hmax Hycy Hb Hbr Hq.
  pose proof max_slots_lt_modulus as Hmod.
  unfold Vector_copy_assign. rewrite decide_True by done.
  erewrite bind_ok; [|by apply get_vec_ok]. erewrite bind_ok; [|by apply get_vec_ok].
  cbn [data_ size_ capacity_ GetAddress buffer_].
  destruct (N.ltb_spec cx (N.of_nat (length ys))) as [|_]; [lia|].
  destruct (N.ltb_spec (N.of_nat (length ys)) (N.of_nat (length xs))) as [Hlt|Hge].
  - (* the source is shorter *)
    assert (Hdrop : drop (length xs) ys = []) by (apply drop_ge; lia).
    rewrite Hdrop, fmap_nil, app_nil_r, zip_with_take_l in Hq.
    opose proof (std_copy_across_fail h vm t br b (N.of_nat (length ys))
                   ((Live <$> drop (length ys) xs) ++ replicate (N.to_nat cx - length xs) Raw)
                   (replicate (N.to_nat cy - length ys) Raw)
                   (take (length ys) xs) ys (not_eq_sym Hbb) _ _ _ Hbr _ Hq)
      as (zs & t' & H & Hzs); try lia.
    { rewrite length_take. lia. }
    { rewrite Hb. unfold slots_of. rewrite <- (take_drop (length ys) xs) at 1.
      rewrite fmap_app, <- app_assoc. done. }
    exists (zs ++ drop (length ys) xs), t'. split.
    + erewrite bind_throw; [|erewrite bind_throw; [done|exact H]].
      do 3 f_equal. unfold slots_of. rewrite fmap_app, <- app_assoc.
      do 3 f_equal. rewrite length_app, length_drop. lia.
    + rewrite length_app, length_drop. lia.
  - (* the source is at least as long *)
    rewrite quiet_app, zip_with_take_r in Hq.
    set (ys1 := take (length xs) ys) in *. set (ys2 := drop (length xs) ys) in *.
    assert (Hl1 : length ys1 = length xs) by (unfold ys1; rewrite length_take; lia).
    assert (Hl2 : length ys2 = length ys - length xs) by (unfold ys2; by rewrite length_drop).
    assert (Hys12 : ys = ys1 ++ ys2) by (unfold ys1, ys2; by rewrite take_drop).
    assert (Hbr' : h !! br = Some ((Live <$> ys1) ++ (Live <$> ys2)
                                   ++ replicate (N.to_nat cy - length ys) Raw)).
    { rewrite Hbr. unfold slots_of. rewrite Hys12 at 1. by rewrite fmap_app, <- app_assoc. }
    destruct (quiet t (zip_with OpCopyAssign xs ys1)) eqn:Hq1; cbn [andb] in Hq.
    + pose proof (std_copy_across h vm t br b (N.of_nat (length xs))
                   (replicate (N.to_nat cx - length xs) Raw)
                   ((Live <$> ys2) ++ replicate (N.to_nat cy - length ys) Raw)
                   xs ys1 (not_eq_sym Hbb) ltac:(lia) ltac:(lia) ltac:(lia) Hbr' Hb) as H.
      rewrite Hq1 in H.
      set (h1 := <[b := (Live <$> ys1) ++ replicate (N.to_nat cx - length xs) Raw]> h) in *.
      set (t1 := t ++ oks (zip_with OpCopyAssign xs ys1)) in *.
      opose proof (uninitialized_copy_n_spec h1 vm t1 br b (N.of_nat (length xs))
                     (N.of_nat (length xs)) (N.of_nat (length ys) - N.of_nat (length xs))
                     (Live <$> ys1) (replicate (N.to_nat cx - length ys) Raw)
                     (Live <$> ys1) (replicate (N.to_nat cy - length ys) Raw)
                     ys2 (not_eq_sym Hbb) _ _ _ _ _ _) as H2.
      { unfold h1. rewrite lookup_insert_ne by done. exact Hbr'. }
      { rewrite length_fmap. lia. }
      { unfold h1. rewrite lookup_insert_eq. do 2 f_equal. rewrite <- replicate_add.
        f_equal. lia. }
      { rewrite length_fmap. lia. }
      { lia. }
      { lia. }
      rewrite Hq in H2. destruct H2 as (t' & H2).
      exists ys1, t'. split; [|done].
      erewrite bind_throw; [done|]. erewrite bind_ok; [|exact H].
      cbn [ptr_add]. rewrite !N.add_0_l. rewrite size_sub_small by lia.
      rewrite H2. unfold h1, slots_of. by rewrite Hl1.
    + opose proof (std_copy_across_fail h vm t br b (N.of_nat (length xs))
                     (replicate (N.to_nat cx - length xs) Raw)
                     ((Live <$> ys2) ++ replicate (N.to_nat cy - length ys) Raw)
                     xs ys1 (not_eq_sym Hbb) _ _ _ Hbr' Hb Hq1)
        as (zs & t' & H & Hzs); try lia.
      exists zs, t'. split; [|lia].
      erewrite bind_throw; [|erewrite bind_throw; [done|exact H]].
      unfold slots_of. do 6 f_equal. lia.
Qed.

(** X28: copy assignment into storage that is large enough, when an
    assignment or a copy throws: the failure propagates; the target keeps its
    size, its capacity and its storage and is still well formed, and the
    source is as before. *)
Theorem copy_assign_in_place_failure s this rhs xs cx ys cy :
  this ≠ rhs →
  vector_view s this = Some (xs, cx) →
  vector_view s rhs = Some (ys, cy) →
  storage_disjoint s this rhs = true →
  (N.of_nat (length ys) ≤ cx)%N →
  quiet (trace s) (copy_assign_ops xs cx ys) = false →
  let res := Vector_copy_assign this rhs s in
  res.1 = Throw ElemFailure ∧
  vecs res.2 = vecs s ∧
  vector_view res.2 rhs = Some (ys, cy) ∧
  ∃ zs, vector_view res.2 this = Some (zs, cx) ∧ length zs = length xs.
Proof.
  destruct s as [h vm t]. intros Hne Hx Hy Hdis Hfit Hq res. subst res.
  unfold copy_assign_ops in Hq. cbn [trace] in Hq.
  destruct (N.ltb_spec cx (N.of_nat (length ys))) as [|_]; [lia|].
  assert (Hysne : ys ≠ []).
  { intros ->. rewrite zip_with_nil_r, drop_nil, fmap_nil in Hq. done. }
  assert (Hcy : cy ≠ 0%N).
  { apply vector_view_inv in Hy as (? & _ & ? & _). destruct ys; [done|]. simpl in *. lia. }
  assert (Hcx : cx ≠ 0%N) by (destruct ys; [done|simpl in *; lia]).
  pose proof Hx as (b & Hvm & Hle & Hmax & Hb)%vector_view_nonempty; [|done].
  pose proof Hy as (br & Hvmr & Hler & Hmaxr & Hbr)%vector_view_nonempty; [|done].
  cbn [heap vecs] in *.
  assert (Hbb : b ≠ br).
  { eapply (storage_disjoint_blocks _ this rhs); [exact Hdis|..];
      unfold owned_block; cbn [vecs]; by rewrite ?Hvm, ?Hvmr. }
  destruct (copy_assign_reuse_fail h vm t this rhs b br cx cy xs ys Hne Hbb Hvm Hvmr
              Hle Hfit Hmax Hler Hb Hbr Hq) as (zs & t' & -> & Hzs).
  cbn [fst snd vecs]. split; [done|]. split; [done|]. split.
  - eapply vector_view_intro_ptr; cbn [vecs heap]; try done.
    by rewrite lookup_insert_ne.
  - exists zs. split; [|done].
    eapply vector_view_intro_ptr; cbn [vecs heap].
    + by rewrite Hzs.
    + by rewrite Hzs.
    + done.
    + done.
    + by rewrite lookup_insert_eq.
Qed.

End AssignFailure.

Section AssignFailureRun.

#[local] Existing Instance unlucky_assign_int.

(** [3; 7] copy-assigned to [1; 2] when assigning 7 throws. *)
Lemma copy_assign_in_place_failure_witness :
  let s := two_vectors [1; 2]%Z [3; 7]%Z in
  let res := Vector_copy_assign 1%positive 2%positive s in
  (1%positive ≠ 2%positive ∧ vector_view s 1%positive = Some ([1; 2]%Z, 2%N) ∧
   vector_view s 2%positive = Some ([3; 7]%Z, 2%N) ∧
   storage_disjoint s 1%positive 2%positive = true ∧ (N.of_nat 2 ≤ 2)%N ∧
   quiet (trace s) (copy_assign_ops [1; 2]%Z 2 [3; 7]%Z) = false) ∧
  res.1 = Throw ElemFailure ∧
  ∃ zs, vector_view res.2 1%positive = Some (zs, 2%N) ∧ length zs = 2.
Proof.
  split; [by vm_compute|].
  pose proof (copy_assign_in_place_failure (two_vectors [1; 2]%Z [3; 7]%Z) 1%positive 2%positive
                [1; 2]%Z 2%N [3; 7]%Z 2%N ltac:(done) ltac:(by vm_compute) ltac:(by vm_compute)
                ltac:(by vm_compute) ltac:(by vm_compute) ltac:(by vm_compute))
    as (H1 & _ & _ & zs & H3 & H4).
  split; [exact H1|]. exists zs. split; [exact H3|exact H4].
Defined.

End AssignFailureRun.
